(** * Verification of the cycle-detection pass of FastCircularDependencyPlugin

    The development embeds the body of the [optimizeModules] hook of
    [src/index.js] (module sort, index map, adjacency build, Tarjan's
    strongly-connected-components computation, component classification,
    cycle recovery and the reporting loop) together with the refactored copy
    that follows the type declarations in [src/index.d.ts], and proves the
    properties stated for them.

    Conventions of the embedding:
    - a webpack module is a JavaScript object; its identity is a [handle]
      and its fields are read through a [heap];
    - JavaScript arrays used as stacks ([st], [stack]) are lists whose head
      is the top of the stack (the last array element); wherever the source
      reads such an array from its first element the model reverses it;
    - arrays indexed by node ([idx], [low], [onSt], [sccId], [adj]) are lists
      read with [!!] and written with [<[i:=x]>];
    - every write to such an array is at an index below its length (the
      arrays are allocated with [N] entries and nodes are below [N], see
      [buildAdjacencyList_closed]), so the growth of a JavaScript array
      written past its end never occurs and [<[i:=x]>] is exact;
    - [Array.prototype.sort] is the stable sort of the language standard,
      modelled by insertion ([arraySort]); resource identifiers are byte
      strings compared position by position, as [<] compares strings;
    - [include] and [exclude] are predicates on resource identifiers: the
      patterns are taken without the [g] and [y] flags, so [test] keeps no
      state between calls;
    - the recursive closures [strongconnect] and [dfs] take a [fuel]
      argument that bounds the depth of the JavaScript call stack;
    - a result [None] stands for a run that does not return normally: the
      call stack is exhausted, the loop never exits, or [dfs] reads the
      [length] of a row that does not exist. *)

From Stdlib Require Import ZArith Lia String Ascii OrderedTypeEx Permutation.
From stdpp Require Import base option list gmap strings sorting.

Local Open Scope Z_scope.
Local Open Scope nat_scope.

(* [set_solver] clears hypotheses it has already consumed. *)
Set Warnings "-clear-no-such-hyp".

(** ** Data model *)

(** Identity of a module object. *)
Abbreviation handle := nat (only parsing).

(** The part of [m.rootModule] / [m.originalModule] that the pass reads. *)
Record ModRef := { ref_resource : option string }.

(** A dependency record: [dep_selfref] is
    [dep.constructor.name === 'CommonJsSelfReferenceDependency'], [weak] is
    the truthiness of [dep.weak], [dep_module] is the module the record
    resolves to ([moduleGraph.getModule(dep)] or [dep.module]). *)
Record Dependency := {
  dep_selfref : bool;
  weak : bool;
  dep_module : option handle
}.

(** A module object; [None] entries of [dependencies] are falsy array
    elements. *)
Record Module := {
  resource : option string;
  rootModule : option ModRef;
  originalModule : option ModRef;
  dependencies : list (option Dependency)
}.

(** Truthiness of a string-valued property: absent and empty are falsy. *)
Definition truthy (s : option string) : option string :=
  match s with
  | Some r => if decide (r = EmptyString) then None else Some r
  | None => None
  end.

(** [getResource] / [getModuleResource] on a module object. *)
Definition getResource (m : Module) : option string :=
  match truthy (resource m) with
  | Some r => Some r
  | None =>
    match rootModule m ≫= (λ r, truthy (ref_resource r)) with
    | Some r => Some r
    | None =>
      match originalModule m ≫= (λ r, truthy (ref_resource r)) with
      | Some r => Some r
      | None => None
      end
    end
  end.

(** [Array.prototype.sort] with a comparator: a stable sort.  [sortInsert]
    places [x], which precedes every element of [l] in the input, before the
    first element that does not compare below it. *)
Section StableSort.
Context {A : Type} (cmp : A → A → Z).

Fixpoint sortInsert (x : A) (l : list A) : list A :=
  match l with
  | [] => [x]
  | y :: l' => if (cmp y x <? 0)%Z then y :: sortInsert x l' else x :: y :: l'
  end.

Fixpoint arraySort (l : list A) : list A :=
  match l with
  | [] => []
  | x :: l' => sortInsert x (arraySort l')
  end.
End StableSort.

(** The comparator shared by both sorts of the source, on the two keys
    [ra] and [rb]. *)
Definition compareKeys (ra rb : string) : Z :=
  if String.ltb ra rb then (-1)%Z
  else if String.ltb rb ra then 1%Z
  else 0%Z.

Section Pass.
(** The object store and the recognised options. *)
Variable heap : handle → Module.
Variable allowAsyncCycles : bool.

Definition resourceOf (m : handle) : option string := getResource (heap m).

(** [getResource(a) || ''] *)
Definition keyOf (m : handle) : string := default EmptyString (resourceOf m).

Definition compareModules (a b : handle) : Z := compareKeys (keyOf a) (keyOf b).

(** [for (const m of modules) if (m) modList.push(m)] followed by
    [modList.sort(...)]; this is [createSortedModuleList]. *)
Definition createSortedModuleList (modules : list (option handle)) : list handle :=
  arraySort compareModules (omap id modules).

(** [for (i...) idOf.set(modList[i], i)], started at index [i]. *)
Fixpoint setIds (l : list handle) (i : nat) (idOf : gmap handle nat) : gmap handle nat :=
  match l with
  | [] => idOf
  | m :: l' => setIds l' (S i) (<[m := i]> idOf)
  end.

Definition mkIdOf (modList : list handle) : gmap handle nat := setIds modList 0 ∅.

(** One iteration of the loop of [getDeps] / [collectModuleDependencies]:
    the module pushed for the record [dep] of module [m], if any. *)
Definition depTarget (m : handle) (dep : option Dependency) : option handle :=
  match dep with
  | None => None
  | Some d =>
    if dep_selfref d then None
    else if allowAsyncCycles && weak d then None
    else match dep_module d with
         | None => None
         | Some depModule =>
           match resourceOf depModule with
           | None => None
           | Some _ => if decide (depModule = m) then None else Some depModule
           end
         end
  end.

Definition getDeps (m : handle) : list handle :=
  omap (depTarget m) (dependencies (heap m)).

(** Inner loop of the adjacency build: [adj[i].push(j)] for every entry of
    [deps] known to [idOf]. *)
Fixpoint pushDeps (idOf : gmap handle nat) (i : nat) (deps : list handle)
    (adj : list (list nat)) : list (list nat) :=
  match deps with
  | [] => adj
  | dep :: rest =>
    match idOf !! dep with
    | None => pushDeps idOf i rest adj
    | Some j => pushDeps idOf i rest (<[i := (adj !!! i) ++ [j]]> adj)
    end
  end.

(** Outer loop of the adjacency build over the indices [rows]. *)
Fixpoint buildRows (modList : list handle) (idOf : gmap handle nat)
    (rows : list nat) (adj : list (list nat)) : list (list nat) :=
  match rows with
  | [] => adj
  | i :: rest =>
    match modList !! i with
    | None => buildRows modList idOf rest adj
    | Some from => buildRows modList idOf rest (pushDeps idOf i (getDeps from) adj)
    end
  end.

Definition buildAdjacencyList (modList : list handle) (idOf : gmap handle nat)
    : list (list nat) :=
  let N := length modList in
  buildRows modList idOf (seq 0 N) (replicate N []).
End Pass.

(** ** Tarjan's algorithm ([src/index.js], "Tarjan SCC") *)

(** The variables shared by the closure [strongconnect]. *)
Record tarjan := Tarjan {
  index : Z;
  idx : list Z;
  low : list Z;
  onSt : list bool;
  sccId : list Z;
  st : list nat;
  sccs : list (list nat)
}.

(** [for (i...) { idx[i] = -1; low[i] = 0; onSt[i] = false; sccId[i] = -1; }] *)
Definition tarjanInit (N : nat) : tarjan :=
  Tarjan 0 (replicate N (-1)%Z) (replicate N 0%Z) (replicate N false)
         (replicate N (-1)%Z) [] [].

(** [idx[v] = index; low[v] = index; index++; st.push(v); onSt[v] = true;] *)
Definition enter (v : nat) (s : tarjan) : tarjan :=
  Tarjan (index s + 1) (<[v := index s]> (idx s)) (<[v := index s]> (low s))
         (<[v := true]> (onSt s)) (sccId s) (v :: st s) (sccs s).

(** [low[v] = x] *)
Definition setLow (v : nat) (x : Z) (s : tarjan) : tarjan :=
  Tarjan (index s) (idx s) (<[v := x]> (low s)) (onSt s) (sccId s) (st s) (sccs s).

(** The [do ... while (w !== v)] loop that pops one component; [k] is
    [sccs.length].  On an empty stack [st.pop()] yields [undefined] and the
    loop of the source never exits: no result. *)
Fixpoint popLoop (v : nat) (k : Z) (st : list nat) (onSt : list bool)
    (sccId : list Z) (comp : list nat)
    : option (list nat * list bool * list Z * list nat) :=
  match st with
  | [] => None
  | w :: st' =>
    let onSt' := <[w := false]> onSt in
    let comp' := comp ++ [w] in
    let sccId' := <[w := k]> sccId in
    if decide (w = v) then Some (st', onSt', sccId', comp')
    else popLoop v k st' onSt' sccId' comp'
  end.

(** [if (low[v] === idx[v]) { ...; sccs.push(comp); }] *)
Definition closeComponent (v : nat) (s : tarjan) : option tarjan :=
  if decide (low s !!! v = idx s !!! v) then
    '(st', onSt', sccId', comp) ← popLoop v (Z.of_nat (length (sccs s))) (st s) (onSt s) (sccId s) [];
    Some (Tarjan (index s) (idx s) (low s) onSt' sccId' st' (sccs s ++ [comp]))
  else Some s.

Section Tarjan.
Variable adj : list (list nat).

(** The [for (a...)] loop of [strongconnect(v)] over the remaining
    [edges]; [rec] is the recursive call. *)
Fixpoint visitEdges (rec : nat → tarjan → option tarjan) (v : nat)
    (edges : list nat) (s : tarjan) : option tarjan :=
  match edges with
  | [] => Some s
  | w :: rest =>
    if decide (idx s !! w = Some (-1)%Z) then
      s' ← rec w s;
      visitEdges rec v rest
        (setLow v (if (low s' !!! v <? low s' !!! w)%Z then low s' !!! v else low s' !!! w) s')
    else if decide (onSt s !! w = Some true) then
      visitEdges rec v rest
        (setLow v (if (low s !!! v <? idx s !!! w)%Z then low s !!! v else idx s !!! w) s)
    else visitEdges rec v rest s
  end.

(** [strongconnect(v)]; [fuel] nested activations are available.  The
    source calls it only for [v] with [idx[v] === -1], an index of the
    arrays, so the row [adj[v]] exists. *)
Fixpoint strongconnect (fuel : nat) (v : nat) (s : tarjan) : option tarjan :=
  match fuel with
  | 0 => None
  | S fuel' =>
    s' ← visitEdges (strongconnect fuel') v (adj !!! v) (enter v s);
    closeComponent v s'
  end.

(** [for (let v = 0; v < N; v++) if (idx[v] === -1) strongconnect(v);] *)
Fixpoint tarjanLoop (fuel : nat) (vs : list nat) (s : tarjan) : option tarjan :=
  match vs with
  | [] => Some s
  | v :: rest =>
    if decide (idx s !! v = Some (-1)%Z) then
      s' ← strongconnect fuel v s; tarjanLoop fuel rest s'
    else tarjanLoop fuel rest s
  end.

Definition tarjanRun (fuel : nat) : option tarjan :=
  let N := length adj in
  tarjanLoop fuel (seq 0 N) (tarjanInit N).

(** ** Cycle recovery ([findCycleFrom] / [findSimpleCycleFrom]) *)

Section FindCycle.
Variable start : nat.
Variable compSet : gset nat.

(** The [for (a...)] loop of [dfs(u)] on the variables [seen] and
    [stack]; the result is [true] when the loop returned [true]. *)
Fixpoint dfsEdges (rec : nat → gset nat * list nat → option (bool * (gset nat * list nat)))
    (edges : list nat) (σ : gset nat * list nat)
    : option (bool * (gset nat * list nat)) :=
  match edges with
  | [] => Some (false, σ)
  | w :: rest =>
    if decide (w ∈ compSet) then
      if decide (w = start ∧ 1 < length σ.2) then Some (true, σ)
      else if decide (w ∈ σ.1) then dfsEdges rec rest σ
      else
        '(found, σ') ← rec w σ;
        if found : bool then Some (true, σ') else dfsEdges rec rest σ'
    else dfsEdges rec rest σ
  end.

(** [dfs(u)]; [fuel] nested activations are available.  For a node
    without a row [adj[u]] is [undefined] and [edges.length] throws: no
    result. *)
Fixpoint dfs (fuel : nat) (u : nat) (σ : gset nat * list nat)
    : option (bool * (gset nat * list nat)) :=
  match fuel with
  | 0 => None
  | S fuel' =>
    if decide (u ∈ σ.1) then Some (false, σ)
    else
      edges ← adj !! u;
      '(found, σ') ← dfsEdges (dfs fuel') edges ({[u]} ∪ σ.1, u :: σ.2);
      if found : bool then Some (true, σ') else Some (false, (σ'.1, tail σ'.2))
  end.

(** [findCycleFrom(start, compSet)]: [Some None] is the result [null],
    [cyc] is [stack.slice()] followed by [start]. *)
Definition findCycleFrom (fuel : nat) : option (option (list nat)) :=
  '(found, σ) ← dfs fuel start (∅, []);
  if found : bool then Some (Some (reverse σ.2 ++ [start])) else Some None.
End FindCycle.
End Tarjan.

(** ** Reporting ([src/index.js]) *)

(** An error object: either the diagnostic the pass creates itself or a
    value thrown by [onDetected]. *)
Inductive Err (E : Type) :=
  | CircularError (msg : string)
  | Thrown (e : E).
Arguments CircularError {E} msg.
Arguments Thrown {E} e.

(** The argument of [onDetected]; [det_module = None] is [undefined]. *)
Record Detected := { det_module : option handle; det_paths : list string }.

(** What the reporting loop acts on: the two channels of the compilation,
    the private state of the [onDetected] collaborator, and the log of the
    calls made to it (a ghost field, never read by the pass). *)
Record Host (Σ E : Type) := {
  errors : list (Err E);
  warnings : list (Err E);
  cbState : Σ;
  calls : list Detected
}.
Arguments errors {Σ E} h.
Arguments warnings {Σ E} h.
Arguments cbState {Σ E} h.
Arguments calls {Σ E} h.

Definition CRLF : string := String (ascii_of_nat 13) (String (ascii_of_nat 10) EmptyString).

(** ['Circular dependency detected:\r\n' + relPaths.join(' -> ')] *)
Definition message (relPaths : list string) : string :=
  ("Circular dependency detected:" +:+ CRLF +:+ String.concat " -> " relPaths)%string.

(** [adj[i].find((w) => compSet.has(w))] followed by the [typeof] test. *)
Definition fallbackCycle (adj : list (list nat)) (i : nat) (compSet : gset nat)
    : option (list nat) :=
  match List.find (λ w, bool_decide (w ∈ compSet)) (adj !!! i) with
  | Some nb => Some [i; nb; i]
  | None => None
  end.

(** [findCycleFrom(i, compSet)] and the fallback; [Some None] when
    [cycleIdx] stays falsy.  The depth [S (size compSet)] given to [dfs]
    is never exhausted ([findCycleFrom_total]); the fallback reads the row
    [adj[i]] that [dfs(i)] has read before it. *)
Definition cycleOrFallback (adj : list (list nat)) (i : nat) (compSet : gset nat)
    : option (option (list nat)) :=
  cycleIdx ← findCycleFrom adj i compSet (S (size compSet));
  match cycleIdx with
  | Some cyc => Some (Some cyc)
  | None => Some (fallbackCycle adj i compSet)
  end.

Section Options.
Context {Σ E : Type}.
(** [exclude.test], [include.test] (patterns without the global or sticky
    flag, whose [test] has no state), [path.relative(baseDir, ·)],
    [failOnError] and the optional [onDetected], which returns its new
    state and the value it threw, if any. *)
Variable exclude include : string → bool.
Variable relative : string → string.
Variable failOnError : bool.
Variable onDetected : option (Detected → Σ → Σ * option E).

(** [rel = (abs) => (abs ? path.relative(baseDir, abs) : '')] *)
Definition rel (abs : string) : string :=
  if decide (abs = EmptyString) then EmptyString else relative abs.

(** The tail of an iteration of either reporting loop, from the point
    where [relPaths] is known. *)
Definition emit (m : option handle) (relPaths : list string) (h : Host Σ E) : Host Σ E :=
  match onDetected with
  | Some cb =>
    let arg := {| det_module := m; det_paths := relPaths |} in
    let '(σ', thrown) := cb arg (cbState h) in
    {| errors := match thrown with
                 | Some err => errors h ++ [Thrown err]
                 | None => errors h
                 end;
       warnings := warnings h;
       cbState := σ';
       calls := calls h ++ [arg] |}
  | None =>
    let e := CircularError (message relPaths) in
    if failOnError
    then {| errors := errors h ++ [e]; warnings := warnings h;
            cbState := cbState h; calls := calls h |}
    else {| errors := errors h; warnings := warnings h ++ [e];
            cbState := cbState h; calls := calls h |}
  end.

Section Js.
Variable heap : handle → Module.
Variable modList : list handle.
Variable idOf : gmap handle nat.
Variable adj : list (list nat).
Variable t : tarjan.

(** The inner [for] loop of the classification, with its [break]. *)
Fixpoint anyMissing (comp : list nat) : bool :=
  match comp with
  | [] => false
  | c :: rest =>
    match modList !! c ≫= resourceOf heap with
    | None => true
    | Some _ => anyMissing rest
    end
  end.

(** The value stored in [sccInvalid[s]] for [comp = sccs[s]]. *)
Definition componentInvalid (comp : list nat) : bool :=
  if length comp <=? 1 then true else anyMissing comp.

Definition sccInvalid : list bool := componentInvalid <$> sccs t.

(** One iteration of the reporting loop up to [if (!cycleIdx) continue;]:
    [Some None] is [continue], [Some (Some (m, cycleIdx))] reaches the
    emission. *)
Definition selectCycle (mIdx : nat) : option (option (handle * list nat)) :=
  match modList !! mIdx with
  | None => Some None
  | Some m =>
    match idOf !! m with
    | None => Some None
    | Some i =>
      let k := sccId t !!! i in
      if decide ((k < 0)%Z ∨ sccInvalid !! Z.to_nat k = Some true) then Some None
      else match resourceOf heap m with
           | None => Some None
           | Some resource =>
             if exclude resource then Some None
             else if negb (include resource) then Some None
             else
               let comp := sccs t !!! Z.to_nat k in
               let compSet : gset nat := list_to_set comp in
               match cycleOrFallback adj i compSet with
               | None => None
               | Some None => Some None
               | Some (Some cycleIdx) => Some (Some (m, cycleIdx))
               end
           end
    end
  end.

(** [relPaths] of a cycle of indices. *)
Definition relPathsOf (cycleIdx : list nat) : list string :=
  (λ p, rel (default EmptyString (modList !! p ≫= resourceOf heap))) <$> cycleIdx.

(** The reporting loop over the indices [mIdxs]. *)
Fixpoint reportLoop (mIdxs : list nat) (h : Host Σ E) : option (Host Σ E) :=
  match mIdxs with
  | [] => Some h
  | mIdx :: rest =>
    sel ← selectCycle mIdx;
    match sel with
    | None => reportLoop rest h
    | Some (m, cycleIdx) => reportLoop rest (emit (Some m) (relPathsOf cycleIdx) h)
    end
  end.
End Js.

(** The body of the hook between [onStart] and [onEnd]. *)
Definition detect (heap : handle → Module) (allowAsyncCycles : bool)
    (modules : list (option handle)) (h : Host Σ E) : option (Host Σ E) :=
  let modList := createSortedModuleList heap modules in
  let idOf := mkIdOf modList in
  let adj := buildAdjacencyList heap allowAsyncCycles modList idOf in
  t ← tarjanRun adj (length adj);
  reportLoop heap modList idOf adj t (seq 0 (length modList)) h.
End Options.

(** ** The refactored copy ([src/index.d.ts], after the declarations)

    [getModuleResource], [createSortedModuleList],
    [collectModuleDependencies], [buildAdjacencyList], [findSimpleCycleFrom]
    and [makeRelativizer] are the closures of [src/index.js] with their free
    variables turned into parameters; they are embedded by [getResource],
    [createSortedModuleList], [getDeps], [buildAdjacencyList],
    [findCycleFrom] and [rel] above.  The functions that differ are embedded
    here. *)
Module Dts.

(** The variables shared by the closure [strongConnect]. *)
Record scc := Scc {
  index : Z;
  idx : list Z;
  low : list Z;
  onStack : list bool;
  stack : list nat;
  sccs : list (list nat)
}.

(** The arrays as allocated: [idx] filled with [-1], [low] with [0],
    [onStack] with [false]. *)
Definition init (N : nat) : scc :=
  Scc 0 (replicate N (-1)%Z) (replicate N 0%Z) (replicate N false) [] [].

(** [idx[v] = index; low[v] = index; index++; stack.push(v);
    onStack[v] = true]. *)
Definition enter (v : nat) (s : scc) : scc :=
  Scc (index s + 1) (<[v := index s]> (idx s)) (<[v := index s]> (low s))
      (<[v := true]> (onStack s)) (v :: stack s) (sccs s).

(** [low[v] = x]. *)
Definition setLow (v : nat) (x : Z) (s : scc) : scc :=
  Scc (index s) (idx s) (<[v := x]> (low s)) (onStack s) (stack s) (sccs s).

(** [while (stack.length) { ...; if (w === v) break; }] *)
Fixpoint popLoop (v : nat) (stack : list nat) (onStack : list bool) (comp : list nat)
    : list nat * list bool * list nat :=
  match stack with
  | [] => (stack, onStack, comp)
  | w :: stack' =>
    let onStack' := <[w := false]> onStack in
    let comp' := comp ++ [w] in
    if decide (w = v) then (stack', onStack', comp')
    else popLoop v stack' onStack' comp'
  end.

(** [if (low[v] === idx[v]) { ...; sccs.push(comp); }] *)
Definition closeComponent (v : nat) (s : scc) : scc :=
  if decide (low s !!! v = idx s !!! v) then
    let '(stack', onStack', comp) := popLoop v (stack s) (onStack s) [] in
    Scc (index s) (idx s) (low s) onStack' stack' (sccs s ++ [comp])
  else s.

Section Scc.
Variable adj : list (list nat).

(** The loop over [adj[v]], with [Math.min] on the low links. *)
Fixpoint visitEdges (rec : nat → scc → option scc) (v : nat)
    (edges : list nat) (s : scc) : option scc :=
  match edges with
  | [] => Some s
  | w :: rest =>
    if decide (idx s !! w = Some (-1)%Z) then
      s' ← rec w s;
      visitEdges rec v rest (setLow v (Z.min (low s' !!! v) (low s' !!! w)) s')
    else if decide (onStack s !! w = Some true) then
      visitEdges rec v rest (setLow v (Z.min (low s !!! v) (idx s !!! w)) s)
    else visitEdges rec v rest s
  end.

(** [strongConnect(v)]; [fuel] bounds the depth of the recursion. *)
Fixpoint strongConnect (fuel : nat) (v : nat) (s : scc) : option scc :=
  match fuel with
  | 0 => None
  | S fuel' =>
    s' ← visitEdges (strongConnect fuel') v (adj !!! v) (enter v s);
    Some (closeComponent v s')
  end.

(** [for (let v = 0; v < N; v++) if (idx[v] === -1) strongConnect(v);] *)
Fixpoint mainLoop (fuel : nat) (vs : list nat) (s : scc) : option scc :=
  match vs with
  | [] => Some s
  | v :: rest =>
    if decide (idx s !! v = Some (-1)%Z) then
      s' ← strongConnect fuel v s; mainLoop fuel rest s'
    else mainLoop fuel rest s
  end.

Definition computeStronglyConnectedComponents (fuel : nat) : option (list (list nat)) :=
  let N := length adj in
  sccs <$> mainLoop fuel (seq 0 N) (init N).
End Scc.

Section Apply.
Context {Σ E : Type}.
Variable exclude include : string → bool.
Variable relative : string → string.
Variable failOnError : bool.
Variable onDetected : option (Detected → Σ → Σ * option E).
Variable modList : list handle.
Variable resOf : list (option string).
Variable adj : list (list nat).

(** [resOf[i]] as the source tests it: [None] is falsy. *)
Definition resAt (i : nat) : option string := mjoin (resOf !! i).

Fixpoint anyMissing (comp : list nat) : bool :=
  match comp with
  | [] => false
  | c :: rest =>
    match resAt c with
    | None => true
    | Some _ => anyMissing rest
    end
  end.

Definition flagInvalidComponents (sccs : list (list nat)) : list bool :=
  (λ comp, if length comp <=? 1 then true else anyMissing comp) <$> sccs.

Definition sortIndicesByResource (indices : list nat) : list nat :=
  arraySort (λ ia ib, compareKeys (default EmptyString (resAt ia))
                                  (default EmptyString (resAt ib))) indices.

(** One iteration of the inner loop up to [if (!cycleIdx) continue;]. *)
Definition selectCycle (compSet : gset nat) (node : nat) : option (option (list nat)) :=
  match resAt node with
  | None => Some None
  | Some resource =>
    if exclude resource then Some None
    else if negb (include resource) then Some None
    else cycleOrFallback adj node compSet
  end.

Definition relPathsOf (cycleIdx : list nat) : list string :=
  (λ i, rel relative (default EmptyString (resAt i))) <$> cycleIdx.

(** The inner loop over the sorted members [comp]. *)
Fixpoint memberLoop (compSet : gset nat) (comp : list nat) (h : Host Σ E)
    : option (Host Σ E) :=
  match comp with
  | [] => Some h
  | node :: rest =>
    sel ← selectCycle compSet node;
    match sel with
    | None => memberLoop compSet rest h
    | Some cycleIdx =>
      memberLoop compSet rest
        (emit failOnError onDetected (modList !! node) (relPathsOf cycleIdx) h)
    end
  end.

(** The outer loop over the components paired with their flag. *)
Fixpoint componentLoop (comps : list (list nat * bool)) (h : Host Σ E)
    : option (Host Σ E) :=
  match comps with
  | [] => Some h
  | (comp, invalid) :: rest =>
    if invalid : bool then componentLoop rest h
    else
      h' ← memberLoop (list_to_set comp) (sortIndicesByResource comp) h;
      componentLoop rest h'
  end.
End Apply.

(** The body of the hook between [onStart] and [onEnd]. *)
Definition detect {Σ E : Type} (exclude include : string → bool)
    (relative : string → string) (failOnError : bool)
    (onDetected : option (Detected → Σ → Σ * option E))
    (heap : handle → Module) (allowAsyncCycles : bool)
    (modules : list (option handle)) (h : Host Σ E) : option (Host Σ E) :=
  let modList := createSortedModuleList heap modules in
  let idOf := mkIdOf modList in
  let resOf := resourceOf heap <$> modList in
  let adj := buildAdjacencyList heap allowAsyncCycles modList idOf in
  sccs ← computeStronglyConnectedComponents adj (length adj);
  let sccInvalid := flagInvalidComponents resOf sccs in
  componentLoop exclude include relative failOnError onDetected modList resOf adj
    (zip sccs sccInvalid) h.
End Dts.

(** ** Graph notions and invariants used by the proofs *)

Section Graph.
Variable adj : list (list nat).

(** [edge u w]: [w] occurs in [adj[u]]. *)
Definition edge (u w : nat) : Prop := w ∈ adj !!! u.

(** [reach P u z]: a path of edges from [u] to [z] all of whose nodes
    satisfy [P]. *)
Inductive reach (P : nat → Prop) : nat → nat → Prop :=
  | reach_refl u : P u → reach P u u
  | reach_step u w z : P u → edge u w → reach P w z → reach P u z.

(** Every entry of an adjacency list is a node. *)
Definition closedGraph : Prop := ∀ u w, edge u w → w < length adj.

(** A list of nodes is strongly connected by paths that stay inside it. *)
Definition stronglyConnected (comp : list nat) : Prop :=
  ∀ x y, x ∈ comp → y ∈ comp → reach (λ u, u ∈ comp) x y.

(** Two nodes are mutually reachable in the whole graph. *)
Definition mutuallyReachable (x y : nat) : Prop :=
  reach (λ _, True) x y ∧ reach (λ _, True) y x.

(** Every two consecutive nodes of [cyc] are joined by an edge. *)
Fixpoint isWalk (cyc : list nat) : Prop :=
  match cyc with
  | u :: (w :: _) as rest => edge u w ∧ isWalk rest
  | _ => True
  end.

(** Every node of a stack (top first) is a successor of the node below
    it. *)
Fixpoint chainUp (stack : list nat) : Prop :=
  match stack with
  | top :: (below :: _) as rest => edge below top ∧ chainUp rest
  | _ => True
  end.

(** Number of nodes not yet discovered. *)
Definition undiscovered (s : tarjan) : nat :=
  length (filter (λ i, i = (-1)%Z) (idx s)).

(** Structural invariant of the state of Tarjan's algorithm on [N] nodes. *)
Record wf (s : tarjan) : Prop := {
  wf_len_idx : length (idx s) = length adj;
  wf_len_low : length (low s) = length adj;
  wf_len_onSt : length (onSt s) = length adj;
  wf_len_sccId : length (sccId s) = length adj;
  wf_index : (0 ≤ index s)%Z;
  wf_idx_range : ∀ v, v < length adj →
    idx s !!! v = (-1)%Z ∨ (0 ≤ idx s !!! v < index s)%Z;
  wf_onSt : ∀ w, onSt s !! w = Some true ↔ w ∈ st s;
  wf_nodup : NoDup (st s ++ concat (sccs s));
  wf_visited : ∀ v, v < length adj →
    (idx s !!! v ≠ (-1)%Z ↔ v ∈ st s ++ concat (sccs s));
  wf_bound : ∀ v, v ∈ st s ++ concat (sccs s) → v < length adj;
  wf_sorted : ∀ a x b y, st s = a ++ x :: b → y ∈ b →
    (idx s !!! y < idx s !!! x)%Z;
  wf_sccId_in : ∀ k comp w, sccs s !! k = Some comp → w ∈ comp →
    sccId s !!! w = Z.of_nat k;
  wf_sccId_out : ∀ w, w < length adj → w ∉ concat (sccs s) →
    sccId s !!! w = (-1)%Z
}.

(** What a call leaves untouched: discovery numbers and low-links of the
    nodes discovered before it, and the components closed before it. *)
Record extends (s s' : tarjan) : Prop := {
  ext_index : (index s ≤ index s')%Z;
  ext_idx : ∀ v, v ∈ st s ++ concat (sccs s) → idx s' !!! v = idx s !!! v;
  ext_low : ∀ v, v ∈ st s ++ concat (sccs s) → low s' !!! v = low s !!! v;
  ext_sccs : ∃ new, sccs s' = sccs s ++ new;
  ext_visited : ∀ v, v ∈ st s ++ concat (sccs s) → v ∈ st s' ++ concat (sccs s');
  ext_undiscovered : undiscovered s' ≤ undiscovered s
}.

(** Pre-condition, loop invariant and post-condition of
    [strongconnect(v)] called with stack depth [f] in state [s0]: the
    structural part. *)
Definition pre1 (f v : nat) (s : tarjan) : Prop :=
  wf s ∧ idx s !! v = Some (-1)%Z ∧ undiscovered s ≤ f.

Record post1 (v : nat) (s0 s' : tarjan) : Prop := {
  p1_wf : wf s';
  p1_ext : extends s0 s';
  p1_idx : idx s' !!! v = index s0;
  p1_shape :
    (st s' = st s0 ∧ low s' !!! v = idx s' !!! v) ∨
    (∃ above, st s' = above ++ v :: st s0 ∧ low s' !!! v ≠ idx s' !!! v)
}.

Record inv1 (f v : nat) (s0 : tarjan) (done : list nat) (s : tarjan) : Prop := {
  i1_wf0 : wf s0;
  i1_wf : wf s;
  i1_ext : extends s0 s;
  i1_new : idx s0 !! v = Some (-1)%Z;
  i1_idx : idx s !!! v = index s0;
  i1_fuel : undiscovered s ≤ f;
  i1_shape : ∃ above, st s = above ++ v :: st s0
}.

(** Every closed component is strongly connected. *)
Definition compsOK (s : tarjan) : Prop :=
  ∀ comp, comp ∈ sccs s → stronglyConnected comp.

(** The components closed so far, taken in order, are closed under
    edges at every prefix. *)
Definition closedOK (s : tarjan) : Prop :=
  ∀ k comp x w, sccs s !! k = Some comp → x ∈ comp → edge x w →
    ∃ j comp', j ≤ k ∧ sccs s !! j = Some comp' ∧ w ∈ comp'.

(** The low-link of [y] is the discovery number of a stack node that [y]
    reaches through stack nodes discovered no earlier than that node. *)
Definition lowOK_at (s : tarjan) (y : nat) : Prop :=
  (low s !!! y ≤ idx s !!! y)%Z ∧
  ∃ z, z ∈ st s ∧ idx s !!! z = low s !!! y ∧
       reach (λ x, x ∈ st s ∧ (low s !!! y ≤ idx s !!! x)%Z) y z.

Definition lowOK (s : tarjan) : Prop := ∀ y, y ∈ st s → lowOK_at s y.

(** The edges of [y] to the nodes [ws] have been examined: each lies in
    a closed component or on the stack, no deeper than the low-link of
    [y]. *)
Definition examined (s : tarjan) (y : nat) (ws : list nat) : Prop :=
  ∀ w, w ∈ ws →
    w ∈ concat (sccs s) ∨ (w ∈ st s ∧ (low s !!! y ≤ idx s !!! w)%Z).

Definition complete (s : tarjan) (y : nat) : Prop := examined s y (adj !!! y).

(** The nodes [above] lying on the stack over [v] while [strongconnect(v)]
    is active or after it returned without closing a component. *)
Definition segment_at (s : tarjan) (v : nat) (seg : list nat) (y : nat) : Prop :=
  (low s !!! y < idx s !!! y)%Z ∧ (low s !!! v ≤ low s !!! y)%Z ∧
  complete s y ∧ reach (λ x, x ∈ seg) v y.

Definition segment (s : tarjan) (v : nat) (above : list nat) : Prop :=
  ∀ y, y ∈ above → segment_at s v (above ++ [v]) y.

(** Pre-condition, loop invariant and post-condition of
    [strongconnect(v)]: the part about paths. *)
Definition pre2 (f v : nat) (s : tarjan) : Prop :=
  pre1 f v s ∧ lowOK s ∧ compsOK s ∧ closedOK s.

Record post2 (v : nat) (s0 s' : tarjan) : Prop := {
  p2_post1 : post1 v s0 s';
  p2_low : lowOK s';
  p2_comps : compsOK s';
  p2_closed : closedOK s';
  p2_open : ∀ above, st s' = above ++ v :: st s0 →
    segment s' v above ∧ (low s' !!! v < idx s' !!! v)%Z ∧ complete s' v
}.

Record inv2 (f v : nat) (s0 : tarjan) (done : list nat) (s : tarjan) : Prop := {
  i2_inv1 : inv1 f v s0 done s;
  i2_edges : ∃ rest, adj !!! v = done ++ rest;
  i2_low0 : lowOK s0;
  i2_low : lowOK s;
  i2_comps : compsOK s;
  i2_closed : closedOK s;
  i2_seg : ∀ above, st s = above ++ v :: st s0 → segment s v above;
  i2_done : examined s v done
}.
End Graph.
(** [writeAll x ws l]: the array [l] after [l[w] = x] for every [w] of
    [ws], in order. *)
Fixpoint writeAll {A : Type} (x : A) (ws : list nat) (l : list A) : list A :=
  match ws with
  | [] => l
  | w :: ws' => writeAll x ws' (<[w := x]> l)
  end.

(** The state after [strongconnect(v)] has popped [above ++ [v]] off the
    stack [above ++ v :: st0]. *)
Definition closedState (s : tarjan) (v : nat) (above st0 : list nat) : tarjan :=
  Tarjan (index s) (idx s) (low s)
    (writeAll false (above ++ [v]) (onSt s))
    (writeAll (Z.of_nat (length (sccs s))) (above ++ [v]) (sccId s))
    st0 (sccs s ++ [above ++ [v]]).

(** Invariant of the top-level loop of Tarjan's algorithm, and what holds of
    its final state. *)
Record tarjanOK (adj : list (list nat)) (t : tarjan) : Prop := {
  ok_wf : wf adj t;
  ok_stack : st t = [];
  ok_comps : compsOK adj t;
  ok_closed : closedOK adj t
}.

(** Pre- and post-condition of [dfs(u)] inside [findCycleFrom(start,
    compSet)], on the pair [σ] of [seen] and [stack]. *)
Section DfsSpec.
Variable adj : list (list nat).
Variable start : nat.
Variable compSet : gset nat.

(** The stack holds distinct nodes, all of them seen, each a successor of
    the one pushed before it. *)
Definition stackInv (σ : gset nat * list nat) : Prop :=
  NoDup σ.2 ∧ (∀ x, x ∈ σ.2 → x ∈ σ.1) ∧ chainUp adj σ.2.

(** [dfs(u)] is called on a successor of the top of the stack. *)
Definition dfsPre (f u : nat) (σ : gset nat * list nat) : Prop :=
  stackInv σ ∧ (∀ top, head σ.2 = Some top → edge adj top u) ∧
  size (compSet ∖ ({[u]} ∪ σ.1)) < f.

(** The nodes seen since [σ0], other than [u] itself when [u] sits at the
    bottom of the stack, have all their edges into [compSet] leading to
    seen nodes other than [start]. *)
Definition explored (u : nat) (σ0 σ : gset nat * list nat) : Prop :=
  ∀ x, x ∈ σ.1 → x ∉ σ0.1 → ∀ w, edge adj x w → w ∈ compSet →
    w ∈ σ.1 ∧ (x ≠ u ∨ σ0.2 ≠ [] → w ≠ start).

Definition dfsPost (u : nat) (σ0 : gset nat * list nat)
    (r : bool * (gset nat * list nat)) : Prop :=
  σ0.1 ⊆ r.2.1 ∧ u ∈ r.2.1 ∧ stackInv r.2 ∧
  if r.1 then
    ∃ ext, r.2.2 = ext ++ u :: σ0.2 ∧ (∀ x, x ∈ ext → x ∈ compSet) ∧
           start ∈ compSet ∧ 1 < length r.2.2 ∧
           ∃ top, head r.2.2 = Some top ∧ edge adj top start
  else r.2.2 = σ0.2 ∧ explored u σ0 r.2.

(** Invariant of the loop of [dfs(u)] entered in [σ0], after the edges to
    [done]. *)
Record dfsInv (f u : nat) (σ0 : gset nat * list nat) (done : list nat)
    (σ : gset nat * list nat) : Prop := {
  di_stack : σ.2 = u :: σ0.2;
  di_seen : {[u]} ∪ σ0.1 ⊆ σ.1;
  di_inv : stackInv σ;
  di_fuel : size (compSet ∖ σ.1) ≤ f;
  di_done : ∀ w, w ∈ done → w ∈ compSet → w ∈ σ.1 ∧ (σ0.2 ≠ [] → w ≠ start);
  di_explored : ∀ x, x ∈ σ.1 → x ∉ σ0.1 → x ≠ u →
    ∀ w, edge adj x w → w ∈ compSet → w ∈ σ.1 ∧ w ≠ start
}.
End DfsSpec.

(** Executable form of [closedGraph]. *)
Definition closedGraphb (adj : list (list nat)) : bool :=
  forallb (forallb (λ w, w <? length adj)) adj.

(** ** What the pass reports *)

(** The emission of one selected pair of a module and a cycle of indices. *)
Definition emitReport {Σ E : Type} (relative : string → string) (failOnError : bool)
    (onDetected : option (Detected → Σ → Σ * option E))
    (heap : handle → Module) (modList : list handle)
    (h : Host Σ E) (r : handle * list nat) : Host Σ E :=
  emit failOnError onDetected (Some r.1) (relPathsOf relative heap modList r.2) h.

(** The pairs selected by the iterations [mIdxs] of the reporting loop of
    [src/index.js], in order. *)
Definition selected (exclude include : string → bool) (heap : handle → Module)
    (modList : list handle) (idOf : gmap handle nat) (adj : list (list nat))
    (t : tarjan) (mIdxs : list nat) : list (handle * list nat) :=
  omap (λ mIdx, mjoin (selectCycle exclude include heap modList idOf adj t mIdx)) mIdxs.

(** The pairs selected by one pass of [src/index.js] over [modules]. *)
Definition reportsJs (exclude include : string → bool) (heap : handle → Module)
    (allowAsyncCycles : bool) (modules : list (option handle))
    : list (handle * list nat) :=
  let modList := createSortedModuleList heap modules in
  let idOf := mkIdOf modList in
  let adj := buildAdjacencyList heap allowAsyncCycles modList idOf in
  match tarjanRun adj (length adj) with
  | Some t => selected exclude include heap modList idOf adj t (seq 0 (length modList))
  | None => []
  end.

(** [cyc] starts and ends at [i], repeats no other node, visits at least
    one node besides [i], stays inside [comp], and follows edges of the
    graph. *)
Definition simpleCycle (adj : list (list nat)) (i : nat) (comp cyc : list nat) : Prop :=
  ∃ path, cyc = i :: path ++ [i] ∧ path ≠ [] ∧ NoDup (i :: path) ∧
          (∀ x, x ∈ cyc → x ∈ comp) ∧ isWalk adj cyc.

(** The argument handed to [onDetected] for a selected pair. *)
Definition detectedOf (relative : string → string) (heap : handle → Module)
    (modList : list handle) (r : handle * list nat) : Detected :=
  {| det_module := Some r.1; det_paths := relPathsOf relative heap modList r.2 |}.

(** Calling the collaborator [cb] on [args] one after the other, whatever it
    throws: its final state and the values it threw, in order. *)
Fixpoint runCallback {Σ E : Type} (cb : Detected → Σ → Σ * option E)
    (args : list Detected) (σ : Σ) : Σ * list E :=
  match args with
  | [] => (σ, [])
  | arg :: rest =>
    let '(σ', thrown) := cb arg σ in
    let '(σ'', errs) := runCallback cb rest σ' in
    (σ'', match thrown with Some e => e :: errs | None => errs end)
  end.

(** ** Sample inputs *)

(** A dependency record that resolves to [target]. *)
Definition plainDep (target : handle) : option Dependency :=
  Some {| dep_selfref := false; weak := false; dep_module := Some target |}.

(** A module with resource [r] whose dependencies resolve to [targets]. *)
Definition plainModule (r : string) (targets : list handle) : Module :=
  {| resource := Some r; rootModule := None; originalModule := None;
     dependencies := plainDep <$> targets |}.

(** A module without resource and without dependencies. *)
Definition bareModule : Module :=
  {| resource := None; rootModule := None; originalModule := None;
     dependencies := [] |}.

(** [a.js] and [b.js] import each other. *)
Definition pairHeap (m : handle) : Module :=
  match m with
  | 10 => plainModule "a.js" [11]
  | 11 => plainModule "b.js" [10]
  | _ => bareModule
  end.

Definition pairModules : list (option handle) := [Some 11; None; Some 10].

(** Two separate cycles, [a.js <-> c.js] and [b.js <-> d.js]. *)
Definition twoCyclesHeap (m : handle) : Module :=
  match m with
  | 10 => plainModule "a.js" [12]
  | 11 => plainModule "b.js" [13]
  | 12 => plainModule "c.js" [10]
  | 13 => plainModule "d.js" [11]
  | _ => bareModule
  end.

Definition twoCyclesModules : list (option handle) := [Some 10; Some 11; Some 12; Some 13].

(** [a.js] reaches [b.js] through two dependency records. *)
Definition twiceHeap (m : handle) : Module :=
  match m with
  | 10 => plainModule "a.js" [11; 11]
  | 11 => plainModule "b.js" []
  | _ => bareModule
  end.

Definition twiceModules : list (option handle) := [Some 10; Some 11].

(** A compilation before the pass, with a collaborator that keeps no
    state. *)
Definition emptyHost : Host unit unit :=
  {| errors := []; warnings := []; cbState := tt; calls := [] |}.

(** The adjacency lists of a chain of [N] modules, each depending on the
    next: [0 -> 1 -> ... -> N-1]. *)
Definition chain (N : nat) : list (list nat) :=
  (λ i, if S i <? N then [S i] else []) <$> seq 0 N.

(** ** Comparing the two copies *)

(** The variables of [strongconnect] that [strongConnect] has too
    ([src/index.d.ts] keeps no [sccId]). *)
Definition erase (s : tarjan) : Dts.scc :=
  Dts.Scc (index s) (idx s) (low s) (onSt s) (st s) (sccs s).

(** The emission of one selected pair by the loop of [src/index.d.ts]. *)
Definition emitDts {Σ E : Type} (relative : string → string) (failOnError : bool)
    (onDetected : option (Detected → Σ → Σ * option E)) (resOf : list (option string))
    (h : Host Σ E) (r : option handle * list nat) : Host Σ E :=
  emit failOnError onDetected r.1 (Dts.relPathsOf relative resOf r.2) h.

(** The pairs selected by the inner loop of [src/index.d.ts] over the sorted
    members [comp] of a component. *)
Definition dtsMemberReports (exclude include : string → bool) (modList : list handle)
    (resOf : list (option string)) (adj : list (list nat))
    (compSet : gset nat) (comp : list nat) : list (option handle * list nat) :=
  omap (λ node, (λ c, (modList !! node, c)) <$>
                mjoin (Dts.selectCycle exclude include resOf adj compSet node)) comp.

(** The pairs selected by the outer loop, component after component. *)
Definition dtsComponentReports (exclude include : string → bool) (modList : list handle)
    (resOf : list (option string)) (adj : list (list nat))
    (comps : list (list nat * bool)) : list (option handle * list nat) :=
  concat ((λ c : list nat * bool,
             if c.2 then []
             else dtsMemberReports exclude include modList resOf adj
                    (list_to_set c.1) (Dts.sortIndicesByResource resOf c.1)) <$> comps).

(** The pairs selected by one pass of [src/index.d.ts] over [modules]. *)
Definition reportsDts (exclude include : string → bool) (heap : handle → Module)
    (allowAsyncCycles : bool) (modules : list (option handle))
    : list (option handle * list nat) :=
  let modList := createSortedModuleList heap modules in
  let idOf := mkIdOf modList in
  let resOf := resourceOf heap <$> modList in
  let adj := buildAdjacencyList heap allowAsyncCycles modList idOf in
  match Dts.computeStronglyConnectedComponents adj (length adj) with
  | Some sccs =>
    dtsComponentReports exclude include modList resOf adj
      (zip sccs (Dts.flagInvalidComponents resOf sccs))
  | None => []
  end.

(** A selected pair of [src/index.js] in the shape of [src/index.d.ts]. *)
Definition asDts (r : handle * list nat) : option handle * list nat := (Some r.1, r.2).

(** ** Order of the sort keys *)

(** [a < b] on strings, as the comparator of the source evaluates it. *)
Definition strLt (a b : string) : Prop := String.ltb a b = true.

(** [a] may stand before [b] in a sorted module list: the key of [b] is not
    below the key of [a]. *)
Definition keyLe (heap : handle → Module) (a b : handle) : Prop :=
  String.ltb (keyOf heap b) (keyOf heap a) = false.

(** The same file reached through two loaders: two modules, one resource. *)
Definition tiesHeap (m : handle) : Module :=
  match m with
  | 10 => plainModule "a.js" []
  | 11 => plainModule "a.js" []
  | _ => bareModule
  end.

(** [a.js] imports [b.js] and [c.js], which both import [a.js]; and the same
    modules with the two imports of [a.js] in the other order. *)
Definition fanHeap (m : handle) : Module :=
  match m with
  | 10 => plainModule "a.js" [11; 12]
  | 11 => plainModule "b.js" [10]
  | 12 => plainModule "c.js" [10]
  | _ => bareModule
  end.

Definition fanHeapSwapped (m : handle) : Module :=
  match m with
  | 10 => plainModule "a.js" [12; 11]
  | 11 => plainModule "b.js" [10]
  | 12 => plainModule "c.js" [10]
  | _ => bareModule
  end.

(** [a.js] imports [b.js] through a weak (asynchronous) dependency record,
    [b.js] imports [a.js]. *)
Definition asyncHeap (m : handle) : Module :=
  match m with
  | 10 => {| resource := Some "a.js"; rootModule := None; originalModule := None;
             dependencies := [Some {| dep_selfref := false; weak := true;
                                      dep_module := Some 11 |}] |}
  | 11 => plainModule "b.js" [10]
  | _ => bareModule
  end.

(** Two modules of one file ([a.js] through two loaders) that both import
    [b.js], which imports both; and the same modules with the two imports
    of [b.js] in the other order. *)
Definition tiedHeap (m : handle) : Module :=
  match m with
  | 10 => plainModule "a.js" [12]
  | 11 => plainModule "a.js" [12]
  | 12 => plainModule "b.js" [10; 11]
  | _ => bareModule
  end.

Definition tiedHeapSwapped (m : handle) : Module :=
  match m with
  | 10 => plainModule "a.js" [12]
  | 11 => plainModule "a.js" [12]
  | 12 => plainModule "b.js" [11; 10]
  | _ => bareModule
  end.

(** * Properties *)

(** ** A proof rule for [strongconnect] *)

Section Rule.
Variable adj : list (list nat).
Variable Pre : nat → nat → tarjan → Prop.
Variable Post : nat → tarjan → tarjan → Prop.
Variable Inv : nat → nat → tarjan → list nat → tarjan → Prop.

Hypothesis Pre_fuel : ∀ v s, ¬ Pre 0 v s.
Hypothesis H_enter : ∀ f v s0, Pre (S f) v s0 → Inv f v s0 [] (enter v s0).
Hypothesis H_call : ∀ f v s0 done w rest s,
  adj !!! v = done ++ w :: rest → Inv f v s0 done s →
  idx s !! w = Some (-1)%Z → Pre f w s.
Hypothesis H_ret : ∀ f v s0 done w rest s s',
  adj !!! v = done ++ w :: rest → Inv f v s0 done s →
  idx s !! w = Some (-1)%Z → Post w s s' →
  Inv f v s0 (done ++ [w])
    (setLow v (if (low s' !!! v <? low s' !!! w)%Z then low s' !!! v else low s' !!! w) s').
Hypothesis H_back : ∀ f v s0 done w rest s,
  adj !!! v = done ++ w :: rest → Inv f v s0 done s →
  idx s !! w ≠ Some (-1)%Z → onSt s !! w = Some true →
  Inv f v s0 (done ++ [w])
    (setLow v (if (low s !!! v <? idx s !!! w)%Z then low s !!! v else idx s !!! w) s).
Hypothesis H_skip : ∀ f v s0 done w rest s,
  adj !!! v = done ++ w :: rest → Inv f v s0 done s →
  idx s !! w ≠ Some (-1)%Z → onSt s !! w ≠ Some true →
  Inv f v s0 (done ++ [w]) s.
Hypothesis H_close : ∀ f v s0 s,
  Inv f v s0 (adj !!! v) s → ∃ s', closeComponent v s = Some s' ∧ Post v s0 s'.

Lemma visitEdges_rule f v s0 :
  (∀ w s, Pre f w s → ∃ s', strongconnect adj f w s = Some s' ∧ Post w s s') →
  ∀ rest done s, adj !!! v = done ++ rest → Inv f v s0 done s →
  ∃ s2, visitEdges (strongconnect adj f) v rest s = Some s2 ∧
        Inv f v s0 (adj !!! v) s2.
Proof.
  intros IH rest. induction rest as [|w rest IHrest]; intros done s Hadj HI.
  - rewrite app_nil_r in Hadj. rewrite Hadj. by exists s.
  - assert (Hadj' : adj !!! v = (done ++ [w]) ++ rest) by by rewrite <- app_assoc.
    simpl. destruct (decide (idx s !! w = Some (-1)%Z)) as [Hw|Hw].
    + destruct (IH w s) as (s' & -> & HP); [by eapply H_call|]. simpl.
      eapply IHrest; [done|]. by eapply H_ret.
    + destruct (decide (onSt s !! w = Some true)) as [Ho|Ho].
      * eapply IHrest; [done|]. by eapply H_back.
      * eapply IHrest; [done|]. by eapply H_skip.
Qed.

Lemma strongconnect_rule fuel : ∀ v s0,
  Pre fuel v s0 → ∃ s', strongconnect adj fuel v s0 = Some s' ∧ Post v s0 s'.
Proof.
  induction fuel as [|f IH]; intros v s0 HP.
  - by destruct (Pre_fuel v s0).
  - simpl.
    destruct (visitEdges_rule f v s0 IH (adj !!! v) [] (enter v s0))
      as (s2 & -> & HI); [done|by apply H_enter|].
    simpl. by eapply H_close.
Qed.
End Rule.

(** ** Arrays written at a list of positions *)

Lemma filter_insert_length (l : list Z) (v : nat) (x : Z) :
  l !! v = Some (-1)%Z → x ≠ (-1)%Z →
  S (length (filter (λ i, i = (-1)%Z) (<[v := x]> l))) =
  length (filter (λ i, i = (-1)%Z) l).
Proof.
  revert v. induction l as [|a l IH]; intros [|v] Hv Hx; try done.
  - injection Hv as ->. change (<[0:=x]> ((-1)%Z :: l)) with (x :: l).
    rewrite filter_cons_False by done. by rewrite filter_cons_True by done.
  - change (<[S v:=x]> (a :: l)) with (a :: <[v:=x]> l).
    change ((a :: l) !! S v) with (l !! v) in Hv.
    destruct (decide (a = (-1)%Z)).
    + rewrite !filter_cons_True by done. simpl. f_equal. by apply IH.
    + rewrite !filter_cons_False by done. by apply IH.
Qed.

Section WriteAll.
Context {A : Type} `{!Inhabited A}.

Lemma writeAll_length x ws (l : list A) : length (writeAll x ws l) = length l.
Proof.
  revert l. induction ws as [|w ws IH]; intros l; simpl; [done|].
  by rewrite IH, length_insert.
Qed.

Lemma writeAll_notin x ws (l : list A) w : w ∉ ws → writeAll x ws l !! w = l !! w.
Proof.
  revert l. induction ws as [|w' ws IH]; intros l Hw; simpl; [done|].
  apply not_elem_of_cons in Hw as [Hne Hw].
  rewrite IH by done. by apply list_lookup_insert_ne.
Qed.

Lemma writeAll_in x ws (l : list A) w :
  w ∈ ws → w < length l → writeAll x ws l !! w = Some x.
Proof.
  revert l. induction ws as [|w' ws IH]; intros l Hw Hlen; simpl.
  - by apply elem_of_nil in Hw.
  - destruct (decide (w ∈ ws)) as [Hin|Hin].
    + apply IH; [done|]. by rewrite length_insert.
    + apply elem_of_cons in Hw as [->|?]; [|done].
      rewrite writeAll_notin by done. by apply list_lookup_insert_eq.
Qed.

Lemma writeAll_total_notin x ws (l : list A) w :
  w ∉ ws → writeAll x ws l !!! w = l !!! w.
Proof. intros. by rewrite !list_lookup_total_alt, writeAll_notin. Qed.

Lemma writeAll_total_in x ws (l : list A) w :
  w ∈ ws → w < length l → writeAll x ws l !!! w = x.
Proof. intros. by rewrite list_lookup_total_alt, writeAll_in. Qed.
End WriteAll.

(** The pop loop of [strongconnect] removes the stack down to [v]. *)
Lemma popLoop_spec v k above st0 onSt sccId comp :
  v ∉ above →
  popLoop v k (above ++ v :: st0) onSt sccId comp =
  Some (st0, writeAll false (above ++ [v]) onSt,
        writeAll k (above ++ [v]) sccId, comp ++ above ++ [v]).
Proof.
  revert onSt sccId comp. induction above as [|w above IH]; intros onSt sccId comp Hv; simpl.
  - by rewrite decide_True.
  - apply not_elem_of_cons in Hv as [Hne Hv].
    rewrite decide_False by done. rewrite IH by done.
    by rewrite <- app_assoc.
Qed.

Lemma popLoop_none v k st onSt sccId comp :
  v ∉ st → popLoop v k st onSt sccId comp = None.
Proof.
  revert onSt sccId comp. induction st as [|w st IH]; intros onSt sccId comp Hv; simpl; [done|].
  apply not_elem_of_cons in Hv as [Hne Hv]. rewrite decide_False by done. by apply IH.
Qed.

(** ** Structural invariant of Tarjan's algorithm *)

Section Structural.
Variable adj : list (list nat).

Lemma lookup_total_Some {A} `{!Inhabited A} (l : list A) i x :
  l !! i = Some x → l !!! i = x.
Proof. intros H. by rewrite list_lookup_total_alt, H. Qed.

Lemma wf_unvisited s v :
  wf adj s → idx s !! v = Some (-1)%Z →
  v < length adj ∧ v ∉ st s ++ concat (sccs s).
Proof.
  intros Hwf Hv.
  assert (v < length adj) as Hlt.
  { rewrite <- (wf_len_idx _ _ Hwf). by eapply lookup_lt_Some. }
  split; [done|]. intros Hin. apply (wf_visited _ _ Hwf) in Hin; [|done].
  by rewrite (lookup_total_Some _ _ _ Hv) in Hin.
Qed.

Lemma wf_stack_idx s y :
  wf adj s → y ∈ st s ++ concat (sccs s) → (0 ≤ idx s !!! y < index s)%Z.
Proof.
  intros Hwf Hin. pose proof (wf_bound _ _ Hwf _ Hin) as Hlt.
  apply (wf_visited _ _ Hwf) in Hin; [|done].
  destruct (wf_idx_range _ _ Hwf y Hlt); [done|lia].
Qed.

Lemma undiscovered_pos s v : idx s !! v = Some (-1)%Z → 0 < undiscovered s.
Proof.
  intros Hv. unfold undiscovered.
  assert ((-1)%Z ∈ filter (λ i, i = (-1)%Z) (idx s)) as Hin.
  { apply list_elem_of_filter. split; [done|]. by eapply list_elem_of_lookup_2. }
  destruct (filter _ _); [by apply elem_of_nil in Hin|simpl; lia].
Qed.

Lemma extends_refl s : extends s s.
Proof. split; [lia|done|done|by exists []; rewrite app_nil_r|done|done]. Qed.

Lemma extends_trans s1 s2 s3 : extends s1 s2 → extends s2 s3 → extends s1 s3.
Proof.
  intros [? Hi1 Hl1 [n1 Hs1] Hv1 ?] [? Hi2 Hl2 [n2 Hs2] Hv2 ?]. split.
  - lia.
  - intros v Hv. rewrite Hi2 by auto. auto.
  - intros v Hv. rewrite Hl2 by auto. auto.
  - exists (n1 ++ n2). by rewrite Hs2, Hs1, app_assoc.
  - auto.
  - lia.
Qed.

Lemma wf_setLow s v x : wf adj s → wf adj (setLow v x s).
Proof.
  intros [????????????]. split; simpl; try done. by rewrite length_insert.
Qed.

Lemma extends_setLow s0 s v x :
  extends s0 s → v ∉ st s0 ++ concat (sccs s0) → extends s0 (setLow v x s).
Proof.
  intros [? ? Hl ? ? ?] Hv. split; simpl; try done.
  intros u Hu. rewrite list_lookup_total_insert_ne; [by apply Hl|].
  intros ->. done.
Qed.

Lemma wf_enter s v :
  wf adj s → idx s !! v = Some (-1)%Z → wf adj (enter v s).
Proof.
  intros Hwf Hv. destruct (wf_unvisited _ _ Hwf Hv) as [Hlt Hnin].
  pose proof (wf_index _ _ Hwf) as Hidx.
  split; simpl.
  - rewrite length_insert. apply Hwf.
  - rewrite length_insert. apply Hwf.
  - rewrite length_insert. apply Hwf.
  - apply Hwf.
  - lia.
  - intros u Hu. destruct (decide (u = v)) as [->|Hne].
    + rewrite list_lookup_total_insert_eq; [lia|]. by rewrite (wf_len_idx _ _ Hwf).
    + rewrite list_lookup_total_insert_ne by done.
      destruct (wf_idx_range _ _ Hwf u Hu); [by left|right; lia].
  - intros w. destruct (decide (w = v)) as [->|Hne].
    + rewrite list_lookup_insert_eq by (by rewrite (wf_len_onSt _ _ Hwf)).
      split; [intros _; apply elem_of_cons; by left|done].
    + rewrite list_lookup_insert_ne by done. rewrite (wf_onSt _ _ Hwf).
      rewrite elem_of_cons. naive_solver.
  - apply NoDup_cons. split; [done|apply Hwf].
  - intros u Hu. rewrite elem_of_cons. destruct (decide (u = v)) as [->|Hne].
    + rewrite list_lookup_total_insert_eq by (by rewrite (wf_len_idx _ _ Hwf)).
      split; [by left|lia].
    + rewrite list_lookup_total_insert_ne by done.
      rewrite (wf_visited _ _ Hwf) by done. naive_solver.
  - intros u [->|Hu]%elem_of_cons; [done|]. by apply (wf_bound _ _ Hwf).
  - intros a x b y Hst Hy.
    assert (∀ u, u ∈ st s → idx s !!! u < index s)%Z as Hold.
    { intros u Hu. apply (wf_stack_idx s u Hwf). apply elem_of_app. by left. }
    assert (∀ u, u ∈ st s → u ≠ v) as Hnev.
    { intros u Hu ->. apply Hnin, elem_of_app. by left. }
    destruct a as [|a0 a]; simpl in Hst; injection Hst as <- Hst.
    + subst b.
      rewrite list_lookup_total_insert_eq by (by rewrite (wf_len_idx _ _ Hwf)).
      rewrite list_lookup_total_insert_ne by (intros ->; by apply (Hnev y)).
      by apply Hold.
    + assert (x ∈ st s) by (rewrite Hst; set_solver).
      assert (y ∈ st s) by (rewrite Hst; set_solver).
      rewrite (list_lookup_total_insert_ne _ v y) by (intros ->; by apply (Hnev y)).
      rewrite (list_lookup_total_insert_ne _ v x) by (intros ->; by apply (Hnev x)).
      by eapply (wf_sorted _ _ Hwf).
  - apply Hwf.
  - apply Hwf.
Qed.

Lemma extends_enter s v :
  wf adj s → idx s !! v = Some (-1)%Z → extends s (enter v s).
Proof.
  intros Hwf Hv. destruct (wf_unvisited _ _ Hwf Hv) as [Hlt Hnin].
  split; simpl.
  - lia.
  - intros u Hu. rewrite list_lookup_total_insert_ne; [done|]. by intros ->.
  - intros u Hu. rewrite list_lookup_total_insert_ne; [done|]. by intros ->.
  - exists []. by rewrite app_nil_r.
  - intros u Hu. by apply elem_of_cons; right.
  - unfold undiscovered. simpl.
    pose proof (wf_index _ _ Hwf).
    rewrite <- (filter_insert_length (idx s) v (index s)) by (done || lia). lia.
Qed.
End Structural.

Lemma elem_of_concat {A} (x : A) (ls : list (list A)) :
  x ∈ concat ls ↔ ∃ l, l ∈ ls ∧ x ∈ l.
Proof.
  induction ls as [|l ls IH]; simpl.
  - split; [by intros ?%elem_of_nil|by intros (? & ?%elem_of_nil & _)].
  - rewrite elem_of_app, IH. split.
    + intros [?|(l' & ? & ?)]; [exists l|exists l']; set_solver.
    + intros (l' & [->|?]%elem_of_cons & ?); [by left|right; by exists l'].
Qed.

Section Closing.
Variable adj : list (list nat).

Lemma closeComponent_open s v :
  low s !!! v ≠ idx s !!! v → closeComponent v s = Some s.
Proof. intros H. unfold closeComponent. by rewrite decide_False. Qed.

Lemma closeComponent_closed s v above st0 :
  st s = above ++ v :: st0 → v ∉ above → low s !!! v = idx s !!! v →
  closeComponent v s = Some (closedState s v above st0).
Proof.
  intros Hst Hv Hlow. unfold closeComponent. rewrite decide_True by done.
  rewrite Hst, popLoop_spec by done. done.
Qed.

Lemma stack_split_nodup s v above st0 :
  wf adj s → st s = above ++ v :: st0 →
  (v ∉ above) ∧ (∀ u, u ∈ above ++ [v] → u ∉ st0 ++ concat (sccs s)) ∧
  (∀ u, u ∈ above ++ [v] → u < length adj).
Proof.
  intros Hwf Hst. pose proof (wf_nodup _ _ Hwf) as Hnd.
  rewrite Hst in Hnd. rewrite <- app_assoc in Hnd.
  apply NoDup_app in Hnd as (Hnd1 & Hdisj & Hnd2).
  split; [|split].
  - intros Hin. apply (Hdisj v Hin). set_solver.
  - intros u [Hu| ->%list_elem_of_singleton]%elem_of_app.
    + intros Hin. apply (Hdisj u Hu). set_solver.
    + simpl in Hnd2. apply NoDup_cons in Hnd2 as [? _]. done.
  - intros u Hu. apply (wf_bound _ _ Hwf). rewrite Hst. set_solver.
Qed.

Lemma wf_closedState s v above st0 :
  wf adj s → st s = above ++ v :: st0 → wf adj (closedState s v above st0).
Proof.
  intros Hwf Hst.
  destruct (stack_split_nodup s v above st0 Hwf Hst) as (Hv & Hdisj & Hbound).
  split; simpl.
  - apply Hwf.
  - apply Hwf.
  - rewrite writeAll_length. apply Hwf.
  - rewrite writeAll_length. apply Hwf.
  - apply Hwf.
  - apply Hwf.
  - intros w. destruct (decide (w ∈ above ++ [v])) as [Hin|Hin].
    + rewrite writeAll_in; [|done|rewrite (wf_len_onSt _ _ Hwf); by apply Hbound].
      split; [done|]. intros Hw. exfalso. apply (Hdisj w Hin). set_solver.
    + rewrite writeAll_notin by done. rewrite (wf_onSt _ _ Hwf), Hst. set_solver.
  - pose proof (wf_nodup _ _ Hwf) as Hnd. rewrite Hst in Hnd.
    rewrite concat_app. simpl. rewrite app_nil_r.
    eapply (NoDup_Permutation_proper); [|exact Hnd]. solve_Permutation.
  - intros u Hu. rewrite (wf_visited _ _ Hwf) by done.
    rewrite Hst, concat_app. simpl. rewrite app_nil_r. set_solver.
  - intros u Hu. apply (wf_bound _ _ Hwf).
    rewrite Hst. rewrite concat_app in Hu. simpl in Hu. rewrite app_nil_r in Hu. set_solver.
  - intros a x b y Hst0 Hy. apply (wf_sorted _ _ Hwf ((above ++ [v]) ++ a) x b y); [|done].
    rewrite Hst, Hst0. by rewrite <- !app_assoc.
  - intros k comp w Hk Hw. apply lookup_app_Some in Hk as [Hk|[Hlen Hk]].
    + rewrite writeAll_total_notin; [by eapply (wf_sccId_in _ _ Hwf)|].
      intros Hin. apply (Hdisj w Hin). apply elem_of_app. right.
      apply elem_of_concat. exists comp. split; [|done]. by eapply list_elem_of_lookup_2.
    + destruct (k - length (sccs s)) as [|?] eqn:Hd; [|done]. simpl in Hk.
      injection Hk as <-. rewrite writeAll_total_in; [f_equal; lia|done|].
      rewrite (wf_len_sccId _ _ Hwf). by apply Hbound.
  - intros w Hw Hnin. rewrite concat_app in Hnin. simpl in Hnin. rewrite app_nil_r in Hnin.
    rewrite writeAll_total_notin by set_solver. apply (wf_sccId_out _ _ Hwf); [done|set_solver].
Qed.

Lemma extends_closedState s v above st0 :
  st s = above ++ v :: st0 → extends s (closedState s v above st0).
Proof.
  intros Hst. split; simpl; try done.
  - by eexists.
  - intros u. rewrite Hst, concat_app. simpl. rewrite app_nil_r. set_solver.
Qed.
End Closing.

Section StructuralRule.
Variable adj : list (list nat).

Lemma pre1_fuel v s : ¬ pre1 adj 0 v s.
Proof. intros (_ & Hv & Hf). apply undiscovered_pos in Hv. lia. Qed.

Lemma inv1_enter f v s0 : pre1 adj (S f) v s0 → inv1 adj f v s0 [] (enter v s0).
Proof.
  intros (Hwf & Hv & Hf).
  destruct (wf_unvisited _ _ _ Hwf Hv) as [Hlt Hnin].
  split; try done.
  - by apply wf_enter.
  - by apply (extends_enter adj).
  - simpl. apply list_lookup_total_insert_eq. by rewrite (wf_len_idx _ _ Hwf).
  - unfold undiscovered in *. simpl. pose proof (wf_index _ _ Hwf).
    rewrite <- (filter_insert_length (idx s0) v (index s0)) in Hf by (done || lia). lia.
  - by exists [].
Qed.

Lemma inv1_call f v s0 done s w :
  inv1 adj f v s0 done s → idx s !! w = Some (-1)%Z → pre1 adj f w s.
Proof. intros [] Hw. by split. Qed.

Lemma inv1_v_new f v s0 done s :
  inv1 adj f v s0 done s → (v ∉ st s0 ++ concat (sccs s0)) ∧ v ∈ st s.
Proof.
  intros [Hwf0 Hwf Hext Hnew Hidx Hfuel [above Hst]].
  split; [by eapply wf_unvisited|]. rewrite Hst. set_solver.
Qed.

Lemma inv1_setLow f v s0 done done' s x :
  inv1 adj f v s0 done s → inv1 adj f v s0 done' (setLow v x s).
Proof.
  intros HI. destruct (inv1_v_new _ _ _ _ _ HI) as [Hnew' _].
  destruct HI as [Hwf0 Hwf Hext Hnew Hidx Hfuel Hshape].
  split; try done.
  - by apply wf_setLow.
  - by apply extends_setLow.
Qed.

Lemma inv1_ret f v s0 done s w s' :
  inv1 adj f v s0 done s → post1 adj w s s' → inv1 adj f v s0 done s'.
Proof.
  intros HI [Hwf' Hext' Hidx' Hshape].
  destruct (inv1_v_new _ _ _ _ _ HI) as [Hnew' Hvst].
  destruct HI as [Hwf0 Hwf Hext Hnew Hidx Hfuel [above Hst]].
  split; try done.
  - by eapply extends_trans.
  - rewrite (ext_idx _ _ Hext'); [done|]. set_solver.
  - pose proof (ext_undiscovered _ _ Hext'). lia.
  - destruct Hshape as [[-> _]|(above' & -> & _)]; [by exists above|].
    exists (above' ++ w :: above). rewrite Hst. by rewrite <- app_assoc.
Qed.

Lemma post1_close f v s0 s :
  inv1 adj f v s0 (adj !!! v) s →
  ∃ s', closeComponent v s = Some s' ∧ post1 adj v s0 s'.
Proof.
  intros HI. destruct (inv1_v_new _ _ _ _ _ HI) as [Hnew' Hvst].
  destruct HI as [Hwf0 Hwf Hext Hnew Hidx Hfuel [above Hst]].
  destruct (decide (low s !!! v = idx s !!! v)) as [Heq|Hne].
  - destruct (stack_split_nodup adj s v above (st s0) Hwf Hst) as (Hv & _ & _).
    exists (closedState s v above (st s0)).
    split; [by apply closeComponent_closed|].
    split; simpl; try done.
    + by apply wf_closedState.
    + eapply extends_trans; [done|]. by apply extends_closedState.
    + by left.
  - exists s. split; [by apply closeComponent_open|].
    split; try done. right. by exists above.
Qed.

(** [strongconnect(v)] returns when as many activations are available as
    there are undiscovered nodes, and preserves the structural invariant. *)
Lemma strongconnect_structural fuel v s0 :
  pre1 adj fuel v s0 →
  ∃ s', strongconnect adj fuel v s0 = Some s' ∧ post1 adj v s0 s'.
Proof.
  apply (strongconnect_rule adj (pre1 adj) (post1 adj) (inv1 adj)).
  - apply pre1_fuel.
  - apply inv1_enter.
  - intros. by eapply inv1_call.
  - intros. eapply inv1_setLow. by eapply inv1_ret.
  - intros. by eapply inv1_setLow.
  - intros f' v' s0' done w rest s _ [] _ _. by split.
  - apply post1_close.
Qed.
End StructuralRule.

(** ** Paths *)

Section Reach.
Variable adj : list (list nat).

Lemma reach_mono (P Q : nat → Prop) u z :
  (∀ x, P x → Q x) → reach adj P u z → reach adj Q u z.
Proof.
  intros HPQ. induction 1 as [u Hu|u w z Hu He _ IH].
  - apply reach_refl. auto.
  - eapply reach_step; eauto.
Qed.

Lemma reach_trans P u w z : reach adj P u w → reach adj P w z → reach adj P u z.
Proof.
  induction 1 as [u Hu|u w' w Hu He _ IH]; [done|].
  intros Hz. eapply reach_step; eauto.
Qed.

Lemma reach_start P u z : reach adj P u z → P u.
Proof. by destruct 1. Qed.

Lemma reach_end P u z : reach adj P u z → P z.
Proof. induction 1; auto. Qed.

Lemma reach_edge (P : nat → Prop) u w : P u → P w → edge adj u w → reach adj P u w.
Proof. intros. eapply reach_step; [done..|]. by apply reach_refl. Qed.
End Reach.

(** ** The low-link invariant under changes of the state *)

Section Frames.
Variable adj : list (list nat).

Lemma lowOK_at_frame s s' y :
  lowOK_at adj s y →
  (∀ x, x ∈ st s → x ∈ st s' ∧ idx s' !!! x = idx s !!! x) →
  low s' !!! y = low s !!! y → y ∈ st s →
  lowOK_at adj s' y.
Proof.
  intros [Hle (z & Hz & Hzi & Hr)] Hst Hlow Hy.
  destruct (Hst y Hy) as [_ Hyi]. destruct (Hst z Hz) as [Hz' Hzi'].
  split; [lia|]. exists z. split; [done|]. split; [lia|].
  eapply reach_mono; [|done]. intros x [Hx Hxl].
  destruct (Hst x Hx). split; [done|lia].
Qed.

Lemma examined_frame s s' y ws :
  examined s y ws →
  (low s' !!! y ≤ low s !!! y)%Z →
  (∀ x, x ∈ concat (sccs s) → x ∈ concat (sccs s')) →
  (∀ x, x ∈ st s → x ∈ concat (sccs s') ∨ (x ∈ st s' ∧ idx s' !!! x = idx s !!! x)) →
  examined s' y ws.
Proof.
  intros Hex Hlow Hsccs Hst w Hw. destruct (Hex w Hw) as [?|[Hws Hwl]]; [left; auto|].
  destruct (Hst w Hws) as [?|[? ?]]; [by left|right]. split; [done|lia].
Qed.

Lemma examined_app s y ws1 ws2 :
  examined s y ws1 → examined s y ws2 → examined s y (ws1 ++ ws2).
Proof. intros H1 H2 w [?|?]%elem_of_app; auto. Qed.

Lemma setLow_low_eq s v x : v < length (low s) → low (setLow v x s) !!! v = x.
Proof. intros. simpl. by apply list_lookup_total_insert_eq. Qed.

Lemma setLow_low_ne s v x u : u ≠ v → low (setLow v x s) !!! u = low s !!! u.
Proof. intros. simpl. by apply list_lookup_total_insert_ne. Qed.
End Frames.

(** ** The path invariant of Tarjan's algorithm *)

Section Paths.
Variable adj : list (list nat).
Hypothesis Hclosed : closedGraph adj.

Lemma segment_at_frame s s' v seg seg' y :
  segment_at adj s v seg y →
  low s' !!! y = low s !!! y → idx s' !!! y = idx s !!! y →
  (low s' !!! v ≤ low s !!! v)%Z →
  (∀ x, x ∈ concat (sccs s) → x ∈ concat (sccs s')) →
  (∀ x, x ∈ st s → x ∈ st s' ∧ idx s' !!! x = idx s !!! x) →
  (∀ x, x ∈ seg → x ∈ seg') →
  segment_at adj s' v seg' y.
Proof.
  intros (Hlt & Hle & Hc & Hr) Hlow Hidx Hv Hsccs Hst Hseg.
  split; [lia|]. split; [lia|]. split.
  - eapply examined_frame; [exact Hc|lia|done|]. intros x Hx. right. by apply Hst.
  - eapply reach_mono; [|exact Hr]. simpl. auto.
Qed.

Lemma inv1_done f v s0 done done' s : inv1 adj f v s0 done s → inv1 adj f v s0 done' s.
Proof. intros []. by split. Qed.

Lemma inv2_facts f v s0 done s :
  inv2 adj f v s0 done s →
  ∃ above, st s = above ++ v :: st s0 ∧ (v ∉ above) ∧ v < length adj ∧
           (v ∉ st s0 ++ concat (sccs s0)) ∧ wf adj s ∧ length (low s) = length adj ∧
           segment adj s v above.
Proof.
  intros [H1 _ _ _ _ _ Hseg _].
  destruct (inv1_v_new _ _ _ _ _ _ H1) as [Hnew _].
  destruct H1 as [Hwf0 Hwf Hext Hv Hidx Hfuel [above Hst]].
  exists above. destruct (stack_split_nodup adj s v above (st s0) Hwf Hst) as (? & _ & Hb).
  split; [done|]. split; [done|]. split; [apply Hb; set_solver|].
  split; [done|]. split; [done|]. split; [apply Hwf|by apply Hseg].
Qed.

Lemma inv2_enter f v s0 : pre2 adj (S f) v s0 → inv2 adj f v s0 [] (enter v s0).
Proof.
  intros (Hp1 & Hlow & Hcomps & Hcl).
  pose proof (inv1_enter _ _ _ _ Hp1) as H1.
  destruct Hp1 as (Hwf & Hv & Hf).
  destruct (wf_unvisited _ _ _ Hwf Hv) as [Hlt Hnin].
  split; try done.
  - by exists (adj !!! v).
  - intros y [->|Hy]%elem_of_cons.
    + assert (low (enter v s0) !!! v = index s0) as Hl.
      { simpl. apply list_lookup_total_insert_eq. by rewrite (wf_len_low _ _ Hwf). }
      assert (idx (enter v s0) !!! v = index s0) as Hi.
      { simpl. apply list_lookup_total_insert_eq. by rewrite (wf_len_idx _ _ Hwf). }
      split; [lia|]. exists v. split; [by left|]. split; [lia|].
      apply reach_refl. split; [by left|lia].
    + assert (∀ x, x ∈ st s0 → x ≠ v) as Hne.
      { intros x Hx ->. apply Hnin. set_solver. }
      eapply lowOK_at_frame; [by apply Hlow| | |done].
      * intros x Hx. split; [by right|]. simpl.
        apply list_lookup_total_insert_ne. intros ->. by apply (Hne x).
      * simpl. apply list_lookup_total_insert_ne. intros ->. by apply (Hne y).
  - intros above Hst. simpl in Hst.
    apply (app_inv_tail _ [] above) in Hst as <-. intros y Hy. by apply elem_of_nil in Hy.
  - intros w Hw. by apply elem_of_nil in Hw.
Qed.

(** Lowering the low-link of the active node. *)
Lemma inv2_lower f v s0 done s m :
  inv2 adj f v s0 done s → (m ≤ low s !!! v)%Z →
  lowOK_at adj (setLow v m s) v →
  inv2 adj f v s0 done (setLow v m s).
Proof.
  intros HI Hm Hv.
  destruct (inv2_facts _ _ _ _ _ HI) as (above & Hst & Hva & Hlt & Hnew & Hwf & Hlen & Hseg).
  destruct HI as [H1 He Hlow0 Hlow Hcomps Hcl _ Hdone].
  assert (low (setLow v m s) !!! v = m) as Hlv by (apply setLow_low_eq; lia).
  split; try done.
  - by eapply inv1_setLow.
  - intros y Hy. destruct (decide (y = v)) as [->|Hne]; [done|].
    eapply lowOK_at_frame; [by apply Hlow|done| |done]. by apply setLow_low_ne.
  - intros above' Hst'. simpl in Hst'. rewrite Hst in Hst'.
    apply app_inv_tail in Hst' as <-. intros y Hy.
    eapply segment_at_frame; [by apply Hseg| |done| |done|done|done].
    + apply setLow_low_ne. by intros ->.
    + lia.
  - eapply examined_frame; [exact Hdone|lia|done|]. intros x Hx. by right.
Qed.

(** Recording that the edge to [w] has been examined. *)
Lemma inv2_done f v s0 done w rest s :
  adj !!! v = done ++ w :: rest → inv2 adj f v s0 done s →
  w ∈ concat (sccs s) ∨ (w ∈ st s ∧ (low s !!! v ≤ idx s !!! w)%Z) →
  inv2 adj f v s0 (done ++ [w]) s.
Proof.
  intros Hadj [H1 _ Hlow0 Hlow Hcomps Hcl Hseg Hdone] Hw. split; try done.
  - by eapply inv1_done.
  - exists rest. by rewrite <- app_assoc.
  - apply examined_app; [done|]. by intros w' ->%list_elem_of_singleton.
Qed.

Lemma inv2_back f v s0 done w rest s :
  adj !!! v = done ++ w :: rest → inv2 adj f v s0 done s →
  idx s !! w ≠ Some (-1)%Z → onSt s !! w = Some true →
  inv2 adj f v s0 (done ++ [w])
    (setLow v (if (low s !!! v <? idx s !!! w)%Z then low s !!! v else idx s !!! w) s).
Proof.
  intros Hadj HI _ Hon.
  destruct (inv2_facts _ _ _ _ _ HI) as (above & Hst & Hva & Hlt & Hnew & Hwf & Hlen & Hseg).
  apply (wf_onSt _ _ Hwf) in Hon.
  assert (v ∈ st s) as Hvst by (rewrite Hst; set_solver).
  assert (edge adj v w) as Hedge by (unfold edge; rewrite Hadj; set_solver).
  pose proof (i2_low _ _ _ _ _ _ HI v Hvst) as [Hle Hz].
  set (m := if (low s !!! v <? idx s !!! w)%Z then low s !!! v else idx s !!! w).
  assert (m ≤ low s !!! v ∧ m ≤ idx s !!! w)%Z as [Hm1 Hm2].
  { unfold m. destruct (Z.ltb_spec (low s !!! v) (idx s !!! w)); lia. }
  assert (low (setLow v m s) !!! v = m) as Hlv by (apply setLow_low_eq; lia).
  eapply inv2_done; [done| |right; split; [done|simpl in *; lia]].
  apply inv2_lower; [done|done|].
  unfold m. destruct (Z.ltb_spec (low s !!! v) (idx s !!! w)) as [Hlt'|Hge].
  - eapply lowOK_at_frame; [by split|done| |done]. by apply setLow_low_eq; lia.
  - split; [rewrite setLow_low_eq by lia; simpl; lia|].
    exists w. split; [done|]. split; [by rewrite setLow_low_eq by lia|].
    rewrite setLow_low_eq by lia. simpl.
    apply reach_edge; [split; [done|lia]|split; [done|lia]|done].
Qed.

Lemma inv2_skip f v s0 done w rest s :
  adj !!! v = done ++ w :: rest → inv2 adj f v s0 done s →
  idx s !! w ≠ Some (-1)%Z → onSt s !! w ≠ Some true →
  inv2 adj f v s0 (done ++ [w]) s.
Proof.
  intros Hadj HI Hidx Hon.
  destruct (inv2_facts _ _ _ _ _ HI) as (above & Hst & Hva & Hlt & Hnew & Hwf & Hlen & Hseg).
  assert (edge adj v w) as Hedge by (unfold edge; rewrite Hadj; set_solver).
  pose proof (Hclosed _ _ Hedge) as Hw.
  eapply inv2_done; [done|done|]. left.
  assert (w ∈ st s ++ concat (sccs s)) as [Hin|Hin]%elem_of_app; [| |done].
  - apply (wf_visited _ _ Hwf); [done|]. intros Heq. apply Hidx.
    rewrite <- Heq. apply list_lookup_lookup_total_lt. by rewrite (wf_len_idx _ _ Hwf).
  - by apply (wf_onSt _ _ Hwf) in Hin.
Qed.
End Paths.

Section PathsReturn.
Variable adj : list (list nat).
Hypothesis Hclosed : closedGraph adj.

Lemma inv2_ret f v s0 done w rest s s' :
  adj !!! v = done ++ w :: rest → inv2 adj f v s0 done s →
  idx s !! w = Some (-1)%Z → post2 adj w s s' →
  inv2 adj f v s0 (done ++ [w])
    (setLow v (if (low s' !!! v <? low s' !!! w)%Z then low s' !!! v else low s' !!! w) s').
Proof.
  intros Hadj HI Hw [Hp1 Hlow' Hcomps' Hcl' Hopen].
  destruct (inv2_facts _ Hclosed _ _ _ _ _ HI) as (above & Hst & Hva & Hlt & Hnew & Hwf & Hlen & Hseg).
  destruct HI as [H1 _ Hlow0 Hlow _ _ _ Hdone].
  pose proof (inv1_setLow adj f v s0 done (done ++ [w]) s'
    (if (low s' !!! v <? low s' !!! w)%Z then low s' !!! v else low s' !!! w)
    (inv1_ret _ _ _ _ _ _ _ _ H1 Hp1)) as H1'.
  destruct Hp1 as [Hwf' Hext' Hidxw Hshape].
  destruct (wf_unvisited _ _ _ Hwf Hw) as [Hwlt Hwnew].
  assert (edge adj v w) as Hedge by (unfold edge; rewrite Hadj; set_solver).
  assert (v ∈ st s) as Hvst by (rewrite Hst; set_solver).
  assert (∀ x, x ∈ st s → x ∈ st s') as Hsub.
  { intros x Hx. destruct Hshape as [[-> _]|(aw & -> & _)]; set_solver. }
  assert (∀ x, x ∈ st s → x ∈ st s' ∧ idx s' !!! x = idx s !!! x) as Fst.
  { intros x Hx. split; [by apply Hsub|]. apply (ext_idx _ _ Hext'). set_solver. }
  assert (∀ x, x ∈ st s → low s' !!! x = low s !!! x) as Flow.
  { intros x Hx. apply (ext_low _ _ Hext'). set_solver. }
  assert (∀ x, x ∈ concat (sccs s) → x ∈ concat (sccs s')) as Fsccs.
  { intros x Hx. destruct (ext_sccs _ _ Hext') as [new ->]. rewrite concat_app. set_solver. }
  assert (length (low s') = length adj) as Hlen' by apply Hwf'.
  assert (w ≠ v) as Hwv by (intros ->; apply Hwnew; set_solver).
  pose proof (Hlow' v (Hsub v Hvst)) as Hlv'.
  pose proof (wf_stack_idx adj s v Hwf ltac:(set_solver)) as Hvi.
  pose proof (wf_index _ _ Hwf) as Hindex.
  destruct (Fst v Hvst) as [_ Hvidx].
  set (m := if (low s' !!! v <? low s' !!! w)%Z then low s' !!! v else low s' !!! w) in *.
  assert (m ≤ low s' !!! v ∧ m ≤ low s' !!! w)%Z as [Hm1 Hm2].
  { unfold m. destruct (Z.ltb_spec (low s' !!! v) (low s' !!! w)); lia. }
  assert (low (setLow v m s') !!! v = m) as Hlv by (apply setLow_low_eq; lia).
  assert (w ∈ concat (sccs s') ∨ (w ∈ st s' ∧ (low s' !!! w < idx s' !!! w)%Z)) as Hwpos.
  { destruct Hshape as [[Heq _]|(aw & Hst' & Hne)].
    - left. assert (w ∈ st s' ++ concat (sccs s')) as [Hin|Hin]%elem_of_app; [|by rewrite Heq in Hin; destruct Hwnew; set_solver|done].
      apply (wf_visited _ _ Hwf'); [done|]. lia.
    - right. split; [rewrite Hst'; set_solver|]. by apply (Hopen aw). }
  assert (lowOK_at adj (setLow v m s') v) as Hnewlow.
  { destruct (decide (m = low s' !!! v)) as [Hm|Hm].
    - eapply lowOK_at_frame; [exact Hlv'|done|lia|by apply Hsub].
    - assert (m = low s' !!! w) as Hmw.
      { unfold m in *. destruct (Z.ltb_spec (low s' !!! v) (low s' !!! w)); [done|lia]. }
      destruct Hwpos as [Hpop|[Hwst Hwl]].
      { exfalso. destruct Hshape as [[Heq Hwlow]|(aw & Hst' & _)].
        - destruct Hlv' as [? _]. lia.
        - pose proof (wf_nodup _ _ Hwf') as Hnd. rewrite Hst' in Hnd.
          apply NoDup_app in Hnd as (_ & Hdisj & _). apply (Hdisj w); set_solver. }
      destruct (Hlow' w Hwst) as [_ (z & Hz & Hzi & Hr)].
      destruct Hlv' as [Hle _].
      split; [rewrite Hlv; simpl; lia|]. exists z. split; [done|].
      rewrite Hlv. split; [simpl; lia|]. simpl.
      eapply reach_step; [split; [by apply Hsub|lia]|done|].
      eapply reach_mono; [|exact Hr]. simpl. intros x [? ?]. split; [done|lia]. }
  split; try done.
  - exists rest. by rewrite <- app_assoc.
  - intros y Hy. destruct (decide (y = v)) as [->|Hne]; [done|].
    eapply lowOK_at_frame; [by apply Hlow'|done| |done]. by apply setLow_low_ne.
  - intros above' Hst'. simpl in Hst'.
    destruct (stack_split_nodup adj s' v above' (st s0) Hwf' Hst') as (Hva' & _ & _).
    assert (∀ y, y ∈ above → segment_at adj (setLow v m s') v (above' ++ [v]) y) as Hold.
    { intros y Hy. assert (y ∈ st s) as Hyst by (rewrite Hst; set_solver).
      eapply segment_at_frame; [by apply Hseg| | | |done|done|].
      - rewrite setLow_low_ne by (by intros ->). by apply Flow.
      - by apply Fst.
      - rewrite Hlv, <- Flow by done. lia.
      - intros x Hx. assert (x ∈ st s') as Hx' by (apply Hsub; rewrite Hst; set_solver).
        rewrite Hst' in Hx'.
        apply elem_of_app in Hx' as [?|[->|Hx']%elem_of_cons]; [set_solver|set_solver|].
        exfalso. destruct (stack_split_nodup adj s v above (st s0) Hwf Hst) as (_ & Hd & _).
        apply (Hd x Hx). set_solver. }
    destruct Hshape as [[Heq _]|(aw & Hstw & Hne)].
    + rewrite Heq, Hst in Hst'. apply app_inv_tail in Hst' as <-. done.
    + rewrite Hstw, Hst in Hst'.
      replace (aw ++ w :: above ++ v :: st s0) with ((aw ++ w :: above) ++ v :: st s0) in Hst'
        by (by rewrite <- app_assoc).
      apply app_inv_tail in Hst' as <-.
      destruct (Hopen aw Hstw) as (Hsegw & Hwlt' & Hwc).
      assert (∀ y, segment_at adj s' w (aw ++ [w]) y → y ∈ aw ++ [w] →
                   segment_at adj (setLow v m s') v ((aw ++ w :: above) ++ [v]) y) as Hnew'.
      { intros y (Hy1 & Hy2 & Hy3 & Hy4) Hy.
        assert (y ≠ v) as Hyv by (intros ->; apply Hva'; set_solver).
        rewrite <- (setLow_low_ne s' v m y Hyv) in Hy1, Hy2.
        split; [done|]. split; [rewrite Hlv; lia|]. split.
        - eapply examined_frame; [exact Hy3|by rewrite setLow_low_ne|done|]. intros x Hx. by right.
        - eapply reach_step; [set_solver|done|]. eapply reach_mono; [|exact Hy4]. set_solver. }
      intros y [Hy|[->|Hy]%elem_of_cons]%elem_of_app.
      * apply Hnew'; [by apply Hsegw|set_solver].
      * apply Hnew'; [|set_solver]. split; [done|]. split; [lia|]. split; [done|].
        apply reach_refl. set_solver.
      * by apply Hold.
  - apply examined_app.
    + eapply examined_frame; [exact Hdone|rewrite Hlv, <- Flow by done; lia|done|].
      intros x Hx. right. by apply Fst.
    + intros w' ->%list_elem_of_singleton. destruct Hwpos as [?|[? ?]]; [by left|right].
      split; [done|]. rewrite Hlv. simpl. lia.
Qed.
End PathsReturn.

Section PathsClose.
Variable adj : list (list nat).
Hypothesis Hclosed : closedGraph adj.

Lemma stack_above_idx s v above st0 x :
  wf adj s → st s = above ++ v :: st0 → x ∈ st s →
  (idx s !!! v ≤ idx s !!! x)%Z → x ∈ above ++ [v].
Proof.
  intros Hwf Hst Hx Hle. rewrite Hst in Hx.
  apply elem_of_app in Hx as [?|[->|Hx]%elem_of_cons]; [set_solver|set_solver|].
  pose proof (wf_sorted _ _ Hwf above v st0 x Hst Hx). lia.
Qed.

(** The nodes popped by a call whose low-link equals its discovery number
    are strongly connected among themselves. *)
Lemma segment_connected s v above st0 :
  wf adj s → st s = above ++ v :: st0 → lowOK adj s → segment adj s v above →
  low s !!! v = idx s !!! v → stronglyConnected adj (above ++ [v]).
Proof.
  intros Hwf Hst Hlow Hseg Heq.
  assert (∀ y, y ∈ above ++ [v] → reach adj (λ u, u ∈ above ++ [v]) v y) as HA.
  { intros y [Hy| ->%list_elem_of_singleton]%elem_of_app.
    - by apply (Hseg y Hy).
    - apply reach_refl. set_solver. }
  assert (∀ n y, y ∈ above ++ [v] → Z.to_nat (idx s !!! y - idx s !!! v) ≤ n →
                 reach adj (λ u, u ∈ above ++ [v]) y v) as HB.
  { induction n as [|n IH]; intros y Hy Hn.
    - apply elem_of_app in Hy as [Hy| ->%list_elem_of_singleton]; [|apply reach_refl; set_solver].
      destruct (Hseg y Hy) as (Hlt & Hle & _).
      assert (y ∈ st s) as Hyst by (rewrite Hst; set_solver).
      destruct (Hlow y Hyst) as [_ (z & Hz & Hzi & Hr)]. lia.
    - apply elem_of_app in Hy as [Hy| ->%list_elem_of_singleton]; [|apply reach_refl; set_solver].
      destruct (Hseg y Hy) as (Hlt & Hle & _).
      assert (y ∈ st s) as Hyst by (rewrite Hst; set_solver).
      destruct (Hlow y Hyst) as [_ (z & Hz & Hzi & Hr)].
      eapply reach_trans.
      + eapply reach_mono; [|exact Hr]. simpl. intros x [Hx Hxl].
        eapply stack_above_idx; [done..|lia].
      + apply IH; [|lia]. eapply stack_above_idx; [done..|lia]. }
  intros x y Hx Hy. eapply reach_trans; [by eapply HB|by apply HA].
Qed.

Lemma post2_close f v s0 s :
  inv2 adj f v s0 (adj !!! v) s →
  ∃ s', closeComponent v s = Some s' ∧ post2 adj v s0 s'.
Proof.
  intros HI.
  destruct (inv2_facts _ Hclosed _ _ _ _ _ HI) as (above & Hst & Hva & Hlt & Hnew & Hwf & Hlen & Hseg).
  destruct HI as [H1 _ Hlow0 Hlow Hcomps Hcl _ Hdone].
  destruct (post1_close _ _ _ _ _ H1) as (s' & Hc & Hp1). exists s'. split; [done|].
  assert (v ∈ st s) as Hvst by (rewrite Hst; set_solver).
  destruct (decide (low s !!! v = idx s !!! v)) as [Heq|Hne].
  - rewrite (closeComponent_closed s v above (st s0)) in Hc by done.
    injection Hc as <-.
    assert (∀ y, y ∈ above ++ [v] → complete adj s y ∧ (idx s !!! v ≤ low s !!! y)%Z) as Hcomp.
    { intros y [Hy| ->%list_elem_of_singleton]%elem_of_app.
      - destruct (Hseg y Hy) as (_ & ? & ? & _). split; [done|lia].
      - split; [done|lia]. }
    split; try done.
    + intros y Hy. simpl in Hy.
      pose proof (i1_ext _ _ _ _ _ _ H1) as Hext.
      eapply lowOK_at_frame; [by apply Hlow0| | |done].
      * intros x Hx. split; [done|]. simpl. apply (ext_idx _ _ Hext). set_solver.
      * simpl. apply (ext_low _ _ Hext). set_solver.
    + intros comp [Hin| ->%list_elem_of_singleton]%elem_of_app; [by apply Hcomps|].
      by eapply segment_connected.
    + intros k comp x w Hk Hx Hedge. simpl in Hk.
      apply lookup_app_Some in Hk as [Hk|[Hlen' Hk]].
      * destruct (Hcl k comp x w Hk Hx Hedge) as (j & comp' & Hj & Hj' & Hw).
        exists j, comp'. split; [done|]. split; [|done]. simpl. by apply lookup_app_l_Some.
      * destruct (k - length (sccs s)) as [|?] eqn:Hd; [|done]. simpl in Hk.
        injection Hk as <-. assert (k = length (sccs s)) as -> by lia.
        destruct (Hcomp x Hx) as [Hex Hxl].
        destruct (Hex w Hedge) as [Hpop|[Hwst Hwl]].
        -- apply elem_of_concat in Hpop as (comp' & Hin & Hw).
           apply list_elem_of_lookup in Hin as [j Hj].
           exists j, comp'. split; [apply lookup_lt_Some in Hj; lia|].
           split; [|done]. simpl. by apply lookup_app_l_Some.
        -- exists (length (sccs s)), (above ++ [v]). split; [done|]. split.
           ++ simpl. rewrite lookup_app_r by done. by rewrite Nat.sub_diag.
           ++ eapply stack_above_idx; [done..|lia].
    + intros above' Hst'. simpl in Hst'. apply (f_equal length) in Hst'.
      rewrite length_app in Hst'. simpl in Hst'. lia.
  - rewrite closeComponent_open in Hc by done. injection Hc as <-.
    split; try done. intros above' Hst'. rewrite Hst in Hst'.
    apply app_inv_tail in Hst' as ->. split; [done|]. split; [|done].
    destruct (Hlow v Hvst) as [? _]. lia.
Qed.

(** [strongconnect(v)] returns and preserves the path invariant. *)
Lemma strongconnect_paths fuel v s0 :
  pre2 adj fuel v s0 →
  ∃ s', strongconnect adj fuel v s0 = Some s' ∧ post2 adj v s0 s'.
Proof.
  apply (strongconnect_rule adj (pre2 adj) (post2 adj) (inv2 adj)).
  - intros v' s [H _]. by apply pre1_fuel in H.
  - by apply inv2_enter.
  - intros f' v' s0' done w rest s _ HI Hw.
    destruct HI as [H1 _ _ Hlow Hcomps Hcl _ _]. split; [by eapply inv1_call|done].
  - by apply inv2_ret.
  - by apply inv2_back.
  - by apply inv2_skip.
  - apply post2_close.
Qed.
End PathsClose.

(** ** The top-level loop *)

Section TopLevel.
Variable adj : list (list nat).
Hypothesis Hclosed : closedGraph adj.

Lemma wf_init : wf adj (tarjanInit (length adj)).
Proof.
  split; simpl; try (by rewrite length_replicate); try done.
  - intros v Hv. left. by rewrite lookup_total_replicate_2.
  - intros w. split; [|by intros ?%elem_of_nil].
    intros [? _]%lookup_replicate. done.
  - apply NoDup_nil_2.
  - intros v Hv. rewrite lookup_total_replicate_2 by done.
    split; [done|by intros ?%elem_of_nil].
  - by intros v ?%elem_of_nil.
  - intros [|??] ??? Hst; simplify_eq.
  - intros w Hw _. by rewrite lookup_total_replicate_2.
Qed.

Lemma undiscovered_init : undiscovered (tarjanInit (length adj)) = length adj.
Proof.
  unfold undiscovered. simpl. induction (length adj) as [|n IH]; [done|].
  change (replicate (S n) (-1)%Z) with ((-1)%Z :: replicate n (-1)%Z).
  rewrite filter_cons_True by done. simpl. by rewrite IH.
Qed.

Lemma tarjanOK_init : tarjanOK adj (tarjanInit (length adj)).
Proof.
  split; [apply wf_init|done| |].
  - by intros comp ?%elem_of_nil.
  - by intros k comp x w ?.
Qed.

(** A call made on the empty stack closes its component. *)
Lemma strongconnect_top fuel v s :
  tarjanOK adj s → idx s !! v = Some (-1)%Z → undiscovered s ≤ fuel →
  ∃ s', strongconnect adj fuel v s = Some s' ∧ tarjanOK adj s' ∧ extends s s' ∧
        v ∈ concat (sccs s').
Proof.
  intros [Hwf Hst Hcomps Hcl] Hv Hf.
  destruct (strongconnect_paths adj Hclosed fuel v s) as (s' & Hrun & Hpost).
  { split; [by split|]. split; [|done]. intros y Hy. rewrite Hst in Hy.
    by apply elem_of_nil in Hy. }
  exists s'. split; [done|].
  destruct Hpost as [[Hwf' Hext Hidx Hshape] Hlow' Hcomps' Hcl' Hopen].
  assert (st s' = []) as Hst'.
  { destruct Hshape as [[-> _]|(above & Hab & _)]; [done|]. exfalso.
    destruct (Hopen above Hab) as (_ & Hlt & _).
    assert (v ∈ st s') as Hvst by (rewrite Hab; set_solver).
    destruct (Hlow' v Hvst) as [_ (z & Hz & Hzi & _)].
    rewrite Hst in Hab.
    rewrite Hab in Hz. apply elem_of_app in Hz as [Hz|Hz].
    - destruct (list_elem_of_split _ _ Hz) as (a1 & a2 & ->).
      pose proof (wf_sorted _ _ Hwf' a1 z (a2 ++ [v]) v) as Hs.
      rewrite Hab in Hs. rewrite <- app_assoc in Hs. specialize (Hs eq_refl). 
      assert (v ∈ a2 ++ [v]) as Hv' by set_solver. specialize (Hs Hv'). lia.
    - apply list_elem_of_singleton in Hz as ->. lia. }
  split; [by split|]. split; [done|].
  pose proof (wf_index _ _ Hwf).
  destruct (wf_unvisited _ _ _ Hwf Hv) as [Hlt _].
  assert (v ∈ st s' ++ concat (sccs s')) as Hin.
  { apply (wf_visited _ _ Hwf'); [done|]. lia. }
  rewrite Hst' in Hin. done.
Qed.

Lemma tarjanLoop_spec fuel vs : ∀ s,
  tarjanOK adj s → undiscovered s ≤ fuel →
  ∃ t, tarjanLoop adj fuel vs s = Some t ∧ tarjanOK adj t ∧ extends s t ∧
       ∀ v, v ∈ vs → v < length adj → v ∈ concat (sccs t).
Proof.
  induction vs as [|v vs IH]; intros s Hok Hf; simpl.
  - exists s. split; [done|]. split; [done|]. split; [apply extends_refl|].
    by intros v ?%elem_of_nil.
  - destruct (decide (idx s !! v = Some (-1)%Z)) as [Hv|Hv].
    + destruct (strongconnect_top fuel v s Hok Hv Hf) as (s' & -> & Hok' & Hext & Hin).
      simpl. destruct (IH s' Hok') as (t & Hrun & Hokt & Hext' & Hall).
      { pose proof (ext_undiscovered _ _ Hext). lia. }
      exists t. split; [done|]. split; [done|]. split; [by eapply extends_trans|].
      intros u [->|Hu]%elem_of_cons Hlt; [|by apply Hall].
      pose proof (ext_visited _ _ Hext' v) as Hvis.
      rewrite (ok_stack _ _ Hok'), (ok_stack _ _ Hokt) in Hvis. by apply Hvis.
    + destruct (IH s Hok Hf) as (t & Hrun & Hokt & Hext' & Hall).
      exists t. split; [done|]. split; [done|]. split; [done|].
      intros u [->|Hu]%elem_of_cons Hlt; [|by apply Hall].
      pose proof (ext_visited _ _ Hext' v) as Hvis.
      rewrite (ok_stack _ _ Hok), (ok_stack _ _ Hokt) in Hvis. apply Hvis.
      assert (v ∈ st s ++ concat (sccs s)) as Hin.
      { apply (wf_visited _ _ (ok_wf _ _ Hok)); [done|]. intros Heq. apply Hv.
        rewrite <- Heq. apply list_lookup_lookup_total_lt.
        by rewrite (wf_len_idx _ _ (ok_wf _ _ Hok)). }
      by rewrite (ok_stack _ _ Hok) in Hin.
Qed.

(** Tarjan's algorithm returns with a call stack of depth [length adj];
    the final state satisfies the invariants and every node lies in a
    component. *)
Lemma tarjanRun_spec :
  ∃ t, tarjanRun adj (length adj) = Some t ∧ tarjanOK adj t ∧
       ∀ v, v < length adj → v ∈ concat (sccs t).
Proof.
  destruct (tarjanLoop_spec (length adj) (seq 0 (length adj)) (tarjanInit (length adj)))
    as (t & Hrun & Hok & _ & Hall).
  - apply tarjanOK_init.
  - by rewrite undiscovered_init.
  - exists t. split; [done|]. split; [done|]. intros v Hv. apply Hall; [|done].
    apply elem_of_seq. lia.
Qed.
End TopLevel.

(** ** Cycle recovery *)

Lemma isWalk_snoc adj l x y :
  isWalk adj (l ++ [x]) → edge adj x y → isWalk adj ((l ++ [x]) ++ [y]).
Proof.
  intros Hw He. induction l as [|a l IH]; [by split|].
  destruct l as [|b l].
  - destruct Hw as [Hax _]. by split.
  - destruct Hw as [Hab Hw]. split; [done|]. by apply IH.
Qed.

(** A stack that is a chain of edges from the bottom up, read from the
    bottom and closed by a successor of its top, is a walk. *)
Lemma chainUp_isWalk adj stack z :
  chainUp adj stack → (∀ top, head stack = Some top → edge adj top z) →
  isWalk adj (reverse stack ++ [z]).
Proof.
  revert z. induction stack as [|x stack IH]; intros z Hc Hz; [done|].
  rewrite reverse_cons. apply isWalk_snoc; [|by apply Hz].
  apply IH.
  - destruct stack; [done|]. apply Hc.
  - intros top Htop. destruct stack as [|t stack]; [done|].
    injection Htop as ->. apply Hc.
Qed.

Lemma chainUp_tail adj stack : chainUp adj stack → chainUp adj (tail stack).
Proof. destruct stack as [|x [|y stack]]; try done. by intros [_ ?]. Qed.

Section Dfs.
Variable adj : list (list nat).
Variable start : nat.
Variable compSet : gset nat.

Abbreviation Post := (dfsPost adj start compSet).
Abbreviation Inv := (dfsInv adj start compSet).
(** Every member of [compSet] has a row in [adj]. *)
Abbreviation Rows := (∀ x, x ∈ compSet → x < length adj).

(** The loop of [dfs(u)]: it returns when every member of [compSet] has a
    row, and whenever it returns the invariant holds of the result. *)
Lemma dfsEdges_spec f u σ0 :
  (∀ w σ, dfsPre adj compSet f w σ →
     (Rows → w < length adj → is_Some (dfs adj start compSet f w σ)) ∧
     (∀ r, dfs adj start compSet f w σ = Some r → Post w σ r)) →
  ∀ rest done σ, adj !!! u = done ++ rest → Inv f u σ0 done σ →
  (Rows → is_Some (dfsEdges start compSet (dfs adj start compSet f) rest σ)) ∧
  (∀ r, dfsEdges start compSet (dfs adj start compSet f) rest σ = Some r →
       σ0.1 ⊆ r.2.1 ∧ u ∈ r.2.1 ∧ stackInv adj r.2 ∧
       if r.1 then
         ∃ ext, r.2.2 = ext ++ u :: σ0.2 ∧ (∀ x, x ∈ ext → x ∈ compSet) ∧
                start ∈ compSet ∧ 1 < length r.2.2 ∧
                ∃ top, head r.2.2 = Some top ∧ edge adj top start
       else Inv f u σ0 (adj !!! u) r.2).
Proof.
  intros IH rest. induction rest as [|w rest IHrest]; intros done σ Hadj HI.
  - rewrite app_nil_r in Hadj. simpl. split; [by eexists|]. intros r [= <-]. simpl.
    destruct HI as [Hst Hseen Hinv Hfuel Hdone Hexp].
    split; [set_solver|]. split; [set_solver|]. split; [done|].
    rewrite Hadj. by split.
  - assert (Hadj' : adj !!! u = (done ++ [w]) ++ rest) by by rewrite <- app_assoc.
    destruct HI as [Hst Hseen Hinv Hfuel Hdone Hexp].
    simpl. destruct (decide (w ∈ compSet)) as [Hw|Hw].
    + destruct (decide (w = start ∧ 1 < length σ.2)) as [[-> Hlen]|Hns].
      * split; [by eexists|]. intros r [= <-]. simpl.
        split; [set_solver|]. split; [set_solver|]. split; [done|].
        exists []. split; [done|]. split; [by intros ? ?%elem_of_nil|].
        split; [done|]. split; [done|]. exists u. rewrite Hst. split; [done|].
        unfold edge. rewrite Hadj. set_solver.
      * destruct (decide (w ∈ σ.1)) as [Hseenw|Hnew].
        -- apply (IHrest (done ++ [w])); [done|]. split; try done.
           intros w' [Hw'| ->%list_elem_of_singleton]%elem_of_app Hc; [by apply Hdone|].
           split; [done|]. intros Hne ->. apply Hns. split; [done|].
           rewrite Hst. simpl. destruct (σ0.2); [done|simpl; lia].
        -- assert (dfsPre adj compSet f w σ) as Hpre.
           { split; [done|]. split.
             - rewrite Hst. intros top [= <-]. unfold edge. rewrite Hadj.
               set_solver.
             - eapply Nat.lt_le_trans; [|exact Hfuel].
               apply subset_size. set_solver. }
           destruct (IH w σ Hpre) as [Htot Hpart].
           destruct (dfs adj start compSet f w σ) as [[b σ']|] eqn:Hcall; simpl.
           2:{ split; [|by intros r ?]. intros HR.
               by destruct (Htot HR (HR w Hw)) as [? ?]. }
           destruct (Hpart _ eq_refl) as (Hsub & Hwin & Hinv' & Hb).
           simpl in *. destruct b.
           ++ destruct Hb as (ext & Hext & Hin & Hsc & Hlen & Htop).
              split; [by eexists|]. intros r [= <-]. simpl.
              split; [set_solver|]. split; [set_solver|]. split; [done|].
              exists (ext ++ [w]). rewrite Hext, Hst, <- app_assoc. simpl.
              split; [done|]. split; [set_solver|]. split; [done|].
              rewrite Hext, Hst in Hlen, Htop. by split.
           ++ destruct Hb as [Hst' Hexp'].
              apply (IHrest (done ++ [w])); [done|]. split.
              ** by rewrite Hst'.
              ** set_solver.
              ** done.
              ** etrans; [|exact Hfuel]. apply subseteq_size. set_solver.
              ** intros w' [Hw'| ->%list_elem_of_singleton]%elem_of_app Hc.
                 --- destruct (Hdone w' Hw' Hc). split; [set_solver|done].
                 --- split; [done|]. intros Hne ->. apply Hns. split; [done|].
                     rewrite Hst. simpl. destruct (σ0.2); [done|simpl; lia].
              ** intros x Hx Hx0 Hxu w' Hedge Hc.
                 destruct (decide (x ∈ σ.1)) as [Hxs|Hxs].
                 --- destruct (Hexp x Hxs Hx0 Hxu w' Hedge Hc). split; [set_solver|done].
                 --- destruct (Hexp' x Hx Hxs w' Hedge Hc) as [? Hne]. split; [done|].
                     apply Hne. right. rewrite Hst. done.
    + apply (IHrest (done ++ [w])); [done|]. split; try done.
      intros w' [Hw'| ->%list_elem_of_singleton]%elem_of_app Hc; [by apply Hdone|done].
Qed.

(** [dfs(u)] returns within the given depth when [u] and the members of
    [compSet] have a row, and whenever it returns it establishes
    [dfsPost]. *)
Lemma dfs_spec f : ∀ u σ,
  dfsPre adj compSet f u σ →
  (Rows → u < length adj → is_Some (dfs adj start compSet f u σ)) ∧
  (∀ r, dfs adj start compSet f u σ = Some r → Post u σ r).
Proof.
  induction f as [|f IH]; intros u σ (Hinv & Hhead & Hfuel); [lia|].
  simpl. destruct (decide (u ∈ σ.1)) as [Hu|Hu].
  - split; [by eexists|]. intros r [= <-].
    split; [done|]. split; [done|]. split; [done|].
    simpl. split; [done|]. intros x Hx Hx'. done.
  - destruct (adj !! u) as [row|] eqn:Hrow; simpl.
    2:{ split; [|by intros r ?]. intros _ Hlt. apply lookup_ge_None in Hrow. lia. }
    rewrite <- (lookup_total_Some _ _ _ Hrow).
    destruct Hinv as (Hnd & Hsub & Hchain).
    destruct (dfsEdges_spec f u σ IH (adj !!! u) [] ({[u]} ∪ σ.1, u :: σ.2))
      as [Htot Hpart]; [done| |].
    { split; simpl; try done.
      - split; simpl; [|split; [set_solver|]].
        + apply NoDup_cons. split; [|done]. intros ?. by apply Hu, Hsub.
        + destruct (σ.2) as [|top stack]; [done|]. split; [by apply Hhead|done].
      - assert (compSet ∖ ({[u]} ∪ σ.1) = compSet ∖ ({[u]} ∪ σ.1)) by done. lia.
      - by intros w ?%elem_of_nil.
      - intros x Hx Hx0 Hxu. set_solver. }
    destruct (dfsEdges start compSet (dfs adj start compSet f) (adj !!! u)
                ({[u]} ∪ σ.1, u :: σ.2)) as [[b σ']|] eqn:Hrun; simpl.
    2:{ split; [|by intros r ?]. intros HR _. by destruct (Htot HR) as [? ?]. }
    destruct (Hpart _ eq_refl) as (Hs & Hin & Hinv' & Hb).
    simpl in *. destruct b; (split; [by eexists|]); intros r [= <-]; simpl.
    + split; [done|]. split; [done|]. split; [done|]. done.
    + destruct Hb as [Hst Hseen (Hnd' & Hsub' & Hchain') _ Hdone Hexp]. simpl in *.
      split; [set_solver|]. split; [done|]. rewrite Hst. simpl.
      split.
      { split; [done|]. simpl. split.
        - intros x Hx. apply Hsub'. rewrite Hst. set_solver.
        - apply (chainUp_tail adj (u :: σ.2)). by rewrite <- Hst. }
      split; [done|]. intros x Hx Hx0 w Hedge Hc. simpl in *.
      destruct (decide (x = u)) as [->|Hne].
      * destruct (Hdone w Hedge Hc) as [? Hs0]. split; [done|].
        intros [?|?]; [done|by apply Hs0].
      * destruct (Hexp x Hx Hx0 Hne w Hedge Hc). split; [done|]. done.
Qed.
End Dfs.

Lemma edge_row adj x w : edge adj x w → x < length adj.
Proof.
  unfold edge. intros Hw. destruct (decide (x < length adj)) as [|Hge]; [done|].
  rewrite list_lookup_total_alt, lookup_ge_None_2 in Hw by lia.
  by apply elem_of_nil in Hw.
Qed.

Section FindCycleFacts.
Variable adj : list (list nat).
Variable start : nat.
Variable compSet : gset nat.

Lemma dfsPre_root : dfsPre adj compSet (S (size compSet)) start (∅, []).
Proof.
  split; [split; simpl; [apply NoDup_nil_2|split; [by intros x ?%elem_of_nil|done]]|].
  split; [done|]. apply Nat.lt_succ_r, subseteq_size. set_solver.
Qed.

(** When [start] and every member of [compSet] have a row in [adj],
    [findCycleFrom] returns within a call stack of depth
    [S (size compSet)]. *)
Lemma findCycleFrom_total :
  start < length adj → (∀ x, x ∈ compSet → x < length adj) →
  ∃ r, findCycleFrom adj start compSet (S (size compSet)) = Some r.
Proof.
  intros Hs HR.
  destruct (proj1 (dfs_spec adj start compSet _ _ _ dfsPre_root) HR Hs) as [[b σ] Hrun].
  unfold findCycleFrom. rewrite Hrun. simpl. destruct b; by eexists.
Qed.

(** A cycle returned by [findCycleFrom] starts and ends at [start], does
    not repeat a node before its last element, has at least two distinct
    nodes, stays inside [compSet], and follows edges of the graph. *)
Lemma findCycleFrom_sound cyc :
  findCycleFrom adj start compSet (S (size compSet)) = Some (Some cyc) →
  ∃ path, cyc = start :: path ++ [start] ∧ path ≠ [] ∧ NoDup (start :: path) ∧
          (∀ x, x ∈ cyc → x ∈ compSet) ∧ isWalk adj cyc.
Proof.
  unfold findCycleFrom.
  destruct (dfs adj start compSet (S (size compSet)) start (∅, [])) as [[b σ]|] eqn:Hrun;
    [|done].
  destruct (proj2 (dfs_spec adj start compSet _ _ _ dfsPre_root) _ Hrun)
    as (_ & _ & (Hnd & _ & Hchain) & Hb).
  simpl. destruct b; [|done].
  intros [= <-]. simpl in *.
  destruct Hb as (ext & Hext & Hin & Hs & Hlen & top & Htop & Hedge).
  assert (isWalk adj (reverse σ.2 ++ [start])) as Hwalk.
  { apply chainUp_isWalk; [done|]. intros t Ht. by simplify_eq. }
  rewrite Hext in *. exists (reverse ext). rewrite reverse_app in *. simpl in *.
  split; [done|]. split.
  - destruct ext as [|e ext]; [simpl in Hlen; lia|]. rewrite reverse_cons.
    by destruct (reverse ext).
  - split; [|split; [|done]].
    + apply NoDup_app in Hnd as (Hnd1 & Hdisj & _).
      apply NoDup_cons. split.
      * rewrite elem_of_reverse. intros Hx. apply (Hdisj _ Hx). set_solver.
      * by rewrite reverse_Permutation.
    + intros x [->|[Hx| ->%list_elem_of_singleton]%elem_of_app]%elem_of_cons; [done| |done].
      apply Hin. by apply elem_of_reverse.
Qed.

Lemma reach_last_edge_ne P u z :
  reach adj P u z → u ≠ z →
  ∃ y, y ≠ z ∧ reach adj P u y ∧ edge adj y z.
Proof.
  induction 1 as [u Hu|u w z Hu He Hr IH]; [done|]. intros Hne.
  destruct (decide (w = z)) as [->|Hwz].
  - exists u. split; [done|]. split; [by apply reach_refl|done].
  - destruct (IH Hwz) as (y & Hyz & Hy & Hedge). exists y.
    split; [done|]. split; [|done]. by eapply reach_step.
Qed.

(** A search that returns has found a cycle as soon as some other node
    that [start] reaches inside [compSet] has an edge back to [start]. *)
Lemma findCycleFrom_finds u r :
  start ∈ compSet → u ≠ start →
  reach adj (λ x, x ∈ compSet) start u → edge adj u start →
  findCycleFrom adj start compSet (S (size compSet)) = Some r → is_Some r.
Proof.
  intros Hs Hne Hr Hback. unfold findCycleFrom.
  destruct (dfs adj start compSet (S (size compSet)) start (∅, [])) as [[b σ]|] eqn:Hrun;
    [|done].
  destruct (proj2 (dfs_spec adj start compSet _ _ _ dfsPre_root) _ Hrun)
    as (_ & Hin & _ & Hb).
  simpl. destruct b; [intros [= <-]; by eexists|]. exfalso.
  simpl in *. destruct Hb as [_ Hexp].
  assert (∀ a z, reach adj (λ x, x ∈ compSet) a z → a ∈ σ.1 → z ∈ σ.1) as Hclos.
  { induction 1 as [a Ha|a w z Ha He Hwz IH]; [done|]. intros Has. apply IH.
    apply (Hexp a Has ltac:(set_solver) w He).
    apply (reach_start adj (λ x, x ∈ compSet) w z Hwz). }
  assert (u ∈ σ.1) as Hu by by apply (Hclos start u).
  destruct (Hexp u Hu ltac:(set_solver) start Hback Hs) as [_ Hns].
  apply Hns; [by left|done].
Qed.

(** In a component of at least two mutually reachable nodes (each of
    which then has a row) the search from any member finds a cycle. *)
Lemma findCycleFrom_complete (comp : list nat) y :
  compSet = list_to_set comp → stronglyConnected adj comp →
  start ∈ comp → y ∈ comp → y ≠ start →
  ∃ cyc, findCycleFrom adj start compSet (S (size compSet)) = Some (Some cyc).
Proof.
  intros Hc Hsc Hs Hy Hne.
  assert (∀ x, x ∈ comp ↔ x ∈ compSet) as Hmem.
  { intros x. rewrite Hc. by rewrite elem_of_list_to_set. }
  assert (∀ x, x ∈ compSet → x < length adj) as HR.
  { intros x Hx%Hmem.
    assert (∃ z, z ∈ comp ∧ x ≠ z) as (z & Hz & Hxz).
    { destruct (decide (x = start)) as [->|?]; [by exists y|by exists start]. }
    destruct (Hsc x z Hx Hz) as [?|? w ? _ He _]; [done|]. by eapply edge_row. }
  destruct (findCycleFrom_total (HR start (proj1 (Hmem start) Hs)) HR) as [r Hrun].
  destruct (reach_last_edge_ne _ _ _ (Hsc y start Hy Hs) Hne) as (u & Hus & Hyu & Hedge).
  destruct (findCycleFrom_finds u r) as [cyc ->]; [by apply Hmem|done| |done|done|by exists cyc].
  eapply reach_mono; [|apply (Hsc start u Hs)].
  - intros x. apply Hmem.
  - apply (reach_end _ _ _ _ Hyu).
Qed.
End FindCycleFacts.

(** ** The index map and the adjacency build *)

Section StableSortFacts.
Context {A : Type} (cmp : A → A → Z).

Lemma sortInsert_Permutation x l : sortInsert cmp x l ≡ₚ x :: l.
Proof.
  induction l as [|y l IH]; simpl; [done|].
  destruct (cmp y x <? 0)%Z; [|done]. rewrite IH. apply Permutation_swap.
Qed.

Lemma arraySort_Permutation l : arraySort cmp l ≡ₚ l.
Proof.
  induction l as [|x l IH]; simpl; [done|].
  by rewrite sortInsert_Permutation, IH.
Qed.
End StableSortFacts.

Section IndexMap.
Lemma setIds_notin l i (idOf : gmap nat nat) m :
  m ∉ l → setIds l i idOf !! m = idOf !! m.
Proof.
  revert i idOf. induction l as [|m0 l IH]; intros i idOf Hm; simpl; [done|].
  apply not_elem_of_cons in Hm as [Hne Hm]. rewrite IH by done.
  by apply lookup_insert_ne.
Qed.

Lemma setIds_Some l i (idOf : gmap nat nat) m j :
  setIds l i idOf !! m = Some j →
  idOf !! m = Some j ∨ (i ≤ j ∧ l !! (j - i) = Some m).
Proof.
  revert i idOf. induction l as [|m0 l IH]; intros i idOf Hj; simpl in *; [by left|].
  apply IH in Hj as [Hj|[Hle Hj]].
  - destruct (decide (m0 = m)) as [->|Hne].
    + rewrite lookup_insert_eq in Hj. injection Hj as <-.
      right. split; [done|]. by rewrite Nat.sub_diag.
    + rewrite lookup_insert_ne in Hj by done. by left.
  - right. split; [lia|]. replace (j - i) with (S (j - S i)) by lia. done.
Qed.

Lemma setIds_NoDup l i (idOf : gmap nat nat) m p :
  NoDup l → l !! p = Some m → setIds l i idOf !! m = Some (i + p).
Proof.
  revert i idOf p. induction l as [|m0 l IH]; intros i idOf p Hnd Hp; [done|].
  apply NoDup_cons in Hnd as [Hm0 Hnd]. destruct p as [|p]; simpl in *.
  - injection Hp as ->. rewrite setIds_notin by done.
    rewrite lookup_insert_eq. f_equal. lia.
  - rewrite (IH _ _ p) by done. f_equal. lia.
Qed.

(** An index recorded for a module is a position of that module. *)
Lemma mkIdOf_Some modList m j : mkIdOf modList !! m = Some j → modList !! j = Some m.
Proof.
  intros [Hj|[_ Hj]]%setIds_Some; [by rewrite lookup_empty in Hj|].
  by rewrite Nat.sub_0_r in Hj.
Qed.

(** Without repeated modules the index map inverts the module list. *)
Lemma mkIdOf_NoDup modList m j :
  NoDup modList → modList !! j = Some m → mkIdOf modList !! m = Some j.
Proof. intros Hnd Hj. unfold mkIdOf. by rewrite (setIds_NoDup _ _ _ _ j). Qed.
End IndexMap.

Section Adjacency.
Variable heap : nat → Module.
Variable allowAsyncCycles : bool.
Variable modList : list nat.
Variable idOf : gmap nat nat.

Lemma pushDeps_spec i deps (adj : list (list nat)) :
  i < length adj →
  pushDeps idOf i deps adj = <[i := adj !!! i ++ omap (idOf !!.) deps]> adj.
Proof.
  revert adj. induction deps as [|dep deps IH]; intros adj Hi; simpl.
  - rewrite app_nil_r. symmetry. apply list_insert_id.
    by apply list_lookup_lookup_total_lt.
  - destruct (idOf !! dep) as [j|]; [|by apply IH].
    rewrite IH by (by rewrite length_insert).
    rewrite list_lookup_total_insert_eq by done.
    rewrite list_insert_insert_eq. by rewrite <- app_assoc.
Qed.

Lemma buildRows_length rows (adj : list (list nat)) :
  (∀ i, i ∈ rows → i < length adj) →
  length (buildRows heap allowAsyncCycles modList idOf rows adj) = length adj.
Proof.
  revert adj. induction rows as [|i rows IH]; intros adj Hrows; simpl; [done|].
  assert (i < length adj) by (apply Hrows; set_solver).
  destruct (modList !! i) as [m|].
  - rewrite IH; rewrite pushDeps_spec by done; rewrite length_insert; [done|].
    intros j Hj. apply Hrows. set_solver.
  - apply IH. intros j Hj. apply Hrows. set_solver.
Qed.

Lemma buildRows_lookup rows (adj : list (list nat)) i :
  NoDup rows → (∀ j, j ∈ rows → j < length adj) → i < length adj →
  buildRows heap allowAsyncCycles modList idOf rows adj !!! i =
  if decide (i ∈ rows) then
    adj !!! i ++ omap (idOf !!.)
      (from_option (getDeps heap allowAsyncCycles) [] (modList !! i))
  else adj !!! i.
Proof.
  revert adj. induction rows as [|r rows IH]; intros adj Hnd Hrows Hi; simpl; [done|].
  apply NoDup_cons in Hnd as [Hr Hnd].
  assert (r < length adj) by (apply Hrows; set_solver).
  assert (∀ j, j ∈ rows → j < length adj) as Hrows' by (intros; apply Hrows; set_solver).
  destruct (modList !! r) as [m|] eqn:Hm.
  - rewrite IH; [|done|by rewrite pushDeps_spec, length_insert|by rewrite pushDeps_spec, length_insert].
    rewrite pushDeps_spec by done.
    destruct (decide (i = r)) as [->|Hne].
    + rewrite decide_False by done. rewrite decide_True by set_solver.
      rewrite list_lookup_total_insert_eq by done. by rewrite Hm.
    + rewrite list_lookup_total_insert_ne by done.
      destruct (decide (i ∈ rows)); [rewrite decide_True by set_solver|rewrite decide_False by set_solver]; done.
  - rewrite IH by done.
    destruct (decide (i = r)) as [->|Hne].
    + rewrite decide_False by done. rewrite decide_True by set_solver.
      rewrite Hm. simpl. by rewrite app_nil_r.
    + destruct (decide (i ∈ rows)); [rewrite decide_True by set_solver|rewrite decide_False by set_solver]; done.
Qed.
End Adjacency.

Section BuiltGraph.
Variable heap : nat → Module.
Variable allowAsyncCycles : bool.
Variable modList : list nat.

Abbreviation adj := (buildAdjacencyList heap allowAsyncCycles modList (mkIdOf modList)).

Lemma buildAdjacencyList_length idOf :
  length (buildAdjacencyList heap allowAsyncCycles modList idOf) = length modList.
Proof.
  unfold buildAdjacencyList. rewrite buildRows_length; [by rewrite length_replicate|].
  intros i Hi%elem_of_seq. rewrite length_replicate. lia.
Qed.

(** Row [i] of the adjacency lists: one entry per surviving dependency
    of module [i] whose target is known to the index map, in order. *)
Lemma buildAdjacencyList_row idOf i :
  buildAdjacencyList heap allowAsyncCycles modList idOf !!! i =
  omap (idOf !!.) (from_option (getDeps heap allowAsyncCycles) [] (modList !! i)).
Proof.
  destruct (decide (i < length modList)) as [Hi|Hi].
  - unfold buildAdjacencyList. rewrite buildRows_lookup.
    + rewrite decide_True by (apply elem_of_seq; lia).
      by rewrite lookup_total_replicate_2.
    + apply NoDup_seq.
    + intros j Hj%elem_of_seq. rewrite length_replicate. lia.
    + by rewrite length_replicate.
  - rewrite list_lookup_total_alt. rewrite (lookup_ge_None_2 _ i).
    + rewrite (lookup_ge_None_2 modList i) by lia. done.
    + rewrite buildAdjacencyList_length. lia.
Qed.

Lemma getDeps_elem m dep :
  dep ∈ getDeps heap allowAsyncCycles m → dep ≠ m ∧ is_Some (resourceOf heap dep).
Proof.
  unfold getDeps. intros (d & _ & Hd)%list_elem_of_omap.
  destruct d as [d|]; simpl in Hd; [|done].
  destruct (dep_selfref d); [done|].
  destruct (allowAsyncCycles && weak d); [done|].
  destruct (dep_module d) as [dm|]; [|done].
  destruct (resourceOf heap dm) eqn:Hr; [|done].
  destruct (decide (dm = m)); [done|]. injection Hd as <-. by rewrite Hr.
Qed.

Lemma edge_built u w :
  edge adj u w →
  ∃ m dep, modList !! u = Some m ∧ dep ∈ getDeps heap allowAsyncCycles m ∧
           modList !! w = Some dep.
Proof.
  unfold edge. rewrite buildAdjacencyList_row.
  intros (dep & Hdep & Hw)%list_elem_of_omap.
  destruct (modList !! u) as [m|]; simpl in Hdep; [|by apply elem_of_nil in Hdep].
  exists m, dep. split; [done|]. split; [done|]. by apply mkIdOf_Some.
Qed.

(** Every adjacency entry is an index of the module list. *)
Lemma buildAdjacencyList_closed : closedGraph adj.
Proof.
  intros u w (m & dep & _ & _ & Hw)%edge_built.
  rewrite buildAdjacencyList_length. by eapply lookup_lt_Some.
Qed.

(** No index is its own neighbour. *)
Lemma buildAdjacencyList_irrefl i : ¬ edge adj i i.
Proof.
  intros (m & dep & Hm & Hdep & Hw)%edge_built.
  apply getDeps_elem in Hdep as [Hne _]. congruence.
Qed.
End BuiltGraph.

(** ** Classification of components *)

Section Classification.
Variable heap : nat → Module.
Variable modList : list nat.

Lemma anyMissing_true comp :
  anyMissing heap modList comp = true ↔
  ∃ c, c ∈ comp ∧ modList !! c ≫= resourceOf heap = None.
Proof.
  induction comp as [|c comp IH]; simpl.
  - split; [done|]. by intros (c & ?%elem_of_nil & _).
  - destruct (modList !! c ≫= resourceOf heap) eqn:Hc.
    + rewrite IH. split.
      * intros (c' & ? & ?). exists c'. split; [by right|done].
      * intros (c' & [->|?]%elem_of_cons & Hc'); [congruence|by exists c'].
    + split; [|done]. intros _. exists c. split; [by left|done].
Qed.

Lemma componentInvalid_true comp :
  componentInvalid heap modList comp = true ↔
  length comp ≤ 1 ∨ ∃ c, c ∈ comp ∧ modList !! c ≫= resourceOf heap = None.
Proof.
  unfold componentInvalid. destruct (Nat.leb_spec (length comp) 1) as [Hle|Hgt].
  - split; [by left|done].
  - rewrite anyMissing_true. split; [by right|]. intros [?|?]; [lia|done].
Qed.

Lemma componentInvalid_false comp :
  componentInvalid heap modList comp = false ↔
  1 < length comp ∧ ∀ c, c ∈ comp → is_Some (modList !! c ≫= resourceOf heap).
Proof.
  rewrite <- not_true_iff_false, componentInvalid_true. split.
  - intros Hn. split; [lia|]. intros c Hc.
    destruct (modList !! c ≫= resourceOf heap) eqn:Hr; [done|].
    destruct Hn. right. by exists c.
  - intros [Hlen Hall] [?|(c & Hc & Hr)]; [lia|].
    destruct (Hall c Hc) as [? ?]. congruence.
Qed.
End Classification.

(** C3: a component is classified invalid exactly when its size is at most
    1 or one of its members has no resource identifier; and whatever the
    dependency records are (self-references included), no index occurs in
    its own adjacency list, so a module depending on itself still forms a
    component of size 1 and is never classified cyclic. *)
Theorem C3_classification (heap : nat → Module) (allowAsyncCycles : bool)
    (modules : list (option nat)) (comp : list nat) :
  let modList := createSortedModuleList heap modules in
  let adj := buildAdjacencyList heap allowAsyncCycles modList (mkIdOf modList) in
  (componentInvalid heap modList comp = true ↔
     length comp ≤ 1 ∨ ∃ c, c ∈ comp ∧ modList !! c ≫= resourceOf heap = None) ∧
  (∀ i, componentInvalid heap modList [i] = true) ∧
  (∀ i, i ∉ adj !!! i).
Proof.
  intros modList adj. split; [apply componentInvalid_true|]. split; [done|].
  intros i. apply buildAdjacencyList_irrefl.
Qed.

(** ** The components computed by Tarjan's algorithm *)

Lemma closedGraphb_correct adj : closedGraphb adj = true → closedGraph adj.
Proof.
unfold closedGraphb, closedGraph, edge. intros Hb u w Hw.
destruct (adj !! u) as [row|] eqn:Hu.
- rewrite (lookup_total_Some _ _ _ Hu) in Hw.
  rewrite forallb_forall in Hb. apply list_elem_of_lookup_2, list_elem_of_In in Hu.
  specialize (Hb _ Hu). rewrite forallb_forall in Hb.
  apply list_elem_of_In in Hw. specialize (Hb _ Hw). by apply Nat.ltb_lt in Hb.
- rewrite list_lookup_total_alt, Hu in Hw. simpl in Hw. by apply elem_of_nil in Hw.
Qed.

Lemma NoDup_concat_elem {A} (ls : list (list A)) l :
  NoDup (concat ls) → l ∈ ls → NoDup l.
Proof.
induction ls as [|l0 ls IH]; simpl; [by intros _ ?%elem_of_nil|].
intros (Hl0 & _ & Hls)%NoDup_app [->|Hl]%elem_of_cons; [done|by apply IH].
Qed.

Section Components.
Variable adj : list (list nat).
Variable t : tarjan.
Hypothesis Hok : tarjanOK adj t.
Hypothesis Hall : ∀ v, v < length adj → v ∈ concat (sccs t).

Lemma comp_NoDup comp : comp ∈ sccs t → NoDup comp.
Proof.
intros Hc. pose proof (wf_nodup _ _ (ok_wf _ _ Hok)) as Hnd.
rewrite (ok_stack _ _ Hok) in Hnd. by eapply NoDup_concat_elem.
Qed.

Lemma comp_bound comp x : comp ∈ sccs t → x ∈ comp → x < length adj.
Proof.
intros Hc Hx. apply (wf_bound _ _ (ok_wf _ _ Hok)). rewrite (ok_stack _ _ Hok).
apply elem_of_concat. by exists comp.
Qed.

Lemma comp_index_unique k1 k2 c1 c2 x :
  sccs t !! k1 = Some c1 → sccs t !! k2 = Some c2 → x ∈ c1 → x ∈ c2 → k1 = k2.
Proof.
intros H1 H2 Hx1 Hx2.
pose proof (wf_sccId_in _ _ (ok_wf _ _ Hok) _ _ _ H1 Hx1).
pose proof (wf_sccId_in _ _ (ok_wf _ _ Hok) _ _ _ H2 Hx2). lia.
Qed.

(** Every node lies in a component, recorded in [sccId]. *)
Lemma comp_of v :
  v < length adj →
  ∃ k comp, sccs t !! k = Some comp ∧ v ∈ comp ∧ sccId t !!! v = Z.of_nat k.
Proof.
intros Hv. apply Hall, elem_of_concat in Hv as (comp & Hc & Hv).
apply list_elem_of_lookup in Hc as [k Hk]. exists k, comp.
split; [done|]. split; [done|]. by eapply (wf_sccId_in _ _ (ok_wf _ _ Hok)).
Qed.

(** The components list every node exactly once. *)
Lemma concat_sccs_Permutation : concat (sccs t) ≡ₚ seq 0 (length adj).
Proof.
apply NoDup_Permutation.
- pose proof (wf_nodup _ _ (ok_wf _ _ Hok)) as Hnd. by rewrite (ok_stack _ _ Hok) in Hnd.
- apply NoDup_seq.
- intros v. rewrite elem_of_seq. split.
  + intros Hv. split; [lia|]. simpl. apply (wf_bound _ _ (ok_wf _ _ Hok)).
    by rewrite (ok_stack _ _ Hok).
  + intros [_ Hv]. by apply Hall.
Qed.

(** Paths never leave the components closed up to a given one. *)
Lemma reach_closed_prefix k comp x y :
  sccs t !! k = Some comp → x ∈ comp → reach adj (λ _, True) x y →
  ∃ j comp', j ≤ k ∧ sccs t !! j = Some comp' ∧ y ∈ comp'.
Proof.
intros Hk Hx Hr. revert k comp Hk Hx.
induction Hr as [u _|u w z _ He Hr IH]; intros k comp Hk Hx.
- by exists k, comp.
- destruct (ok_closed _ _ Hok k comp u w Hk Hx He) as (j & comp' & Hj & Hj' & Hw).
  destruct (IH j comp' Hj' Hw) as (j' & comp'' & ? & ? & ?).
  exists j', comp''. split; [lia|done].
Qed.

(** A component contains every node mutually reachable with a member. *)
Lemma comp_maximal comp x y :
  comp ∈ sccs t → x ∈ comp → mutuallyReachable adj x y → y ∈ comp.
Proof.
intros [k Hk]%list_elem_of_lookup Hx [Hxy Hyx].
destruct (reach_closed_prefix k comp x y Hk Hx Hxy) as (j & comp' & Hj & Hj' & Hy).
destruct (reach_closed_prefix j comp' y x Hj' Hy Hyx) as (i & comp'' & Hi & Hi' & Hx').
assert (i = k) as -> by by eapply comp_index_unique.
assert (j = k) as -> by lia. congruence.
Qed.

(** A component is exactly the class of mutual reachability of any of
    its members. *)
Lemma comp_members comp x y :
  comp ∈ sccs t → x ∈ comp → (y ∈ comp ↔ mutuallyReachable adj x y).
Proof.
intros Hc Hx. split; [|by apply comp_maximal].
intros Hy. split; (eapply reach_mono; [|by apply (ok_comps _ _ Hok comp Hc)]); done.
Qed.
End Components.

(** C2: for every graph over the indices [0..N-1] the components returned by
    the strongly-connected-components computation list every index exactly
    once: their concatenation is a rearrangement of [0..N-1], and every
    index belongs to exactly one component. *)
Theorem C2_partition (adj : list (list nat)) :
  closedGraph adj →
  ∃ t, tarjanRun adj (length adj) = Some t ∧
       concat (sccs t) ≡ₚ seq 0 (length adj) ∧
       ∀ v, v < length adj →
         ∃ k comp, sccs t !! k = Some comp ∧ v ∈ comp ∧
                   ∀ k' comp', sccs t !! k' = Some comp' → v ∈ comp' → k' = k.
Proof.
intros Hclosed. destruct (tarjanRun_spec adj Hclosed) as (t & Hrun & Hok & Hall).
exists t. split; [done|]. split; [by apply concat_sccs_Permutation|].
intros v Hv. destruct (comp_of adj t Hok Hall v Hv) as (k & comp & Hk & Hin & _).
exists k, comp. split; [done|]. split; [done|].
intros k' comp' Hk' Hin'. by eapply (comp_index_unique adj t Hok).
Qed.

Lemma C2_partition_witness :
  closedGraph [[1]; [2]; [0]; [2]] ∧
  ∃ t, tarjanRun [[1]; [2]; [0]; [2]] 4 = Some t ∧
       concat (sccs t) ≡ₚ seq 0 4 ∧
       ∀ v, v < 4 →
         ∃ k comp, sccs t !! k = Some comp ∧ v ∈ comp ∧
                   ∀ k' comp', sccs t !! k' = Some comp' → v ∈ comp' → k' = k.
Proof.
split; [by apply closedGraphb_correct|].
apply (C2_partition [[1]; [2]; [0]; [2]]). by apply closedGraphb_correct.
Defined.

(** ** The reporting loop *)

Lemma cycleOrFallback_total adj i (compSet : gset nat) :
  i < length adj → (∀ x, x ∈ compSet → x < length adj) →
  is_Some (cycleOrFallback adj i compSet).
Proof.
intros Hi HR. unfold cycleOrFallback.
destruct (findCycleFrom_total adj i compSet Hi HR) as [r ->].
simpl. by destruct r.
Qed.

Lemma lookup_total_elem (l : list (list nat)) n x :
  x ∈ l !!! n → ∃ c, c ∈ l ∧ x ∈ c.
Proof.
destruct (l !! n) as [c|] eqn:Hn.
- rewrite (lookup_total_Some _ _ _ Hn). intros Hx. exists c.
  split; [by eapply list_elem_of_lookup_2|done].
- rewrite list_lookup_total_alt, Hn. by intros ?%elem_of_nil.
Qed.

Lemma NoDup_other (l : list nat) x :
  NoDup l → 1 < length l → ∃ y, y ∈ l ∧ y ≠ x.
Proof.
intros Hnd Hlen. destruct l as [|a [|b l]]; simpl in Hlen; [lia|lia|].
destruct (decide (a = x)) as [->|Hne].
- exists b. split; [set_solver|]. intros ->.
  apply NoDup_cons in Hnd as [Hnd _]. apply Hnd. by left.
- exists a. split; [by left|done].
Qed.

Lemma filter_omap_unique {X} (f : nat → option (nat * X)) (l : list nat) i m js :
  (∀ j m' c, f j = Some (m', c) → l !! j = Some m') →
  l !! i = Some m → (∀ j, l !! j = Some m → j = i) → NoDup js →
  filter (λ r, r.1 = m) (omap f js) =
  if decide (i ∈ js) then option_list (f i) else [].
Proof.
intros Hf Hli Hi. induction js as [|j js IH]; intros Hnd; [done|].
apply NoDup_cons in Hnd as [Hj Hnd]. specialize (IH Hnd).
change (omap f (j :: js)) with (match f j with Some y => y :: omap f js | None => omap f js end).
destruct (decide (i = j)) as [<-|Hne].
- rewrite decide_True by set_solver. rewrite decide_False in IH by done.
  destruct (f i) as [[m' c]|] eqn:Hs; simpl; [|done].
  destruct (decide (m' = m)) as [->|Hm'].
  + rewrite filter_cons_True by done. by rewrite IH.
  + exfalso. pose proof (Hf _ _ _ Hs) as Hl. congruence.
- destruct (f j) as [[m' c]|] eqn:Hs.
  + rewrite filter_cons_False.
    * rewrite IH. destruct (decide (i ∈ js)); [by rewrite decide_True by set_solver|by rewrite decide_False by set_solver].
    * simpl. intros ->. apply Hne. symmetry. apply Hi. by eapply Hf.
  + rewrite IH. destruct (decide (i ∈ js)); [by rewrite decide_True by set_solver|by rewrite decide_False by set_solver].
Qed.

Section ReportLoop.
Context {Σ E : Type}.
Variable exclude include : string → bool.
Variable relative : string → string.
Variable failOnError : bool.
Variable onDetected : option (Detected → Σ → Σ * option E).
Variable heap : nat → Module.
Variable modList : list nat.
Variable idOf : gmap nat nat.
Variable adj : list (list nat).
Variable t : tarjan.
Hypothesis Hid : ∀ m i, idOf !! m = Some i → i < length adj.
Hypothesis Hcomps : ∀ comp x, comp ∈ sccs t → x ∈ comp → x < length adj.

(** Every index the loop hands to the search, and every member of the
    component searched, has a row: the iteration completes. *)
Lemma selectCycle_total mIdx :
  is_Some (selectCycle exclude include heap modList idOf adj t mIdx).
Proof.
unfold selectCycle. destruct (modList !! mIdx) as [m|]; [|done].
destruct (idOf !! m) as [i|] eqn:Hi; [|done].
destruct (decide _); [done|]. destruct (resourceOf heap m) as [r|]; [|done].
destruct (exclude r); [done|]. destruct (negb (include r)); [done|].
destruct (cycleOrFallback_total adj i (list_to_set (sccs t !!! Z.to_nat (sccId t !!! i))))
  as [[c|] ->]; [by eapply Hid| |done..].
intros x (c & Hc & Hx)%elem_of_list_to_set%lookup_total_elem. by eapply Hcomps.
Qed.

(** The loop emits the selected pairs one after the other. *)
Lemma reportLoop_fold mIdxs (h : Host Σ E) :
  reportLoop exclude include relative failOnError onDetected heap modList idOf adj t mIdxs h =
  Some (foldl (emitReport relative failOnError onDetected heap modList) h
              (selected exclude include heap modList idOf adj t mIdxs)).
Proof.
revert h. induction mIdxs as [|mIdx mIdxs IH]; intros h; [done|].
unfold selected in *. simpl.
destruct (selectCycle_total mIdx) as [[[m cyc]|] ->]; simpl; by rewrite IH.
Qed.
End ReportLoop.

Section Selection.
Variable exclude include : string → bool.
Variable heap : nat → Module.
Variable allowAsyncCycles : bool.
Variable modList : list nat.
Variable t : tarjan.
Hypothesis Hnd : NoDup modList.

Abbreviation idOf := (mkIdOf modList).
Abbreviation adj := (buildAdjacencyList heap allowAsyncCycles modList idOf).

Hypothesis Hok : tarjanOK adj t.
Hypothesis Hall : ∀ v, v < length adj → v ∈ concat (sccs t).

(** The search from a member of a cyclic component always succeeds, and
    its result is a simple cycle inside the component. *)
Lemma valid_cycle comp i :
  comp ∈ sccs t → componentInvalid heap modList comp = false → i ∈ comp →
  ∃ cyc, findCycleFrom adj i (list_to_set comp) (S (size (list_to_set comp : gset nat)))
           = Some (Some cyc) ∧
         cycleOrFallback adj i (list_to_set comp) = Some (Some cyc) ∧
         simpleCycle adj i comp cyc.
Proof.
intros Hc [Hlen _]%componentInvalid_false Hi.
destruct (NoDup_other comp i (comp_NoDup adj t Hok comp Hc) Hlen) as (y & Hy & Hne).
destruct (findCycleFrom_complete adj i (list_to_set comp) comp y eq_refl
            (ok_comps _ _ Hok comp Hc) Hi Hy Hne) as [cyc Hcyc].
exists cyc. split; [done|]. split; [unfold cycleOrFallback; by rewrite Hcyc|].
destruct (findCycleFrom_sound _ _ _ _ Hcyc) as (path & -> & Hp & Hndp & Hin & Hwalk).
exists path. split; [done|]. split; [done|]. split; [done|]. split; [|done].
intros x Hx. apply Hin in Hx. by apply elem_of_list_to_set in Hx.
Qed.

(** The iteration for index [i], whose module is [m] and whose component
    is [comp]. *)
Lemma selectCycle_char i m comp :
  modList !! i = Some m → comp ∈ sccs t → i ∈ comp →
  selectCycle exclude include heap modList idOf adj t i =
  if componentInvalid heap modList comp then Some None
  else match resourceOf heap m with
       | None => Some None
       | Some r =>
         if exclude r then Some None
         else if negb (include r) then Some None
         else match cycleOrFallback adj i (list_to_set comp) with
              | None => None
              | Some None => Some None
              | Some (Some cyc) => Some (Some (m, cyc))
              end
       end.
Proof.
intros Hm [k Hk]%list_elem_of_lookup Hi. unfold selectCycle.
rewrite Hm, (mkIdOf_NoDup _ _ _ Hnd Hm).
rewrite (wf_sccId_in _ _ (ok_wf _ _ Hok) k comp i Hk Hi).
rewrite Nat2Z.id. unfold sccInvalid. rewrite list_lookup_fmap, Hk. simpl.
rewrite (lookup_total_Some _ _ _ Hk).
destruct (componentInvalid heap modList comp).
- rewrite decide_True; [done|by right].
- rewrite decide_False; [done|]. intros [?|?]; [lia|done].
Qed.

Lemma selected_unique i m (mIdxs : list nat) :
  modList !! i = Some m → NoDup mIdxs →
  filter (λ r, r.1 = m) (selected exclude include heap modList idOf adj t mIdxs) =
  if decide (i ∈ mIdxs)
  then option_list (mjoin (selectCycle exclude include heap modList idOf adj t i))
  else [].
Proof.
intros Hm Hndj. unfold selected.
apply (filter_omap_unique
         (λ mIdx, mjoin (selectCycle exclude include heap modList idOf adj t mIdx))
         modList i m mIdxs); [|done| |done].
- intros j m' c Hs. unfold selectCycle in Hs.
  repeat case_match; simplify_eq/=; done.
- intros j Hj. apply (NoDup_lookup modList j i m Hnd Hj Hm).
Qed.
End Selection.

(** ** The pass as a whole *)

Section PassFacts.
Context {Σ E : Type}.
Variable exclude include : string → bool.
Variable relative : string → string.
Variable failOnError : bool.
Variable onDetected : option (Detected → Σ → Σ * option E).
Variable heap : nat → Module.
Variable allowAsyncCycles : bool.
Variable modules : list (option nat).

Lemma createSortedModuleList_NoDup :
  NoDup (omap id modules) → NoDup (createSortedModuleList heap modules).
Proof. unfold createSortedModuleList. by rewrite arraySort_Permutation. Qed.

(** The pass completes, and emits the selected pairs in order. *)
Lemma detect_reports (h : Host Σ E) :
  detect exclude include relative failOnError onDetected heap allowAsyncCycles modules h =
  Some (foldl (emitReport relative failOnError onDetected heap
                 (createSortedModuleList heap modules)) h
              (reportsJs exclude include heap allowAsyncCycles modules)).
Proof.
unfold detect, reportsJs.
destruct (tarjanRun_spec _ (buildAdjacencyList_closed heap allowAsyncCycles
            (createSortedModuleList heap modules))) as (t & -> & Hok & _).
simpl. apply reportLoop_fold.
- intros m i Hi%mkIdOf_Some. rewrite buildAdjacencyList_length. by eapply lookup_lt_Some.
- intros comp x Hc Hx. by eapply (comp_bound _ t Hok).
Qed.
End PassFacts.

(** C1: when no module is supplied twice, the pass completes and emits the
    selected reports one after the other; for every cyclic (valid)
    component and every member whose resource identifier passes the include
    pattern and does not match the exclude pattern, exactly one report is
    emitted for that member, and its cycle starts and ends at the member,
    repeats no other index, stays inside the component, and follows edges
    of the graph. *)
Theorem C1_one_cycle_per_member {Σ E : Type} (exclude include : string → bool)
    (relative : string → string) (failOnError : bool)
    (onDetected : option (Detected → Σ → Σ * option E))
    (heap : nat → Module) (allowAsyncCycles : bool)
    (modules : list (option nat)) (h : Host Σ E) :
  NoDup (omap id modules) →
  let modList := createSortedModuleList heap modules in
  let adj := buildAdjacencyList heap allowAsyncCycles modList (mkIdOf modList) in
  let reports := reportsJs exclude include heap allowAsyncCycles modules in
  detect exclude include relative failOnError onDetected heap allowAsyncCycles modules h =
    Some (foldl (emitReport relative failOnError onDetected heap modList) h reports) ∧
  ∃ t, tarjanRun adj (length adj) = Some t ∧
    ∀ comp i m r,
      comp ∈ sccs t → componentInvalid heap modList comp = false → i ∈ comp →
      modList !! i = Some m → resourceOf heap m = Some r →
      exclude r = false → include r = true →
      ∃ cyc, filter (λ x, x.1 = m) reports = [(m, cyc)] ∧ simpleCycle adj i comp cyc.
Proof.
intros Hnd modList adj reports. split; [apply detect_reports|].
pose proof (createSortedModuleList_NoDup heap modules Hnd) as Hndl.
destruct (tarjanRun_spec adj (buildAdjacencyList_closed heap allowAsyncCycles modList))
  as (t & Hrun & Hok & Hall).
exists t. split; [done|]. intros comp i m r Hc Hvalid Hi Hm Hr Hex Hin.
destruct (valid_cycle heap allowAsyncCycles modList t Hok comp i Hc Hvalid Hi)
  as (cyc & _ & Hcyc & Hsimple).
exists cyc. split; [|done].
unfold reports, reportsJs. fold modList. fold adj. rewrite Hrun.
rewrite (selected_unique exclude include heap allowAsyncCycles modList t Hndl i m) by (done || apply NoDup_seq).
rewrite decide_True.
- rewrite (selectCycle_char exclude include heap allowAsyncCycles modList t Hndl Hok i m comp) by done.
  rewrite Hvalid, Hr, Hex, Hin. simpl. by rewrite Hcyc.
- apply elem_of_seq. apply lookup_lt_Some in Hm. lia.
Qed.

Lemma C1_one_cycle_per_member_witness :
  NoDup (omap id pairModules) ∧
  let modList := createSortedModuleList pairHeap pairModules in
  let adj := buildAdjacencyList pairHeap false modList (mkIdOf modList) in
  let reports := reportsJs (λ _, false) (λ _, true) pairHeap false pairModules in
  detect (λ _, false) (λ _, true) (λ p, p) false None pairHeap false pairModules emptyHost =
    Some (foldl (emitReport (λ p, p) false None pairHeap modList) emptyHost reports) ∧
  ∃ t, tarjanRun adj (length adj) = Some t ∧
    ∀ comp i m r,
      comp ∈ sccs t → componentInvalid pairHeap modList comp = false → i ∈ comp →
      modList !! i = Some m → resourceOf pairHeap m = Some r →
      (λ _ : string, false) r = false → (λ _ : string, true) r = true →
      ∃ cyc, filter (λ x, x.1 = m) reports = [(m, cyc)] ∧ simpleCycle adj i comp cyc.
Proof.
split; [apply (bool_decide_unpack _); by vm_compute|].
apply (C1_one_cycle_per_member (λ _, false) (λ _, true) (λ p, p) false None
         pairHeap false pairModules emptyHost).
apply (bool_decide_unpack _). by vm_compute.
Defined.

(** C8: in a component of at least two nodes that are mutually reachable
    along edges inside the component, the depth-first search from any
    member returns a simple cycle of edges through it, so neither the two-node
    fallback nor the skip is reached: the cycle kept is the one found by
    the search. *)
Theorem C8_search_finds_cycle (adj : list (list nat)) (compSet : gset nat) (start : nat) :
  (∀ x y, x ∈ compSet → y ∈ compSet → reach adj (λ u, u ∈ compSet) x y) →
  2 ≤ size compSet → start ∈ compSet →
  ∃ cyc, findCycleFrom adj start compSet (S (size compSet)) = Some (Some cyc) ∧
         cycleOrFallback adj start compSet = Some (Some cyc) ∧
         simpleCycle adj start (elements compSet) cyc.
Proof.
intros Hsc Hsize Hstart.
assert (∃ y, y ∈ compSet ∧ y ≠ start) as (y & Hy & Hne).
{ destruct (NoDup_other (elements compSet) start) as (y & Hy%elem_of_elements & Hne).
  - apply NoDup_elements.
  - unfold size, set_size in Hsize. simpl in Hsize. lia.
  - by exists y. }
destruct (findCycleFrom_complete adj start compSet (elements compSet) y) as [cyc Hcyc].
- by rewrite list_to_set_elements_L.
- intros u v Hu%elem_of_elements Hv%elem_of_elements.
  eapply reach_mono; [|by apply Hsc]. simpl. intros w Hw. by apply elem_of_elements.
- by apply elem_of_elements.
- by apply elem_of_elements.
- done.
- exists cyc. split; [done|]. split; [unfold cycleOrFallback; by rewrite Hcyc|].
  destruct (findCycleFrom_sound _ _ _ _ Hcyc) as (path & -> & Hp & Hnd & Hin & Hwalk).
  exists path. split; [done|]. split; [done|]. split; [done|]. split; [|done].
  intros x Hx. by apply elem_of_elements, Hin.
Qed.

Lemma C8_search_finds_cycle_witness :
  (∀ x y, x ∈ ({[0; 1]} : gset nat) → y ∈ ({[0; 1]} : gset nat) →
          reach [[1]; [0]] (λ u, u ∈ ({[0; 1]} : gset nat)) x y) ∧
  2 ≤ size ({[0; 1]} : gset nat) ∧ 0 ∈ ({[0; 1]} : gset nat) ∧
  ∃ cyc, findCycleFrom [[1]; [0]] 0 {[0; 1]} (S (size ({[0; 1]} : gset nat))) = Some (Some cyc) ∧
         cycleOrFallback [[1]; [0]] 0 {[0; 1]} = Some (Some cyc) ∧
         simpleCycle [[1]; [0]] 0 (elements ({[0; 1]} : gset nat)) cyc.
Proof.
assert (∀ x y, x ∈ ({[0; 1]} : gset nat) → y ∈ ({[0; 1]} : gset nat) →
               reach [[1]; [0]] (λ u, u ∈ ({[0; 1]} : gset nat)) x y) as Hsc.
{ assert (edge [[1]; [0]] 0 1) as H01 by (unfold edge; simpl; set_solver).
  assert (edge [[1]; [0]] 1 0) as H10 by (unfold edge; simpl; set_solver).
  intros x y [->%elem_of_singleton| ->%elem_of_singleton]%elem_of_union
             [->%elem_of_singleton| ->%elem_of_singleton]%elem_of_union.
  - apply reach_refl. set_solver.
  - apply reach_edge; [set_solver|set_solver|done].
  - apply reach_edge; [set_solver|set_solver|done].
  - apply reach_refl. set_solver. }
assert (2 ≤ size ({[0; 1]} : gset nat)) as Hsize.
{ rewrite size_union by set_solver. rewrite !size_singleton. lia. }
assert (0 ∈ ({[0; 1]} : gset nat)) as Hin by set_solver.
split; [done|]. split; [done|]. split; [done|].
exact (C8_search_finds_cycle [[1]; [0]] {[0; 1]} 0 Hsc Hsize Hin).
Defined.

(** ** Filters and the collaborator *)

Lemma omap_cons_app {A B} (f : A → option B) j js :
  omap f (j :: js) = option_list (f j) ++ omap f js.
Proof.
change (omap f (j :: js)) with (match f j with Some y => y :: omap f js | None => omap f js end).
by destruct (f j).
Qed.

Lemma filter_omap_ext {A B} (P : B → Prop) `{!∀ x, Decision (P x)}
    (f g : A → option B) (js : list A) :
  (∀ j, j ∈ js → filter P (option_list (f j)) = filter P (option_list (g j))) →
  filter P (omap f js) = filter P (omap g js).
Proof.
induction js as [|j js IH]; intros Hfg; [done|].
rewrite !omap_cons_app, !filter_app. rewrite Hfg by set_solver. rewrite IH; [done|].
intros j' Hj'. apply Hfg. set_solver.
Qed.

(** The iteration for a module consults the filters at that module's own
    resource only. *)
Lemma selectCycle_agree (exclude include exclude' include' : string → bool)
    heap modList idOf adj t mIdx m :
  modList !! mIdx = Some m →
  (∀ r, resourceOf heap m = Some r → exclude r = exclude' r ∧ include r = include' r) →
  selectCycle exclude include heap modList idOf adj t mIdx =
  selectCycle exclude' include' heap modList idOf adj t mIdx.
Proof.
intros Hm Hagree. unfold selectCycle. rewrite Hm.
destruct (idOf !! m); [|done]. destruct (decide _); [done|].
destruct (resourceOf heap m) as [r|]; [|done].
destruct (Hagree r eq_refl) as [-> ->]. done.
Qed.

Lemma selectCycle_module (exclude include : string → bool)
    heap modList idOf adj t mIdx m cyc :
  selectCycle exclude include heap modList idOf adj t mIdx = Some (Some (m, cyc)) →
  modList !! mIdx = Some m.
Proof. unfold selectCycle. intros Hs. repeat case_match; simplify_eq/=; done. Qed.

(** C6: the include and exclude patterns are applied to the start module
    only: for a module whose own resource identifier passes both filters,
    the reports emitted for it are exactly those emitted when nothing is
    filtered at all, whatever the patterns say about the other modules,
    those on its cycle included. *)
Theorem C6_filters_on_start_only (exclude include : string → bool)
    (heap : nat → Module) (allowAsyncCycles : bool)
    (modules : list (option nat)) (m : nat) (r : string) :
  resourceOf heap m = Some r → exclude r = false → include r = true →
  filter (λ x, x.1 = m) (reportsJs exclude include heap allowAsyncCycles modules) =
  filter (λ x, x.1 = m) (reportsJs (λ _, false) (λ _, true) heap allowAsyncCycles modules).
Proof.
intros Hr Hex Hin. unfold reportsJs.
destruct (tarjanRun _ _) as [t|]; [|done]. unfold selected.
apply filter_omap_ext. intros j _.
set (modList := createSortedModuleList heap modules).
destruct (modList !! j) as [m'|] eqn:Hj.
- destruct (decide (m' = m)) as [->|Hne].
  + f_equal. f_equal. f_equal. apply (selectCycle_agree _ _ _ _ _ _ _ _ _ _ m Hj).
    intros r' Hr'. rewrite Hr in Hr'. injection Hr' as <-. by rewrite Hex, Hin.
  + assert (∀ ex inc, filter (λ x : nat * list nat, x.1 = m)
              (option_list (mjoin (selectCycle ex inc heap modList (mkIdOf modList)
                 (buildAdjacencyList heap allowAsyncCycles modList (mkIdOf modList)) t j))) = []) as Hnil.
    { intros ex inc.
      destruct (selectCycle ex inc heap modList _ _ t j) as [[[m'' c]|]|] eqn:Hs; [|done..].
      apply selectCycle_module in Hs. simpl. rewrite filter_cons_False; [done|].
      simpl. congruence. }
    by rewrite !Hnil.
- unfold selectCycle. by rewrite Hj.
Qed.

Lemma C6_filters_on_start_only_witness :
  resourceOf pairHeap 10 = Some "a.js"%string ∧
  String.eqb "b.js" "a.js" = false ∧ (λ _ : string, true) "a.js"%string = true ∧
  filter (λ x, x.1 = 10) (reportsJs (String.eqb "b.js") (λ _, true) pairHeap false pairModules) =
  filter (λ x, x.1 = 10) (reportsJs (λ _, false) (λ _, true) pairHeap false pairModules).
Proof.
split; [reflexivity|]. split; [reflexivity|]. split; [reflexivity|].
apply (C6_filters_on_start_only (String.eqb "b.js") (λ _, true) pairHeap false
         pairModules 10 "a.js"); reflexivity.
Defined.

(** With [b.js] excluded, [a.js] is still reported, on a cycle through the
    index of [b.js]; [b.js] itself gets no report. *)
Example excluded_interior_node :
  reportsJs (String.eqb "b.js") (λ _, true) pairHeap false pairModules = [(10, [0; 1; 0])].
Proof. by vm_compute. Qed.

Lemma emitReport_callback {Σ E : Type} (relative : string → string) (failOnError : bool)
    (cb : Detected → Σ → Σ * option E) heap modList r (h : Host Σ E) :
  let arg := detectedOf relative heap modList r in
  let h' := emitReport relative failOnError (Some cb) heap modList h r in
  calls h' = calls h ++ [arg] ∧
  errors h' = errors h ++ (Thrown <$> option_list (cb arg (cbState h)).2) ∧
  warnings h' = warnings h ∧
  cbState h' = (cb arg (cbState h)).1.
Proof.
unfold emitReport, emit. fold (detectedOf relative heap modList r). simpl.
destruct (cb (detectedOf relative heap modList r) (cbState h)) as [σ' [e|]]; simpl;
  by rewrite ?app_nil_r.
Qed.

Lemma runCallback_cons {Σ E : Type} (cb : Detected → Σ → Σ * option E) arg args σ :
  runCallback cb (arg :: args) σ =
  ((runCallback cb args (cb arg σ).1).1,
   option_list (cb arg σ).2 ++ (runCallback cb args (cb arg σ).1).2).
Proof.
simpl. destruct (cb arg σ) as [σ' thrown]. simpl.
destruct (runCallback cb args σ') as [σ'' errs]. by destruct thrown.
Qed.

Lemma foldl_emit_callback {Σ E : Type} (relative : string → string) (failOnError : bool)
    (cb : Detected → Σ → Σ * option E) heap modList reports (h : Host Σ E) :
  let args := detectedOf relative heap modList <$> reports in
  let h' := foldl (emitReport relative failOnError (Some cb) heap modList) h reports in
  calls h' = calls h ++ args ∧
  errors h' = errors h ++ (Thrown <$> (runCallback cb args (cbState h)).2) ∧
  warnings h' = warnings h ∧
  cbState h' = (runCallback cb args (cbState h)).1.
Proof.
revert h. induction reports as [|r reports IH]; intros h.
- simpl. by rewrite !app_nil_r.
- destruct (IH (emitReport relative failOnError (Some cb) heap modList h r))
    as (Hc & He & Hw & Hs).
  destruct (emitReport_callback relative failOnError cb heap modList r h)
    as (Hc1 & He1 & Hw1 & Hs1).
  cbn zeta in *. rewrite fmap_cons, runCallback_cons.
  change (foldl ?f h (r :: reports)) with (foldl f (f h r) reports).
  rewrite Hc, He, Hw, Hs, Hc1, He1, Hw1, Hs1. cbn [fst snd].
  rewrite fmap_app, <- !app_assoc. done.
Qed.

(** C7: when [onDetected] is supplied, whatever it throws is caught and
    pushed onto the errors of the compilation, and the loop goes on: the
    collaborator is called once for every selected report, in order, and
    the reports selected do not depend on what the collaborator does. *)
Theorem C7_callback_errors_caught {Σ E : Type} (exclude include : string → bool)
    (relative : string → string) (failOnError : bool)
    (cb : Detected → Σ → Σ * option E)
    (heap : nat → Module) (allowAsyncCycles : bool)
    (modules : list (option nat)) (h : Host Σ E) :
  let modList := createSortedModuleList heap modules in
  let args := detectedOf relative heap modList <$>
              reportsJs exclude include heap allowAsyncCycles modules in
  ∃ h', detect exclude include relative failOnError (Some cb) heap allowAsyncCycles modules h
          = Some h' ∧
        calls h' = calls h ++ args ∧
        errors h' = errors h ++ (Thrown <$> (runCallback cb args (cbState h)).2) ∧
        warnings h' = warnings h ∧
        cbState h' = (runCallback cb args (cbState h)).1.
Proof.
intros modList args. eexists. split; [apply detect_reports|].
apply foldl_emit_callback.
Qed.

(** A collaborator that throws on every call: both modules of the pair are
    still handed off, and both thrown values end up among the errors. *)
Example throwing_callback :
  detect (λ _, false) (λ _, true) (λ p, p) false (Some (λ _ _, (tt, Some tt)))
         pairHeap false pairModules emptyHost =
  Some {| errors := [Thrown tt; Thrown tt]; warnings := []; cbState := tt;
          calls := [ {| det_module := Some 10; det_paths := ["a.js"; "b.js"; "a.js"]%string |};
                     {| det_module := Some 11; det_paths := ["b.js"; "a.js"; "b.js"]%string |} ] |}.
Proof. by vm_compute. Qed.

(** ** Adjacency rows *)

(** C4 (as the code has it): row [i] of the adjacency lists holds, in the
    order of the dependency records, the index of the target of every
    surviving dependency of module [i] whose target belongs to the module
    list: one entry per surviving record, so a target reached through
    several records occurs as many times. *)
Theorem C4_adjacency_rows (heap : nat → Module) (allowAsyncCycles : bool)
    (modules : list (option nat)) (i : nat) :
  let modList := createSortedModuleList heap modules in
  let idOf := mkIdOf modList in
  buildAdjacencyList heap allowAsyncCycles modList idOf !!! i =
  omap (idOf !!.) (from_option (getDeps heap allowAsyncCycles) [] (modList !! i)).
Proof. intros modList idOf. apply buildAdjacencyList_row. Qed.

(** Two dependency records of [a.js] resolve to [b.js]: index 1 occurs
    twice in row 0. *)
Lemma C4_counterexample :
  let modList := createSortedModuleList twiceHeap twiceModules in
  buildAdjacencyList twiceHeap false modList (mkIdOf modList) !!! 0 = [1; 1] ∧
  ¬ NoDup (buildAdjacencyList twiceHeap false modList (mkIdOf modList) !!! 0).
Proof.
assert (let modList := createSortedModuleList twiceHeap twiceModules in
        buildAdjacencyList twiceHeap false modList (mkIdOf modList) !!! 0 = [1; 1]) as Hrow
  by by vm_compute.
split; [done|]. simpl in Hrow. rewrite Hrow. intros [Hnd _]%NoDup_cons. set_solver.
Qed.

(** ** Depth of the recursion *)

Lemma chain_length N : length (chain N) = N.
Proof. unfold chain. by rewrite length_fmap, length_seq. Qed.

Lemma chain_row N j : S j < N → chain N !!! j = [S j].
Proof.
intros Hj. unfold chain. rewrite list_lookup_total_alt, list_lookup_fmap.
rewrite lookup_seq_lt by lia. simpl.
destruct (Nat.ltb_spec (S j) N); [done|lia].
Qed.

Lemma chain_closed N : closedGraph (chain N).
Proof.
intros u w. unfold edge. rewrite chain_length. unfold chain.
rewrite list_lookup_total_alt, list_lookup_fmap.
destruct (seq 0 N !! u) as [i|] eqn:Hu; simpl; [|by intros ?%elem_of_nil].
apply lookup_seq in Hu as [-> _]. simpl.
destruct (Nat.ltb_spec (S u) N); [|by intros ?%elem_of_nil].
intros ->%list_elem_of_singleton. done.
Qed.

(** On a chain, [strongconnect(v)] needs one nested activation per node that
    follows [v]. *)
Lemma strongconnect_chain_deep N k : ∀ v s,
  v + k < N → (∀ j, v ≤ j → j < N → idx s !! j = Some (-1)%Z) →
  strongconnect (chain N) k v s = None.
Proof.
induction k as [|k IH]; intros v s Hv Hnew; [done|].
simpl. rewrite chain_row by lia. simpl.
assert (idx (enter v s) !! S v = Some (-1)%Z) as Hnext.
{ simpl. rewrite list_lookup_insert_ne by lia. apply Hnew; lia. }
rewrite decide_True by done. rewrite IH; [done|lia|].
intros j Hj Hlt. simpl. rewrite list_lookup_insert_ne by lia. apply Hnew; lia.
Qed.

(** C9 (as the code has it): the strongly-connected-components computation
    is recursive, [strongconnect] calling itself for every undiscovered
    neighbour, and its call depth grows with the module count: on the chain
    of [N = S n] modules a call stack of [n] nested activations is not
    enough, while [N] are. *)
Theorem C9_recursion_depth (n : nat) :
  tarjanRun (chain (S n)) n = None ∧ is_Some (tarjanRun (chain (S n)) (S n)).
Proof.
split.
- unfold tarjanRun. rewrite chain_length.
  change (seq 0 (S n)) with (0 :: seq 1 n). simpl.
  rewrite strongconnect_chain_deep; [done|lia|].
  intros j _ Hj. change (idx (tarjanInit (S n))) with (replicate (S n) (-1)%Z).
  apply lookup_replicate. split; [done|lia].
- destruct (tarjanRun_spec (chain (S n)) (chain_closed (S n))) as (t & Hrun & _).
  rewrite chain_length in Hrun. by rewrite Hrun.
Qed.

(** With 32 modules in a chain, 31 nested activations are exhausted. *)
Lemma C9_counterexample : tarjanRun (chain 32) 31 = None.
Proof. by vm_compute. Qed.

(** ** The refactored copy computes the same components *)

Lemma min_js (a b : Z) : (if (a <? b)%Z then a else b) = Z.min a b.
Proof. destruct (Z.ltb_spec a b); lia. Qed.

Lemma popLoop_sim v k st onSt sccId comp st' onSt' sccId' comp' :
  popLoop v k st onSt sccId comp = Some (st', onSt', sccId', comp') →
  Dts.popLoop v st onSt comp = (st', onSt', comp').
Proof.
revert onSt sccId comp. induction st as [|w st IH]; intros onSt sccId comp; simpl; [done|].
destruct (decide (w = v)); [by intros [= <- <- _ <-]|]. apply IH.
Qed.

Lemma closeComponent_sim v s s' :
  closeComponent v s = Some s' → Dts.closeComponent v (erase s) = erase s'.
Proof.
unfold closeComponent, Dts.closeComponent. simpl.
destruct (decide (low s !!! v = idx s !!! v)); [|by intros [= <-]].
destruct (popLoop _ _ _ _ _ _) as [[[[st' onSt'] sccId'] comp]|] eqn:Hpop; [|done].
simpl. intros [= <-]. by rewrite (popLoop_sim _ _ _ _ _ _ _ _ _ _ Hpop).
Qed.

Section Simulation.
Variable adj : list (list nat).

Lemma visitEdges_sim (rec : nat → tarjan → option tarjan)
    (recD : nat → Dts.scc → option Dts.scc) v edges :
  (∀ w s s', rec w s = Some s' → recD w (erase s) = Some (erase s')) →
  ∀ s s', visitEdges rec v edges s = Some s' →
          Dts.visitEdges recD v edges (erase s) = Some (erase s').
Proof.
intros Hrec. induction edges as [|w edges IH]; intros s s'; simpl; [by intros [= <-]|].
destruct (decide (idx s !! w = Some (-1)%Z)).
- destruct (rec w s) as [s1|] eqn:Hs1; [|done]. simpl.
  rewrite (Hrec _ _ _ Hs1). simpl. rewrite min_js. apply IH.
- destruct (decide (onSt s !! w = Some true)); [|apply IH].
  rewrite min_js. apply IH.
Qed.

Lemma strongconnect_sim fuel : ∀ v s s',
  strongconnect adj fuel v s = Some s' →
  Dts.strongConnect adj fuel v (erase s) = Some (erase s').
Proof.
induction fuel as [|fuel IH]; intros v s s'; simpl; [done|].
destruct (visitEdges _ v _ _) as [s1|] eqn:Hs1; [|done]. simpl. intros Hc.
change (Dts.enter v (erase s)) with (erase (enter v s)).
rewrite (visitEdges_sim _ _ v _ IH _ _ Hs1). simpl.
by rewrite (closeComponent_sim _ _ _ Hc).
Qed.

Lemma tarjanLoop_sim fuel vs : ∀ s s',
  tarjanLoop adj fuel vs s = Some s' →
  Dts.mainLoop adj fuel vs (erase s) = Some (erase s').
Proof.
induction vs as [|v vs IH]; intros s s'; simpl; [by intros [= <-]|].
destruct (decide (idx s !! v = Some (-1)%Z)); [|apply IH].
destruct (strongconnect adj fuel v s) as [s1|] eqn:Hs1; [|done]. simpl.
rewrite (strongconnect_sim _ _ _ _ Hs1). simpl. apply IH.
Qed.

(** [computeStronglyConnectedComponents] returns the components of
    [strongconnect], in the same order. *)
Lemma compute_sim fuel t :
  tarjanRun adj fuel = Some t →
  Dts.computeStronglyConnectedComponents adj fuel = Some (sccs t).
Proof.
unfold tarjanRun, Dts.computeStronglyConnectedComponents. intros Hrun.
change (Dts.init (length adj)) with (erase (tarjanInit (length adj))).
by rewrite (tarjanLoop_sim _ _ _ _ Hrun).
Qed.
End Simulation.

(** ** The reporting loops of the refactored copy *)

Section DtsLoops.
Context {Σ E : Type}.
Variable exclude include : string → bool.
Variable relative : string → string.
Variable failOnError : bool.
Variable onDetected : option (Detected → Σ → Σ * option E).
Variable modList : list nat.
Variable resOf : list (option string).
Variable adj : list (list nat).

Lemma Dts_selectCycle_total (compSet : gset nat) node :
  node < length adj → (∀ x, x ∈ compSet → x < length adj) →
  is_Some (Dts.selectCycle exclude include resOf adj compSet node).
Proof.
intros Hnode HR.
unfold Dts.selectCycle. destruct (Dts.resAt resOf node) as [r|]; [|done].
destruct (exclude r); [done|]. destruct (negb (include r)); [done|].
by apply cycleOrFallback_total.
Qed.

Lemma Dts_memberLoop_fold (compSet : gset nat) comp (h : Host Σ E) :
  (∀ x, x ∈ comp → x < length adj) → (∀ x, x ∈ compSet → x < length adj) →
  Dts.memberLoop exclude include relative failOnError onDetected modList resOf adj
    compSet comp h =
  Some (foldl (emitDts relative failOnError onDetected resOf) h
          (dtsMemberReports exclude include modList resOf adj compSet comp)).
Proof.
intros Hcomp HR. revert h. induction comp as [|node comp IH]; intros h; [done|].
unfold dtsMemberReports in *. rewrite omap_cons_app, foldl_app. simpl.
destruct (Dts_selectCycle_total compSet node) as [[cyc|] ->];
  [apply Hcomp; by left|done| |];
  simpl; (rewrite IH; [done|]); intros x Hx; apply Hcomp; by right.
Qed.

Lemma Dts_componentLoop_fold comps (h : Host Σ E) :
  (∀ c x, c ∈ comps → x ∈ c.1 → x < length adj) →
  Dts.componentLoop exclude include relative failOnError onDetected modList resOf adj
    comps h =
  Some (foldl (emitDts relative failOnError onDetected resOf) h
          (dtsComponentReports exclude include modList resOf adj comps)).
Proof.
revert h. induction comps as [|[comp invalid] comps IH]; intros h Hrows; [done|].
assert (∀ c x, c ∈ comps → x ∈ c.1 → x < length adj) as Hrows'.
{ intros c x Hc. apply Hrows. by right. }
assert (∀ x, x ∈ comp → x < length adj) as Hcomp.
{ intros x. apply (Hrows (comp, invalid)). by left. }
unfold dtsComponentReports in *. rewrite fmap_cons. simpl.
destruct invalid; [by rewrite IH|].
rewrite Dts_memberLoop_fold.
- simpl. by rewrite IH, foldl_app.
- intros x Hx. apply Hcomp. unfold Dts.sortIndicesByResource in Hx.
  by rewrite arraySort_Permutation in Hx.
- intros x Hx%elem_of_list_to_set. by apply Hcomp.
Qed.
End DtsLoops.

Section DtsVersusJs.
Variable heap : nat → Module.
Variable modList : list nat.

Abbreviation resOf := (resourceOf heap <$> modList).

Lemma resAt_fmap i : Dts.resAt resOf i = modList !! i ≫= resourceOf heap.
Proof. unfold Dts.resAt. rewrite list_lookup_fmap. by destruct (modList !! i). Qed.

Lemma relPathsOf_dts relative cyc :
  Dts.relPathsOf relative resOf cyc = relPathsOf relative heap modList cyc.
Proof.
unfold Dts.relPathsOf, relPathsOf. apply list_fmap_ext. intros _ i _.
by rewrite resAt_fmap.
Qed.

Lemma anyMissing_dts comp : Dts.anyMissing resOf comp = anyMissing heap modList comp.
Proof.
induction comp as [|c comp IH]; simpl; [done|]. rewrite resAt_fmap.
by destruct (modList !! c ≫= resourceOf heap).
Qed.

Lemma flagInvalidComponents_dts sccs :
  Dts.flagInvalidComponents resOf sccs = componentInvalid heap modList <$> sccs.
Proof.
unfold Dts.flagInvalidComponents. apply list_fmap_ext. intros _ comp _.
unfold componentInvalid. by rewrite anyMissing_dts.
Qed.

Lemma emitDts_asDts {Σ E : Type} relative failOnError
    (onDetected : option (Detected → Σ → Σ * option E)) (h : Host Σ E) r :
  emitDts relative failOnError onDetected resOf h (asDts r) =
  emitReport relative failOnError onDetected heap modList h r.
Proof. unfold emitDts, emitReport. simpl. by rewrite relPathsOf_dts. Qed.
End DtsVersusJs.

Lemma zip_fmap_self {A B} (f : A → B) (l : list A) :
  zip l (f <$> l) = (λ x, (x, f x)) <$> l.
Proof.
induction l as [|x l IH]; [done|].
rewrite !fmap_cons. change (zip (x :: l) (f x :: (f <$> l))) with ((x, f x) :: zip l (f <$> l)).
by rewrite IH.
Qed.

Lemma concat_Permutation {A} (ls1 ls2 : list (list A)) :
  Forall2 (≡ₚ) ls1 ls2 → concat ls1 ≡ₚ concat ls2.
Proof. induction 1 as [|l1 l2 ls1 ls2 Hl _ IH]; simpl; [done|]. by rewrite Hl, IH. Qed.

Lemma omap_concat {A B} (f : A → option B) (ls : list (list A)) :
  omap f (concat ls) = concat ((λ l : list A, omap f l) <$> ls).
Proof.
induction ls as [|l ls IH]; simpl; [done|]. by rewrite omap_app, IH.
Qed.

Lemma omap_ext_elem {A B} (f g : A → option B) (l : list A) :
  (∀ x, x ∈ l → f x = g x) → omap f l = omap g l.
Proof.
induction l as [|x l IH]; intros Hfg; [done|].
rewrite !omap_cons_app, Hfg by set_solver. rewrite IH; [done|].
intros y Hy. apply Hfg. set_solver.
Qed.

Lemma omap_none {A B} (l : list A) : omap (λ _, @None B) l = [].
Proof. induction l as [|x l IH]; [done|]. by rewrite omap_cons_app, IH. Qed.

Lemma foldl_emitDts_asDts {Σ E : Type} relative failOnError
    (onDetected : option (Detected → Σ → Σ * option E)) heap modList js (h : Host Σ E) :
  foldl (emitDts relative failOnError onDetected (resourceOf heap <$> modList)) h (asDts <$> js) =
  foldl (emitReport relative failOnError onDetected heap modList) h js.
Proof.
revert h. induction js as [|r js IH]; intros h; [done|].
rewrite fmap_cons. simpl. by rewrite emitDts_asDts, IH.
Qed.

Section SameReports.
Variable exclude include : string → bool.
Variable heap : nat → Module.
Variable allowAsyncCycles : bool.
Variable modList : list nat.
Variable t : tarjan.
Hypothesis Hnd : NoDup modList.

Abbreviation idOf' := (mkIdOf modList).
Abbreviation adj' := (buildAdjacencyList heap allowAsyncCycles modList idOf').
Abbreviation resOf' := (resourceOf heap <$> modList).

Hypothesis Hok : tarjanOK adj' t.
Hypothesis Hall : ∀ v, v < length adj' → v ∈ concat (sccs t).

(** Inside one component both copies select the same pairs. *)
Lemma component_reports comp :
  comp ∈ sccs t →
  (if componentInvalid heap modList comp then []
   else dtsMemberReports exclude include modList resOf' adj' (list_to_set comp) comp) =
  omap (λ node, asDts <$> mjoin (selectCycle exclude include heap modList idOf' adj' t node)) comp.
Proof.
intros Hc.
assert (∀ node, node ∈ comp → ∃ m, modList !! node = Some m) as Hmod.
{ intros node Hn. apply lookup_lt_is_Some.
  rewrite <- (buildAdjacencyList_length heap allowAsyncCycles modList idOf').
  by eapply (comp_bound adj' t Hok). }
destruct (componentInvalid heap modList comp) eqn:Hinv.
- rewrite (omap_ext_elem _ (λ _, None)); [by rewrite omap_none|].
  intros x Hx. destruct (Hmod x Hx) as [m Hm].
  rewrite (selectCycle_char exclude include heap allowAsyncCycles modList t Hnd Hok x m _ Hm Hc Hx).
  by rewrite Hinv.
- unfold dtsMemberReports. apply omap_ext_elem. intros node Hn.
  destruct (Hmod node Hn) as [m Hm].
  rewrite (selectCycle_char exclude include heap allowAsyncCycles modList t Hnd Hok node m _ Hm Hc Hn).
  rewrite Hinv. unfold Dts.selectCycle. rewrite resAt_fmap, Hm. simpl.
  destruct (resourceOf heap m) as [r|]; [|done].
  destruct (exclude r); [done|]. destruct (negb (include r)); [done|].
  by destruct (cycleOrFallback _ _ _) as [[cyc|]|].
Qed.

(** Over all components, the refactored copy selects a rearrangement of
    what the loop over the module list selects. *)
Lemma reports_Permutation :
  dtsComponentReports exclude include modList resOf' adj'
    (zip (sccs t) (Dts.flagInvalidComponents resOf' (sccs t))) ≡ₚ
  asDts <$> selected exclude include heap modList idOf' adj' t (seq 0 (length modList)).
Proof.
unfold dtsComponentReports, selected.
rewrite flagInvalidComponents_dts, zip_fmap_self, <- list_fmap_compose.
rewrite list_fmap_omap.
rewrite <- (buildAdjacencyList_length heap allowAsyncCycles modList idOf').
rewrite <- (concat_sccs_Permutation adj' t Hok Hall), omap_concat.
apply concat_Permutation. apply Forall2_fmap, Forall_Forall2_diag, Forall_forall.
intros comp Hc. simpl. rewrite <- (component_reports comp Hc).
destruct (componentInvalid heap modList comp); [done|].
unfold dtsMemberReports, Dts.sortIndicesByResource. by rewrite arraySort_Permutation.
Qed.
End SameReports.

Lemma zip_comp_bound adj t (flags : list bool) :
  tarjanOK adj t →
  ∀ (c : list nat * bool) x, c ∈ zip (sccs t) flags → x ∈ c.1 → x < length adj.
Proof.
intros Hok [comp b] x Hc%elem_of_zip_l Hx. by eapply (comp_bound adj t Hok).
Qed.

(** C10 (as the code has it): run on the same modules (none supplied
    twice), dependency records and options, both copies complete, and each
    emits its selected reports one after the other with the same emission
    step; the reports selected by the refactored copy are a rearrangement of
    those selected by [src/index.js]: the same modules with the same
    cycles, in a possibly different order. *)
Theorem C10_same_reports_up_to_order {Σ E : Type} (exclude include : string → bool)
    (relative : string → string) (failOnError : bool)
    (onDetected : option (Detected → Σ → Σ * option E))
    (heap : nat → Module) (allowAsyncCycles : bool)
    (modules : list (option nat)) (h : Host Σ E) :
  NoDup (omap id modules) →
  let resOf := resourceOf heap <$> createSortedModuleList heap modules in
  let js := reportsJs exclude include heap allowAsyncCycles modules in
  let dts := reportsDts exclude include heap allowAsyncCycles modules in
  detect exclude include relative failOnError onDetected heap allowAsyncCycles modules h =
    Some (foldl (emitDts relative failOnError onDetected resOf) h (asDts <$> js)) ∧
  Dts.detect exclude include relative failOnError onDetected heap allowAsyncCycles modules h =
    Some (foldl (emitDts relative failOnError onDetected resOf) h dts) ∧
  dts ≡ₚ asDts <$> js.
Proof.
intros Hnd resOf js dts.
pose proof (createSortedModuleList_NoDup heap modules Hnd) as Hndl.
set (modList := createSortedModuleList heap modules) in *.
destruct (tarjanRun_spec _ (buildAdjacencyList_closed heap allowAsyncCycles modList))
  as (t & Hrun & Hok & Hall).
split; [|split].
- rewrite detect_reports. f_equal. unfold resOf. fold modList.
  by rewrite foldl_emitDts_asDts.
- unfold Dts.detect, dts, reportsDts. fold modList.
  rewrite (compute_sim _ _ _ Hrun). simpl. apply Dts_componentLoop_fold.
  by apply zip_comp_bound.
- unfold dts, js, reportsDts, reportsJs. fold modList.
  rewrite (compute_sim _ _ _ Hrun), Hrun. by apply reports_Permutation.
Qed.

Lemma C10_same_reports_up_to_order_witness :
  NoDup (omap id twoCyclesModules) ∧
  let resOf := resourceOf twoCyclesHeap <$> createSortedModuleList twoCyclesHeap twoCyclesModules in
  let js := reportsJs (λ _, false) (λ _, true) twoCyclesHeap false twoCyclesModules in
  let dts := reportsDts (λ _, false) (λ _, true) twoCyclesHeap false twoCyclesModules in
  detect (λ _, false) (λ _, true) (λ p, p) false None twoCyclesHeap false twoCyclesModules emptyHost =
    Some (foldl (emitDts (λ p, p) false None resOf) emptyHost (asDts <$> js)) ∧
  Dts.detect (λ _, false) (λ _, true) (λ p, p) false None twoCyclesHeap false twoCyclesModules emptyHost =
    Some (foldl (emitDts (λ p, p) false None resOf) emptyHost dts) ∧
  dts ≡ₚ asDts <$> js.
Proof.
split; [apply (bool_decide_unpack _); by vm_compute|].
apply (C10_same_reports_up_to_order (λ _, false) (λ _, true) (λ p, p) false None
         twoCyclesHeap false twoCyclesModules emptyHost).
apply (bool_decide_unpack _). by vm_compute.
Defined.

(** With two separate cycles [a.js <-> c.js] and [b.js <-> d.js] the loop
    over the module list hands off [a, b, c, d], the loop over the
    components hands off [a, c, b, d]. *)
Lemma C10_counterexample :
  calls <$> detect (λ _, false) (λ _, true) (λ p, p) false (Some (λ _ _, (tt, None)))
              twoCyclesHeap false twoCyclesModules emptyHost ≠
  calls <$> Dts.detect (λ _, false) (λ _, true) (λ p, p) false (Some (λ _ _, (tt, None)))
              twoCyclesHeap false twoCyclesModules emptyHost.
Proof. vm_compute. discriminate. Qed.

(** ** The module sort *)

Lemma strLt_iff a b : strLt a b ↔ String_as_OT.lt a b.
Proof.
unfold strLt, String.ltb. rewrite <- String_as_OT.cmp_lt. unfold String_as_OT.cmp.
destruct (String.compare a b); split; congruence.
Qed.

Lemma strLt_trans a b c : strLt a b → strLt b c → strLt a c.
Proof. rewrite !strLt_iff. apply String_as_OT.lt_trans. Qed.

Lemma strLt_irrefl a : ¬ strLt a a.
Proof. rewrite strLt_iff. intros H. by apply String_as_OT.lt_not_eq in H. Qed.

Lemma strLt_trichotomy a b : strLt a b ∨ a = b ∨ strLt b a.
Proof.
unfold strLt, String.ltb. rewrite (String.compare_antisym b a).
destruct (String.compare a b) eqn:Hc; simpl; auto.
right. left. by apply String.compare_eq_iff.
Qed.

Lemma compareKeys_neg ra rb : (compareKeys ra rb <? 0)%Z = String.ltb ra rb.
Proof. unfold compareKeys. destruct (String.ltb ra rb); [done|]. by destruct (String.ltb rb ra). Qed.

Section SortedModules.
Variable heap : nat → Module.

Lemma keyLe_lt a b : strLt (keyOf heap a) (keyOf heap b) → keyLe heap a b.
Proof.
intros Hlt. unfold keyLe. destruct (String.ltb (keyOf heap b) (keyOf heap a)) eqn:Hba; [|done].
destruct (strLt_irrefl (keyOf heap a)). by eapply strLt_trans.
Qed.

Lemma keyLe_trans a b c : keyLe heap a b → keyLe heap b c → keyLe heap a c.
Proof.
unfold keyLe. intros Hab Hbc.
destruct (String.ltb (keyOf heap c) (keyOf heap a)) eqn:Hca; [|done]. exfalso.
destruct (strLt_trichotomy (keyOf heap a) (keyOf heap b)) as [H1|[H1|H1]];
  [| |unfold strLt in H1; congruence].
- destruct (strLt_trichotomy (keyOf heap b) (keyOf heap c)) as [H2|[H2|H2]];
    [| |unfold strLt in H2; congruence].
  + apply (strLt_irrefl (keyOf heap a)).
    eapply strLt_trans; [done|]. by eapply strLt_trans.
  + rewrite <- H2 in Hca. unfold strLt in H1.
    apply (strLt_irrefl (keyOf heap a)). by eapply strLt_trans.
- rewrite H1 in Hca. congruence.
Qed.

Lemma sortInsert_sorted x l :
  StronglySorted (keyLe heap) l →
  StronglySorted (keyLe heap) (sortInsert (compareModules heap) x l).
Proof.
induction 1 as [|y l Hl IH Hy]; simpl.
- apply SSorted_cons; [apply SSorted_nil|apply Forall_nil_2].
- unfold compareModules at 1. rewrite compareKeys_neg.
  destruct (String.ltb (keyOf heap y) (keyOf heap x)) eqn:Hyx.
  + apply SSorted_cons; [done|].
    rewrite sortInsert_Permutation. apply Forall_cons. split; [by apply keyLe_lt|done].
  + apply SSorted_cons; [by apply SSorted_cons|].
    apply Forall_cons. split; [done|].
    eapply Forall_impl; [exact Hy|]. intros z Hz. by eapply keyLe_trans.
Qed.

(** The sorted module list is ordered by key. *)
Lemma arraySort_sorted l : StronglySorted (keyLe heap) (arraySort (compareModules heap) l).
Proof.
induction l as [|x l IH]; simpl; [apply SSorted_nil|by apply sortInsert_sorted].
Qed.
End SortedModules.

(** ** Two runs on rearranged inputs *)

Lemma reach_ext adj1 adj2 P u z :
  (∀ x y, edge adj1 x y → edge adj2 x y) → reach adj1 P u z → reach adj2 P u z.
Proof.
intros He. induction 1 as [u Hu|u w z Hu Hw _ IH]; [by apply reach_refl|].
eapply reach_step; [done|by apply He|done].
Qed.

Section Rearranged.
Variable heap1 heap2 : nat → Module.
Variable allowAsyncCycles : bool.
Hypothesis Hres : ∀ m, resourceOf heap1 m = resourceOf heap2 m.
Hypothesis Hdeps : ∀ m, dependencies (heap1 m) ≡ₚ dependencies (heap2 m).

Lemma depTarget_ext m d :
  depTarget heap1 allowAsyncCycles m d = depTarget heap2 allowAsyncCycles m d.
Proof.
unfold depTarget. destruct d as [d|]; [|done]. destruct (dep_selfref d); [done|].
destruct (allowAsyncCycles && weak d); [done|]. destruct (dep_module d) as [dm|]; [|done].
by rewrite Hres.
Qed.

Lemma getDeps_Permutation m :
  getDeps heap1 allowAsyncCycles m ≡ₚ getDeps heap2 allowAsyncCycles m.
Proof.
unfold getDeps. rewrite (Hdeps m).
rewrite (omap_ext_elem (depTarget heap1 allowAsyncCycles m) (depTarget heap2 allowAsyncCycles m)); [done|].
intros d _. apply depTarget_ext.
Qed.

Lemma keyOf_ext m : keyOf heap1 m = keyOf heap2 m.
Proof. unfold keyOf. by rewrite Hres. Qed.
End Rearranged.

Section ReportCount.
Variable exclude include : string → bool.
Variable heap : nat → Module.
Variable allowAsyncCycles : bool.
Variable modList : list nat.
Variable t : tarjan.
Hypothesis Hnd : NoDup modList.

Abbreviation idOf'' := (mkIdOf modList).
Abbreviation adj'' := (buildAdjacencyList heap allowAsyncCycles modList idOf'').

Hypothesis Hok : tarjanOK adj'' t.
Hypothesis Hall : ∀ v, v < length adj'' → v ∈ concat (sccs t).

(** How many reports a module of the list gets. *)
Lemma report_count i m comp :
  modList !! i = Some m → comp ∈ sccs t → i ∈ comp →
  length (filter (λ x, x.1 = m)
            (selected exclude include heap modList idOf'' adj'' t (seq 0 (length modList)))) =
  if componentInvalid heap modList comp then 0
  else match resourceOf heap m with
       | None => 0
       | Some r => if exclude r then 0 else if negb (include r) then 0 else 1
       end.
Proof.
intros Hm Hc Hi.
rewrite (selected_unique exclude include heap allowAsyncCycles modList t Hnd i m) by (done || apply NoDup_seq).
rewrite decide_True by (apply elem_of_seq; apply lookup_lt_Some in Hm; lia).
rewrite (selectCycle_char exclude include heap allowAsyncCycles modList t Hnd Hok i m comp) by done.
destruct (componentInvalid heap modList comp) eqn:Hinv; [done|].
destruct (resourceOf heap m) as [r|]; [|done].
destruct (exclude r); [done|]. destruct (negb (include r)); [done|].
destruct (valid_cycle heap allowAsyncCycles modList t Hok comp i Hc Hinv Hi) as (cyc & _ & -> & _).
done.
Qed.

(** A module outside the list gets none. *)
Lemma report_none m :
  m ∉ modList →
  filter (λ x, x.1 = m)
    (selected exclude include heap modList idOf'' adj'' t (seq 0 (length modList))) = [].
Proof.
intros Hm. unfold selected. generalize (seq 0 (length modList)). intros js.
induction js as [|j js IH]; [done|]. rewrite omap_cons_app, filter_app, IH, app_nil_r.
destruct (selectCycle exclude include heap modList idOf'' adj'' t j) as [[[m' c]|]|] eqn:Hs; [|done..].
simpl. rewrite filter_cons_False; [done|]. simpl. intros ->.
apply selectCycle_module in Hs. apply Hm. by eapply list_elem_of_lookup_2.
Qed.
End ReportCount.

Section BuiltComponents.
Variable heap : nat → Module.
Variable allowAsyncCycles : bool.
Variable modList : list nat.
Variable t : tarjan.

Hypothesis Hok :
  tarjanOK (buildAdjacencyList heap allowAsyncCycles modList (mkIdOf modList)) t.

(** Every member of a component of at least two nodes is the target of a
    collected dependency, hence has a resource identifier. *)
Lemma member_has_resource comp c :
  comp ∈ sccs t → 1 < length comp → c ∈ comp →
  is_Some (modList !! c ≫= resourceOf heap).
Proof.
intros Hc Hlen Hin.
destruct (NoDup_other comp c (comp_NoDup _ t Hok comp Hc) Hlen) as (y & Hy & Hne).
destruct (reach_last_edge_ne _ _ _ _ (ok_comps _ _ Hok comp Hc y c Hy Hin) Hne)
  as (y' & _ & _ & Hedge).
apply edge_built in Hedge as (m & dep & _ & Hdep & Hw).
rewrite Hw. simpl. by apply getDeps_elem in Hdep as [_ ?].
Qed.

Lemma componentInvalid_size comp :
  comp ∈ sccs t → componentInvalid heap modList comp = (length comp <=? 1).
Proof.
intros Hc. destruct (Nat.leb_spec (length comp) 1) as [Hle|Hgt].
- apply componentInvalid_true. by left.
- apply componentInvalid_false. split; [done|]. intros c. by apply member_has_resource.
Qed.
End BuiltComponents.

(** ** Two runs compared module by module *)

Lemma filter_Forall_id {A} (P : A → Prop) `{∀ x, Decision (P x)} (l : list A) :
  Forall P l → filter P l = l.
Proof.
induction 1 as [|x l Hx _ IH]; [done|]. by rewrite filter_cons_True, IH.
Qed.

Lemma filter_Forall_nil {A} (P : A → Prop) `{∀ x, Decision (P x)} (l : list A) :
  Forall (λ x, ¬ P x) l → filter P l = [].
Proof.
induction 1 as [|x l Hx _ IH]; [done|]. by rewrite filter_cons_False.
Qed.

Lemma NoDup_omap_lookup {A} (l : list A) (c : list nat) :
  NoDup l → NoDup c → NoDup (omap (l !!.) c).
Proof.
intros Hl. induction 1 as [|x c Hx Hc IH]; csimpl; [apply NoDup_nil_2|].
destruct (l !! x) as [m|] eqn:Hm; [|done].
apply NoDup_cons. split; [|done].
intros (z & Hz & Hmz)%list_elem_of_omap. apply Hx.
by rewrite (NoDup_lookup l x z m Hl Hm Hmz).
Qed.

Lemma omap_lookup_length {A} (l : list A) (c : list nat) :
  (∀ x, x ∈ c → x < length l) → length (omap (l !!.) c) = length c.
Proof.
induction c as [|x c IH]; intros Hc; csimpl; [done|].
destruct (lookup_lt_is_Some_2 l x) as [m ->]; [apply Hc; by left|].
simpl. rewrite IH; [done|]. intros y Hy. apply Hc. by right.
Qed.

Section SortedIndex.
Variable heap : nat → Module.

(** In a sorted list without repeated modules, a module whose key no other
    module shares stands after exactly the modules with a smaller key. *)
Lemma sorted_index l i m :
  NoDup l → StronglySorted (keyLe heap) l → l !! i = Some m →
  (∀ m', m' ∈ l → m' ≠ m → keyOf heap m' ≠ keyOf heap m) →
  i = length (filter (λ x, String.ltb (keyOf heap x) (keyOf heap m) = true) l).
Proof.
intros Hnd Hsorted Hi Huniq.
pose proof (lookup_lt_Some _ _ _ Hi) as Hlt.
rewrite <- (take_drop_middle l i m Hi) in Hnd, Hsorted, Huniq |- *.
apply NoDup_app in Hnd as (_ & Hm1 & _).
apply StronglySorted_app in Hsorted as (Hcross & _ & Hright).
apply StronglySorted_inv in Hright as [_ Hafter].
rewrite filter_app, filter_cons_False by apply (strLt_irrefl (keyOf heap m)).
rewrite filter_Forall_id, filter_Forall_nil.
- rewrite app_nil_r, length_take. lia.
- eapply Forall_impl; [exact Hafter|]. intros x Hx. unfold keyLe in Hx.
  by rewrite Hx.
- apply Forall_forall. intros x Hx.
  assert (x ≠ m) as Hne by (intros ->; apply (Hm1 m Hx); by left).
  assert (keyLe heap x m) as Hle by (apply Hcross; [done|by left]).
  destruct (strLt_trichotomy (keyOf heap x) (keyOf heap m)) as [?|[Heq|Hgt]]; [done| |].
  + destruct (Huniq x); [apply elem_of_app; by left|done|done].
  + unfold keyLe in Hle. unfold strLt in Hgt. congruence.
Qed.
End SortedIndex.

Section Transfer.
Variable heapA heapB : nat → Module.
Variable allowAsyncCycles : bool.
Hypothesis Hres : ∀ m, resourceOf heapA m = resourceOf heapB m.
Hypothesis Hdeps : ∀ m, dependencies (heapA m) ≡ₚ dependencies (heapB m).
Variable modListA modListB : list nat.
Hypothesis Hperm : modListA ≡ₚ modListB.
Hypothesis HndB : NoDup modListB.

(** An edge between two modules in one run is an edge between the same
    modules in the other run, whatever their indices. *)
Lemma edge_transfer u w u' w' m dep :
  modListA !! u = Some m → modListA !! w = Some dep →
  modListB !! u' = Some m → modListB !! w' = Some dep →
  edge (buildAdjacencyList heapA allowAsyncCycles modListA (mkIdOf modListA)) u w →
  edge (buildAdjacencyList heapB allowAsyncCycles modListB (mkIdOf modListB)) u' w'.
Proof.
intros Hu Hw Hu' Hw' (m0 & dep0 & Hm0 & Hdep0 & Hw0)%edge_built.
assert (m0 = m) as -> by congruence. assert (dep0 = dep) as -> by congruence.
unfold edge. rewrite buildAdjacencyList_row, Hu'. simpl.
apply list_elem_of_omap. exists dep. split; [|by apply mkIdOf_NoDup].
by rewrite <- (getDeps_Permutation heapA heapB allowAsyncCycles Hres Hdeps m).
Qed.

Lemma reach_transfer u z :
  reach (buildAdjacencyList heapA allowAsyncCycles modListA (mkIdOf modListA))
    (λ _, True) u z →
  ∀ u' m, modListA !! u = Some m → modListB !! u' = Some m →
  ∃ z' mz, modListA !! z = Some mz ∧ modListB !! z' = Some mz ∧
    reach (buildAdjacencyList heapB allowAsyncCycles modListB (mkIdOf modListB))
      (λ _, True) u' z'.
Proof.
induction 1 as [u _|u w z _ He Hr IH]; intros u' m Hu Hu'.
- exists u', m. split; [done|]. split; [done|]. by apply reach_refl.
- pose proof He as (m0 & dep & Hm0 & Hdep & Hw)%edge_built.
  assert (dep ∈ modListB) as [w' Hw']%list_elem_of_lookup.
  { rewrite <- Hperm. by eapply list_elem_of_lookup_2. }
  destruct (IH w' dep Hw Hw') as (z' & mz & Hz & Hz' & Hr').
  exists z', mz. split; [done|]. split; [done|].
  eapply reach_step; [done| |exact Hr']. by eapply (edge_transfer u w u' w' m dep).
Qed.

Lemma mutual_transfer u z u' z' m mz :
  modListA !! u = Some m → modListB !! u' = Some m →
  modListA !! z = Some mz → modListB !! z' = Some mz →
  mutuallyReachable (buildAdjacencyList heapA allowAsyncCycles modListA (mkIdOf modListA)) u z →
  mutuallyReachable (buildAdjacencyList heapB allowAsyncCycles modListB (mkIdOf modListB)) u' z'.
Proof.
intros Hu Hu' Hz Hz' [H1 H2]. split.
- destruct (reach_transfer u z H1 u' m Hu Hu') as (z'' & mz' & Hz1 & Hz2 & Hr).
  assert (mz' = mz) as -> by congruence.
  by rewrite (NoDup_lookup modListB z' z'' mz HndB Hz' Hz2).
- destruct (reach_transfer z u H2 z' mz Hz Hz') as (u'' & m' & Hu1 & Hu2 & Hr).
  assert (m' = m) as -> by congruence.
  by rewrite (NoDup_lookup modListB u' u'' m HndB Hu' Hu2).
Qed.

Variable tA tB : tarjan.
Hypothesis HokA :
  tarjanOK (buildAdjacencyList heapA allowAsyncCycles modListA (mkIdOf modListA)) tA.
Hypothesis HokB :
  tarjanOK (buildAdjacencyList heapB allowAsyncCycles modListB (mkIdOf modListB)) tB.

(** The modules of the component of [m] in one run belong to the component
    of [m] in the other run. *)
Lemma comp_transfer u u' m cA cB mz :
  cA ∈ sccs tA → cB ∈ sccs tB → u ∈ cA → u' ∈ cB →
  modListA !! u = Some m → modListB !! u' = Some m →
  mz ∈ omap (modListA !!.) cA → mz ∈ omap (modListB !!.) cB.
Proof.
intros HcA HcB Hu Hu' Hm Hm' (z & Hz & Hmz)%list_elem_of_omap.
assert (mz ∈ modListB) as [z' Hz']%list_elem_of_lookup.
{ rewrite <- Hperm. by eapply list_elem_of_lookup_2. }
apply list_elem_of_omap. exists z'. split; [|done].
apply (comp_maximal _ tB HokB cB u' z' HcB Hu').
apply (mutual_transfer u z u' z' m mz Hm Hm' Hmz Hz').
by apply (comp_members _ tA HokA cA u z HcA Hu).
Qed.
End Transfer.

Section TwoRuns.
Variable exclude include : string → bool.
Variable heap1 heap2 : nat → Module.
Variable allowAsyncCycles : bool.
Hypothesis Hres : ∀ m, resourceOf heap1 m = resourceOf heap2 m.
Hypothesis Hdeps : ∀ m, dependencies (heap1 m) ≡ₚ dependencies (heap2 m).
Variable modList1 modList2 : list nat.
Hypothesis Hperm : modList1 ≡ₚ modList2.
Hypothesis Hnd1 : NoDup modList1.
Hypothesis Hnd2 : NoDup modList2.
Variable t1 t2 : tarjan.
Hypothesis Hok1 :
  tarjanOK (buildAdjacencyList heap1 allowAsyncCycles modList1 (mkIdOf modList1)) t1.
Hypothesis Hall1 :
  ∀ v, v < length (buildAdjacencyList heap1 allowAsyncCycles modList1 (mkIdOf modList1)) →
       v ∈ concat (sccs t1).
Hypothesis Hok2 :
  tarjanOK (buildAdjacencyList heap2 allowAsyncCycles modList2 (mkIdOf modList2)) t2.
Hypothesis Hall2 :
  ∀ v, v < length (buildAdjacencyList heap2 allowAsyncCycles modList2 (mkIdOf modList2)) →
       v ∈ concat (sccs t2).

(** The components of a module in the two runs hold the same modules and
    are classified alike. *)
Lemma comps_rearranged m i1 i2 c1 c2 :
  modList1 !! i1 = Some m → modList2 !! i2 = Some m →
  c1 ∈ sccs t1 → c2 ∈ sccs t2 → i1 ∈ c1 → i2 ∈ c2 →
  omap (modList1 !!.) c1 ≡ₚ omap (modList2 !!.) c2 ∧
  componentInvalid heap1 modList1 c1 = componentInvalid heap2 modList2 c2.
Proof.
intros Hm1 Hm2 Hc1 Hc2 Hi1 Hi2.
assert (omap (modList1 !!.) c1 ≡ₚ omap (modList2 !!.) c2) as Hp.
{ apply NoDup_Permutation.
  - apply NoDup_omap_lookup; [done|by eapply (comp_NoDup _ t1)].
  - apply NoDup_omap_lookup; [done|by eapply (comp_NoDup _ t2)].
  - intros mz. split.
    + by apply (comp_transfer heap1 heap2 allowAsyncCycles Hres Hdeps modList1 modList2
                  Hperm Hnd2 t1 t2 Hok1 Hok2 i1 i2 m c1 c2 mz).
    + apply (comp_transfer heap2 heap1 allowAsyncCycles
               (λ x, eq_sym (Hres x)) (λ x, Permutation_sym (Hdeps x)) modList2 modList1
               (Permutation_sym Hperm) Hnd1 t2 t1 Hok2 Hok1 i2 i1 m c2 c1 mz); done. }
split; [done|].
rewrite (componentInvalid_size heap1 allowAsyncCycles modList1 t1 Hok1 c1 Hc1).
rewrite (componentInvalid_size heap2 allowAsyncCycles modList2 t2 Hok2 c2 Hc2).
apply Permutation_length in Hp. rewrite !omap_lookup_length in Hp.
- by rewrite Hp.
- intros x Hx. rewrite <- (buildAdjacencyList_length heap2 allowAsyncCycles modList2 (mkIdOf modList2)).
  by eapply (comp_bound _ t2 Hok2).
- intros x Hx. rewrite <- (buildAdjacencyList_length heap1 allowAsyncCycles modList1 (mkIdOf modList1)).
  by eapply (comp_bound _ t1 Hok1).
Qed.

(** Every module gets the same number of reports in the two runs, at most
    one. *)
Lemma report_count_rearranged m :
  length (filter (λ x, x.1 = m)
    (selected exclude include heap1 modList1 (mkIdOf modList1)
       (buildAdjacencyList heap1 allowAsyncCycles modList1 (mkIdOf modList1)) t1
       (seq 0 (length modList1)))) =
  length (filter (λ x, x.1 = m)
    (selected exclude include heap2 modList2 (mkIdOf modList2)
       (buildAdjacencyList heap2 allowAsyncCycles modList2 (mkIdOf modList2)) t2
       (seq 0 (length modList2)))) ∧
  length (filter (λ x, x.1 = m)
    (selected exclude include heap1 modList1 (mkIdOf modList1)
       (buildAdjacencyList heap1 allowAsyncCycles modList1 (mkIdOf modList1)) t1
       (seq 0 (length modList1)))) ≤ 1.
Proof.
destruct (decide (m ∈ modList1)) as [Hm|Hm].
- pose proof Hm as Hm'. rewrite Hperm in Hm'.
  apply list_elem_of_lookup in Hm as [i1 Hi1]. apply list_elem_of_lookup in Hm' as [i2 Hi2].
  destruct (comp_of _ t1 Hok1 Hall1 i1) as (k1 & c1 & Hk1 & Hin1 & _).
  { rewrite buildAdjacencyList_length. by eapply lookup_lt_Some. }
  destruct (comp_of _ t2 Hok2 Hall2 i2) as (k2 & c2 & Hk2 & Hin2 & _).
  { rewrite buildAdjacencyList_length. by eapply lookup_lt_Some. }
  apply list_elem_of_lookup_2 in Hk1, Hk2.
  rewrite (report_count exclude include heap1 allowAsyncCycles modList1 t1 Hnd1 Hok1 i1 m c1)
    by done.
  rewrite (report_count exclude include heap2 allowAsyncCycles modList2 t2 Hnd2 Hok2 i2 m c2)
    by done.
  destruct (comps_rearranged m i1 i2 c1 c2 Hi1 Hi2 Hk1 Hk2 Hin1 Hin2) as [_ <-].
  rewrite <- Hres. split; [done|].
  destruct (componentInvalid heap1 modList1 c1); [lia|].
  destruct (resourceOf heap1 m) as [r|]; [|lia].
  destruct (exclude r); [lia|]. destruct (negb (include r)); lia.
- rewrite (report_none exclude include heap1 allowAsyncCycles modList1 t1 m Hm).
  rewrite (report_none exclude include heap2 allowAsyncCycles modList2 t2 m)
    by by rewrite <- Hperm.
  simpl. split; [done|lia].
Qed.
End TwoRuns.

(** C5 (as the code has it): supplying the same modules (none of them
    twice), or the dependency records of each module, in another order
    leaves the index of every module whose sort key (the resource
    identifier, or the empty string without one) no other supplied module
    shares unchanged; modules that share a key are indexed in their order
    of arrival.  Whatever the keys, the component of every module holds the
    same modules in both runs and is classified alike, and every module gets
    the same number of reports, at most one, and exactly one when it is an
    eligible member of a cyclic component. *)
Theorem C5_rearranged_inputs (exclude include : string → bool)
    (heap1 heap2 : nat → Module) (allowAsyncCycles : bool)
    (modules1 modules2 : list (option nat)) :
  modules1 ≡ₚ modules2 →
  (∀ m, resourceOf heap1 m = resourceOf heap2 m) →
  (∀ m, dependencies (heap1 m) ≡ₚ dependencies (heap2 m)) →
  NoDup (omap id modules1) →
  let modList1 := createSortedModuleList heap1 modules1 in
  let modList2 := createSortedModuleList heap2 modules2 in
  let adj1 := buildAdjacencyList heap1 allowAsyncCycles modList1 (mkIdOf modList1) in
  let adj2 := buildAdjacencyList heap2 allowAsyncCycles modList2 (mkIdOf modList2) in
  let reports1 := reportsJs exclude include heap1 allowAsyncCycles modules1 in
  let reports2 := reportsJs exclude include heap2 allowAsyncCycles modules2 in
  modList1 ≡ₚ modList2 ∧
  (∀ m, (∀ m', m' ∈ modList1 → m' ≠ m → keyOf heap1 m' ≠ keyOf heap1 m) →
        mkIdOf modList1 !! m = mkIdOf modList2 !! m) ∧
  ∃ t1 t2,
    tarjanRun adj1 (length adj1) = Some t1 ∧ tarjanRun adj2 (length adj2) = Some t2 ∧
    (∀ m i1 i2 c1 c2, modList1 !! i1 = Some m → modList2 !! i2 = Some m →
       c1 ∈ sccs t1 → c2 ∈ sccs t2 → i1 ∈ c1 → i2 ∈ c2 →
       omap (modList1 !!.) c1 ≡ₚ omap (modList2 !!.) c2 ∧
       componentInvalid heap1 modList1 c1 = componentInvalid heap2 modList2 c2) ∧
    (∀ m, length (filter (λ x, x.1 = m) reports1) = length (filter (λ x, x.1 = m) reports2) ∧
          length (filter (λ x, x.1 = m) reports1) ≤ 1) ∧
    (∀ i c1 m r, c1 ∈ sccs t1 → componentInvalid heap1 modList1 c1 = false → i ∈ c1 →
       modList1 !! i = Some m → resourceOf heap1 m = Some r →
       exclude r = false → include r = true →
       length (filter (λ x, x.1 = m) reports1) = 1 ∧
       length (filter (λ x, x.1 = m) reports2) = 1).
Proof.
intros Hp Hres Hdeps Hnd modList1 modList2 adj1 adj2 reports1 reports2.
assert (omap id modules1 ≡ₚ omap id modules2) as Hp' by by rewrite Hp.
assert (modList1 ≡ₚ modList2) as Hperm.
{ unfold modList1, modList2, createSortedModuleList. by rewrite !arraySort_Permutation. }
assert (NoDup modList1) as Hnd1 by by apply createSortedModuleList_NoDup.
assert (NoDup modList2) as Hnd2 by by rewrite <- Hperm.
destruct (tarjanRun_spec adj1 (buildAdjacencyList_closed heap1 allowAsyncCycles modList1))
  as (t1 & Hrun1 & Hok1 & Hall1).
destruct (tarjanRun_spec adj2 (buildAdjacencyList_closed heap2 allowAsyncCycles modList2))
  as (t2 & Hrun2 & Hok2 & Hall2).
assert (reports1 = selected exclude include heap1 modList1 (mkIdOf modList1) adj1 t1
                     (seq 0 (length modList1))) as Hr1.
{ unfold reports1, reportsJs. fold modList1. fold adj1. by rewrite Hrun1. }
assert (reports2 = selected exclude include heap2 modList2 (mkIdOf modList2) adj2 t2
                     (seq 0 (length modList2))) as Hr2.
{ unfold reports2, reportsJs. fold modList2. fold adj2. by rewrite Hrun2. }
pose proof (report_count_rearranged exclude include heap1 heap2 allowAsyncCycles Hres Hdeps
              modList1 modList2 Hperm Hnd1 Hnd2 t1 t2 Hok1 Hall1 Hok2 Hall2) as Hcount.
split; [done|]. split.
- intros m Huniq. destruct (decide (m ∈ modList1)) as [Hm|Hm].
  + pose proof Hm as Hm'. rewrite Hperm in Hm'.
    apply list_elem_of_lookup in Hm as [i1 Hi1].
    apply list_elem_of_lookup in Hm' as [i2 Hi2].
    rewrite (mkIdOf_NoDup _ _ _ Hnd1 Hi1), (mkIdOf_NoDup _ _ _ Hnd2 Hi2). f_equal.
    rewrite (sorted_index heap1 modList1 i1 m Hnd1 (arraySort_sorted heap1 _) Hi1 Huniq).
    rewrite (sorted_index heap2 modList2 i2 m Hnd2 (arraySort_sorted heap2 _) Hi2).
    * rewrite (list_filter_iff
                 (λ x, String.ltb (keyOf heap2 x) (keyOf heap2 m) = true)
                 (λ x, String.ltb (keyOf heap1 x) (keyOf heap1 m) = true) modList2)
        by (intros x; by rewrite !(keyOf_ext heap1 heap2 Hres)).
      apply Permutation_length. by rewrite Hperm.
    * intros m' Hm' Hne. rewrite <- !(keyOf_ext heap1 heap2 Hres).
      apply Huniq; [by rewrite Hperm|done].
  + unfold mkIdOf. rewrite !setIds_notin; [done|by rewrite <- Hperm|done].
- exists t1, t2. split; [done|]. split; [done|]. split; [|split].
  + intros m i1 i2 c1 c2.
    by apply (comps_rearranged heap1 heap2 allowAsyncCycles Hres Hdeps modList1 modList2
                Hperm Hnd1 Hnd2 t1 t2 Hok1 Hok2).
  + intros m. rewrite Hr1, Hr2. apply Hcount.
  + intros i c1 m r Hc1 Hvalid Hi1 Hm Hr Hex Hin.
    destruct (Hcount m) as [Heq _]. rewrite Hr1, Hr2. unfold adj1, adj2. rewrite <- Heq.
    rewrite (report_count exclude include heap1 allowAsyncCycles modList1 t1 Hnd1 Hok1 i m c1)
      by done.
    by rewrite Hvalid, Hr, Hex, Hin.
Qed.

(** The same file reached through two loaders gives two modules with one
    sort key: their indices follow the order of arrival. *)
Lemma C5_counterexample :
  [Some 10; Some 11] ≡ₚ [Some 11; Some 10] ∧
  createSortedModuleList tiesHeap [Some 10; Some 11] = [10; 11] ∧
  createSortedModuleList tiesHeap [Some 11; Some 10] = [11; 10] ∧
  mkIdOf (createSortedModuleList tiesHeap [Some 10; Some 11]) !! 10 ≠
  mkIdOf (createSortedModuleList tiesHeap [Some 11; Some 10]) !! 10.
Proof.
split; [apply Permutation_swap|]. split; [by vm_compute|]. split; [by vm_compute|].
vm_compute. discriminate.
Qed.

Lemma tied_resources m : resourceOf tiedHeap m = resourceOf tiedHeapSwapped m.
Proof. do 13 (destruct m as [|m]; [reflexivity|]). reflexivity. Qed.

Lemma tied_dependencies m : dependencies (tiedHeap m) ≡ₚ dependencies (tiedHeapSwapped m).
Proof.
do 12 (destruct m as [|m]; [reflexivity|]).
destruct m as [|m]; [apply Permutation_swap|]. reflexivity.
Qed.

Lemma C5_rearranged_inputs_witness :
  [Some 10; None; Some 11; Some 12] ≡ₚ [Some 12; Some 11; Some 10; None] ∧
  (∀ m, resourceOf tiedHeap m = resourceOf tiedHeapSwapped m) ∧
  (∀ m, dependencies (tiedHeap m) ≡ₚ dependencies (tiedHeapSwapped m)) ∧
  NoDup (omap id [Some 10; None; Some 11; Some 12]) ∧
  let modList1 := createSortedModuleList tiedHeap [Some 10; None; Some 11; Some 12] in
  let modList2 := createSortedModuleList tiedHeapSwapped [Some 12; Some 11; Some 10; None] in
  let adj1 := buildAdjacencyList tiedHeap false modList1 (mkIdOf modList1) in
  let adj2 := buildAdjacencyList tiedHeapSwapped false modList2 (mkIdOf modList2) in
  let reports1 := reportsJs (λ _, false) (λ _, true) tiedHeap false
                    [Some 10; None; Some 11; Some 12] in
  let reports2 := reportsJs (λ _, false) (λ _, true) tiedHeapSwapped false
                    [Some 12; Some 11; Some 10; None] in
  modList1 ≡ₚ modList2 ∧
  (∀ m, (∀ m', m' ∈ modList1 → m' ≠ m → keyOf tiedHeap m' ≠ keyOf tiedHeap m) →
        mkIdOf modList1 !! m = mkIdOf modList2 !! m) ∧
  ∃ t1 t2,
    tarjanRun adj1 (length adj1) = Some t1 ∧ tarjanRun adj2 (length adj2) = Some t2 ∧
    (∀ m i1 i2 c1 c2, modList1 !! i1 = Some m → modList2 !! i2 = Some m →
       c1 ∈ sccs t1 → c2 ∈ sccs t2 → i1 ∈ c1 → i2 ∈ c2 →
       omap (modList1 !!.) c1 ≡ₚ omap (modList2 !!.) c2 ∧
       componentInvalid tiedHeap modList1 c1 = componentInvalid tiedHeapSwapped modList2 c2) ∧
    (∀ m, length (filter (λ x, x.1 = m) reports1) = length (filter (λ x, x.1 = m) reports2) ∧
          length (filter (λ x, x.1 = m) reports1) ≤ 1) ∧
    (∀ i c1 m r, c1 ∈ sccs t1 → componentInvalid tiedHeap modList1 c1 = false → i ∈ c1 →
       modList1 !! i = Some m → resourceOf tiedHeap m = Some r →
       (λ _ : string, false) r = false → (λ _ : string, true) r = true →
       length (filter (λ x, x.1 = m) reports1) = 1 ∧
       length (filter (λ x, x.1 = m) reports2) = 1).
Proof.
assert ([Some 10; None; Some 11; Some 12] ≡ₚ [Some 12; Some 11; Some 10; None]) as Hp.
{ apply (bool_decide_unpack _). by vm_compute. }
assert (NoDup (omap id [Some 10; None; Some 11; Some 12])) as Hnd.
{ apply (bool_decide_unpack _). by vm_compute. }
split; [done|]. split; [apply tied_resources|]. split; [apply tied_dependencies|].
split; [done|].
exact (C5_rearranged_inputs (λ _, false) (λ _, true) tiedHeap tiedHeapSwapped false
         [Some 10; None; Some 11; Some 12] [Some 12; Some 11; Some 10; None]
         Hp tied_resources tied_dependencies Hnd).
Defined.

(** The two modules of [a.js] swap their indices with their order of
    arrival; [b.js], whose key is its own, keeps index 2; the three modules
    form one cyclic component in both runs and each is reported once. *)
Example tied_reports :
  createSortedModuleList tiedHeap [Some 10; None; Some 11; Some 12] = [10; 11; 12] ∧
  createSortedModuleList tiedHeapSwapped [Some 12; Some 11; Some 10; None] = [11; 10; 12] ∧
  fst <$> reportsJs (λ _, false) (λ _, true) tiedHeap false
            [Some 10; None; Some 11; Some 12] = [10; 11; 12] ∧
  fst <$> reportsJs (λ _, false) (λ _, true) tiedHeapSwapped false
            [Some 12; Some 11; Some 10; None] = [11; 10; 12].
Proof. repeat split; by vm_compute. Qed.

(** The two orders of the imports of [a.js] make the search recover
    different cycles for [a.js]; each module is still reported once. *)
Example fan_reports :
  reportsJs (λ _, false) (λ _, true) fanHeap false [Some 12; Some 10; None; Some 11] =
    [(10, [0; 1; 0]); (11, [1; 0; 1]); (12, [2; 0; 2])] ∧
  reportsJs (λ _, false) (λ _, true) fanHeapSwapped false [Some 10; Some 11; Some 12; None] =
    [(10, [0; 2; 0]); (11, [1; 0; 1]); (12, [2; 0; 2])].
Proof. split; by vm_compute. Qed.

(** * Further properties of the pass *)

(** ** Dependency collection and the built graph *)

Lemma omap_length_le {A B} (f : A → option B) (l : list A) :
  length (omap f l) ≤ length l.
Proof.
induction l as [|x l IH]; csimpl; [done|]. destruct (f x); simpl; lia.
Qed.

Section Collected.
Variable heap : nat → Module.
Variable allowAsyncCycles : bool.

(** The modules collected by [getDeps(m)] are the targets of the records
    of [m] that pass every test of its loop. *)
Lemma getDeps_char m dep :
  dep ∈ getDeps heap allowAsyncCycles m ↔
  ∃ d, Some d ∈ dependencies (heap m) ∧ dep_selfref d = false ∧
       allowAsyncCycles && weak d = false ∧ dep_module d = Some dep ∧
       is_Some (resourceOf heap dep) ∧ dep ≠ m.
Proof.
unfold getDeps. rewrite list_elem_of_omap. split.
- intros ([d|] & Hin & Hd); simpl in Hd; [|done]. exists d.
  destruct (dep_selfref d); [done|].
  destruct (allowAsyncCycles && weak d); [done|].
  destruct (dep_module d) as [dm|]; [|done].
  destruct (resourceOf heap dm) eqn:Hr; [|done].
  destruct (decide (dm = m)); [done|]. injection Hd as <-.
  rewrite Hr. by repeat split.
- intros (d & Hin & Hself & Hweak & Hmod & [r Hr] & Hne).
  exists (Some d). split; [done|]. simpl.
  rewrite Hself, Hweak, Hmod, Hr. by rewrite decide_False.
Qed.

Lemma getDeps_length m :
  length (getDeps heap allowAsyncCycles m) ≤ length (dependencies (heap m)).
Proof. unfold getDeps. apply omap_length_le. Qed.
End Collected.

(** X1: when no module occurs twice in the module list, the built graph
    has an edge from index [u] to index [w] exactly when the module at [u]
    has a dependency record that is not a self-reference record, is not
    weak when [allowAsyncCycles] is set, and resolves to the module at
    [w], which has a resource identifier and is another module. *)
Theorem X1_edges_of_built_graph (heap : nat → Module) (allowAsyncCycles : bool)
    (modList : list nat) (u w : nat) :
  NoDup modList →
  edge (buildAdjacencyList heap allowAsyncCycles modList (mkIdOf modList)) u w ↔
  ∃ m dep d, modList !! u = Some m ∧ modList !! w = Some dep ∧
    Some d ∈ dependencies (heap m) ∧ dep_selfref d = false ∧
    allowAsyncCycles && weak d = false ∧ dep_module d = Some dep ∧
    is_Some (resourceOf heap dep) ∧ dep ≠ m.
Proof.
intros Hnd. split.
- intros (m & dep & Hm & Hdep & Hw)%edge_built.
  apply getDeps_char in Hdep as (d & Hd). by exists m, dep, d.
- intros (m & dep & d & Hm & Hw & Hd).
  unfold edge. rewrite buildAdjacencyList_row, Hm. simpl.
  apply list_elem_of_omap. exists dep. split.
  + apply getDeps_char. by exists d.
  + by apply mkIdOf_NoDup.
Qed.

Lemma X1_edges_of_built_graph_witness :
  NoDup [10; 11] ∧
  (edge (buildAdjacencyList pairHeap false [10; 11] (mkIdOf [10; 11])) 0 1 ↔
   ∃ m dep d, [10; 11] !! 0 = Some m ∧ [10; 11] !! 1 = Some dep ∧
     Some d ∈ dependencies (pairHeap m) ∧ dep_selfref d = false ∧
     false && weak d = false ∧ dep_module d = Some dep ∧
     is_Some (resourceOf pairHeap dep) ∧ dep ≠ m).
Proof.
assert (NoDup [10; 11]) as Hnd by (apply (bool_decide_unpack _); by vm_compute).
split; [done|]. by apply (X1_edges_of_built_graph pairHeap false [10; 11] 0 1).
Defined.

(** X2: the adjacency structure has one row per module of the sorted list,
    every entry of a row is the index of a module of the list, and row [i]
    has no more entries than module [i] has dependency records. *)
Theorem X2_adjacency_in_range (heap : nat → Module) (allowAsyncCycles : bool)
    (modules : list (option nat)) :
  let modList := createSortedModuleList heap modules in
  let adj := buildAdjacencyList heap allowAsyncCycles modList (mkIdOf modList) in
  length adj = length modList ∧
  (∀ i w, w ∈ adj !!! i → w < length modList) ∧
  (∀ i m, modList !! i = Some m →
     length (adj !!! i) ≤ length (dependencies (heap m))).
Proof.
intros modList adj. split; [apply buildAdjacencyList_length|]. split.
- intros i w Hw. rewrite <- (buildAdjacencyList_length heap allowAsyncCycles modList (mkIdOf modList)).
  by apply (buildAdjacencyList_closed heap allowAsyncCycles modList i w).
- intros i m Hm. unfold adj. rewrite buildAdjacencyList_row, Hm. simpl.
  etrans; [apply omap_length_le|apply getDeps_length].
Qed.

(** ** The sorts and the index map *)

Lemma ltb_false_trans (a b c : string) :
  String.ltb b a = false → String.ltb c b = false → String.ltb c a = false.
Proof.
intros Hab Hbc. destruct (String.ltb c a) eqn:Hca; [|done]. exfalso.
destruct (strLt_trichotomy a b) as [H1|[H1|H1]]; [| |unfold strLt in H1; congruence].
- destruct (strLt_trichotomy b c) as [H2|[H2|H2]]; [| |unfold strLt in H2; congruence].
  + apply (strLt_irrefl a). eapply strLt_trans; [done|]. by eapply strLt_trans.
  + rewrite <- H2 in Hca. apply (strLt_irrefl a). by eapply strLt_trans.
- rewrite H1 in Hca. congruence.
Qed.

Section KeySort.
Context {A : Type} (key : A → string).

Lemma sortInsert_key_sorted x l :
  StronglySorted (λ a b, String.ltb (key b) (key a) = false) l →
  StronglySorted (λ a b, String.ltb (key b) (key a) = false)
    (sortInsert (λ a b, compareKeys (key a) (key b)) x l).
Proof.
induction 1 as [|y l Hl IH Hy]; simpl.
- apply SSorted_cons; [apply SSorted_nil|apply Forall_nil_2].
- rewrite compareKeys_neg.
  destruct (String.ltb (key y) (key x)) eqn:Hyx.
  + apply SSorted_cons; [done|].
    rewrite sortInsert_Permutation. apply Forall_cons. split; [|done].
    destruct (String.ltb (key x) (key y)) eqn:Hxy; [|done].
    destruct (strLt_irrefl (key x)). by eapply strLt_trans.
  + apply SSorted_cons; [by apply SSorted_cons|].
    apply Forall_cons. split; [done|].
    eapply Forall_impl; [exact Hy|]. intros z Hz. simpl in *.
    by apply (ltb_false_trans (key x) (key y) (key z)).
Qed.

Lemma arraySort_key_sorted l :
  StronglySorted (λ a b, String.ltb (key b) (key a) = false)
    (arraySort (λ a b, compareKeys (key a) (key b)) l).
Proof.
induction l as [|x l IH]; simpl; [apply SSorted_nil|by apply sortInsert_key_sorted].
Qed.

(** Insertion moves [x] only past elements with a smaller key. *)
Lemma sortInsert_key_stable k x l :
  filter (λ y, key y = k) (sortInsert (λ a b, compareKeys (key a) (key b)) x l) =
  filter (λ y, key y = k) (x :: l).
Proof.
induction l as [|y l IH]; simpl; [done|].
rewrite compareKeys_neg. destruct (String.ltb (key y) (key x)) eqn:Hyx; [|done].
rewrite filter_cons, IH, !filter_cons.
destruct (decide (key y = k)) as [Hy|Hy]; [|done].
destruct (decide (key x = k)) as [Hx|Hx]; [|done].
destruct (strLt_irrefl k). unfold strLt. by rewrite <- Hy at 1; rewrite <- Hx.
Qed.

Lemma arraySort_key_stable k l :
  filter (λ y, key y = k) (arraySort (λ a b, compareKeys (key a) (key b)) l) =
  filter (λ y, key y = k) l.
Proof.
induction l as [|x l IH]; simpl; [done|].
by rewrite sortInsert_key_stable, !filter_cons, IH.
Qed.
End KeySort.

(** X3: the sorted module list holds exactly the truthy entries supplied,
    each as often as supplied; its keys (the resource identifier, or the
    empty string) never decrease; and the modules that share a key stand in
    their order of arrival. *)
Theorem X3_module_sort (heap : nat → Module) (modules : list (option nat)) :
  let modList := createSortedModuleList heap modules in
  modList ≡ₚ omap id modules ∧
  StronglySorted (keyLe heap) modList ∧
  ∀ k, filter (λ m, keyOf heap m = k) modList =
       filter (λ m, keyOf heap m = k) (omap id modules).
Proof.
intros modList. split; [apply arraySort_Permutation|]. split; [apply arraySort_sorted|].
intros k. apply (arraySort_key_stable (keyOf heap)).
Qed.

Lemma setIds_None l i (idOf : gmap nat nat) m :
  setIds l i idOf !! m = None ↔ (m ∉ l) ∧ idOf !! m = None.
Proof.
revert i idOf. induction l as [|m0 l IH]; intros i idOf; simpl.
- split; [intros ?; split; [apply not_elem_of_nil|done]|by intros [_ ?]].
- rewrite IH, not_elem_of_cons. destruct (decide (m0 = m)) as [->|Hne].
  + rewrite lookup_insert_eq. split; [by intros [_ ?]|by intros [[? _] _]].
  + rewrite lookup_insert_ne by done. split; [by intros [? ?]|by intros [[_ ?] ?]].
Qed.

(** [idOf.set] overwrites: the index kept for a module is that of its last
    position in [l]. *)
Lemma setIds_last l i (idOf : gmap nat nat) m j :
  setIds l i idOf !! m = Some j ↔
  ((m ∉ l) ∧ idOf !! m = Some j) ∨
  (∃ p, j = i + p ∧ l !! p = Some m ∧ ∀ q, p < q → l !! q ≠ Some m).
Proof.
revert i idOf. induction l as [|m0 l IH]; intros i idOf; simpl.
- split.
  + intros ?. left. split; [apply not_elem_of_nil|done].
  + intros [[_ ?]|(p & _ & ? & _)]; done.
- rewrite IH. split.
  + intros [[Hm Hj]|(p & -> & Hp & Hlast)].
    * destruct (decide (m0 = m)) as [->|Hne].
      -- rewrite lookup_insert_eq in Hj. injection Hj as <-. right. exists 0.
         split; [lia|]. split; [done|]. intros [|q] Hq; [lia|]. simpl.
         intros Hq'. apply Hm. by eapply list_elem_of_lookup_2.
      -- rewrite lookup_insert_ne in Hj by done. left.
         split; [|done]. by apply not_elem_of_cons.
    * right. exists (S p). split; [lia|]. split; [done|].
      intros [|q] Hq; [lia|]. simpl. apply Hlast. lia.
  + intros [[[Hne Hm]%not_elem_of_cons Hj]|(p & -> & Hp & Hlast)].
    * left. split; [done|]. by rewrite lookup_insert_ne.
    * destruct p as [|p]; simpl in Hp.
      -- injection Hp as ->. left. split.
         ++ intros [q Hq]%list_elem_of_lookup. by apply (Hlast (S q)); [lia|].
         ++ rewrite lookup_insert_eq. f_equal. lia.
      -- right. exists p. split; [lia|]. split; [done|].
         intros q Hq. apply (Hlast (S q)). lia.
Qed.

(** X4: the index map sends a module to its last position in the module
    list (a later [idOf.set] overwrites an earlier one), and knows exactly
    the modules of the list. *)
Theorem X4_index_map (modList : list nat) (m i : nat) :
  (mkIdOf modList !! m = Some i ↔
     modList !! i = Some m ∧ ∀ j, i < j → modList !! j ≠ Some m) ∧
  (mkIdOf modList !! m = None ↔ m ∉ modList).
Proof.
unfold mkIdOf. split.
- rewrite setIds_last. split.
  + intros [[_ H]|(p & -> & Hp & Hlast)]; [by rewrite lookup_empty in H|done].
  + intros [Hi Hlast]. right. by exists i.
- rewrite setIds_None. split; [by intros [? _]|]. intros ?. split; [done|apply lookup_empty].
Qed.

(** ** The components and the final state of Tarjan's algorithm *)

(** X5: on a graph over the indices [0..N-1] the computation returns, and
    two nodes lie in the same returned component exactly when each is
    reachable from the other along edges. *)
Theorem X5_components_are_classes (adj : list (list nat)) :
  closedGraph adj →
  ∃ t, tarjanRun adj (length adj) = Some t ∧
       ∀ x y, x < length adj →
         (∃ comp, comp ∈ sccs t ∧ x ∈ comp ∧ y ∈ comp) ↔ mutuallyReachable adj x y.
Proof.
intros Hclosed. destruct (tarjanRun_spec adj Hclosed) as (t & Hrun & Hok & Hall).
exists t. split; [done|]. intros x y Hx. split.
- intros (comp & Hc & Hxc & Hyc). by apply (comp_members adj t Hok comp x y Hc Hxc).
- intros Hxy. destruct (comp_of adj t Hok Hall x Hx) as (k & comp & Hk & Hxc & _).
  assert (comp ∈ sccs t) as Hc by by eapply list_elem_of_lookup_2.
  exists comp. split; [done|]. split; [done|].
  by apply (comp_maximal adj t Hok comp x y).
Qed.

Lemma X5_components_are_classes_witness :
  closedGraph [[1]; [2]; [0]; [2]] ∧
  ∃ t, tarjanRun [[1]; [2]; [0]; [2]] (length [[1]; [2]; [0]; [2]]) = Some t ∧
       ∀ x y, x < length [[1]; [2]; [0]; [2]] →
         (∃ comp, comp ∈ sccs t ∧ x ∈ comp ∧ y ∈ comp) ↔
         mutuallyReachable [[1]; [2]; [0]; [2]] x y.
Proof.
split; [by apply closedGraphb_correct|].
apply (X5_components_are_classes [[1]; [2]; [0]; [2]]). by apply closedGraphb_correct.
Defined.

(** X6: the components are returned in dependency order: whatever is
    reachable from a member of the component at position [k] lies in a
    component at position [k] or earlier, so a component is pushed only
    after every component it depends on. *)
Theorem X6_components_in_dependency_order (adj : list (list nat)) :
  closedGraph adj →
  ∃ t, tarjanRun adj (length adj) = Some t ∧
       ∀ k comp x y, sccs t !! k = Some comp → x ∈ comp →
         reach adj (λ _, True) x y →
         ∃ j comp', j ≤ k ∧ sccs t !! j = Some comp' ∧ y ∈ comp'.
Proof.
intros Hclosed. destruct (tarjanRun_spec adj Hclosed) as (t & Hrun & Hok & Hall).
exists t. split; [done|]. intros k comp x y. by apply reach_closed_prefix.
Qed.

Lemma X6_components_in_dependency_order_witness :
  closedGraph [[1]; [2]; [0]; [2]] ∧
  ∃ t, tarjanRun [[1]; [2]; [0]; [2]] (length [[1]; [2]; [0]; [2]]) = Some t ∧
       ∀ k comp x y, sccs t !! k = Some comp → x ∈ comp →
         reach [[1]; [2]; [0]; [2]] (λ _, True) x y →
         ∃ j comp', j ≤ k ∧ sccs t !! j = Some comp' ∧ y ∈ comp'.
Proof.
split; [by apply closedGraphb_correct|].
apply (X6_components_in_dependency_order [[1]; [2]; [0]; [2]]).
by apply closedGraphb_correct.
Defined.

(** X7: when the computation returns, the stack is empty, no node is
    flagged as on the stack, every node has been given a discovery number
    below the counter, and [sccId] holds for every node the position of the
    component that contains it. *)
Theorem X7_final_state (adj : list (list nat)) :
  closedGraph adj →
  ∃ t, tarjanRun adj (length adj) = Some t ∧ st t = [] ∧
       ∀ v, v < length adj →
         onSt t !! v = Some false ∧
         (0 ≤ idx t !!! v < index t)%Z ∧
         ∃ k comp, sccId t !!! v = Z.of_nat k ∧ sccs t !! k = Some comp ∧ v ∈ comp.
Proof.
intros Hclosed. destruct (tarjanRun_spec adj Hclosed) as (t & Hrun & Hok & Hall).
pose proof (ok_wf _ _ Hok) as Hwf. pose proof (ok_stack _ _ Hok) as Hst.
exists t. split; [done|]. split; [done|]. intros v Hv. split; [|split].
- destruct (lookup_lt_is_Some_2 (onSt t) v) as [b Hb].
  { by rewrite (wf_len_onSt _ _ Hwf). }
  destruct b; [|done]. apply (wf_onSt _ _ Hwf) in Hb.
  rewrite Hst in Hb. by apply elem_of_nil in Hb.
- destruct (wf_idx_range _ _ Hwf v Hv) as [Hnew|?]; [|done].
  exfalso. revert Hnew. apply (wf_visited _ _ Hwf v Hv).
  rewrite Hst. simpl. by apply Hall.
- destruct (comp_of adj t Hok Hall v Hv) as (k & comp & Hk & Hin & Hid).
  by exists k, comp.
Qed.

Lemma X7_final_state_witness :
  closedGraph [[1]; [2]; [0]; [2]] ∧
  ∃ t, tarjanRun [[1]; [2]; [0]; [2]] (length [[1]; [2]; [0]; [2]]) = Some t ∧
       st t = [] ∧
       ∀ v, v < length [[1]; [2]; [0]; [2]] →
         onSt t !! v = Some false ∧
         (0 ≤ idx t !!! v < index t)%Z ∧
         ∃ k comp, sccId t !!! v = Z.of_nat k ∧ sccs t !! k = Some comp ∧ v ∈ comp.
Proof.
split; [by apply closedGraphb_correct|].
apply (X7_final_state [[1]; [2]; [0]; [2]]). by apply closedGraphb_correct.
Defined.

(** ** What the search finds, and the fallback *)

Lemma isWalk_reach adj (P : nat → Prop) a l b :
  isWalk adj (a :: l ++ [b]) → (∀ x, x ∈ a :: l → P x) →
  ∃ u, last (a :: l) = Some u ∧ reach adj P a u ∧ edge adj u b.
Proof.
revert a. induction l as [|c l IH]; intros a Hw HP.
- destruct Hw as [He _]. exists a. split; [done|].
  split; [apply reach_refl, HP; by left|done].
- destruct Hw as [He Hw].
  destruct (IH c Hw) as (u & Hlast & Hr & Hu).
  { intros x Hx. apply HP. by right. }
  exists u. split; [done|]. split; [|done].
  eapply reach_step; [apply HP; by left|done|done].
Qed.

(** X8: when [start] and every member of [compSet] have a row in [adj]
    (the search reads [adj[u]] for no other node), the search from [start]
    returns, and it returns a cycle exactly when [start] belongs to
    [compSet] and some other node, reached from [start] along edges between
    members of [compSet], has an edge back to [start]; otherwise it returns
    [null]. *)
Theorem X8_search_characterised (adj : list (list nat)) (start : nat)
    (compSet : gset nat) :
  start < length adj → (∀ x, x ∈ compSet → x < length adj) →
  is_Some (findCycleFrom adj start compSet (S (size compSet))) ∧
  ((∃ cyc, findCycleFrom adj start compSet (S (size compSet)) = Some (Some cyc)) ↔
   start ∈ compSet ∧
   ∃ u, u ≠ start ∧ reach adj (λ x, x ∈ compSet) start u ∧ edge adj u start).
Proof.
intros Hstart Hrows.
destruct (findCycleFrom_total adj start compSet Hstart Hrows) as [r Hrun].
split; [by exists r|]. split.
- intros [cyc Hcyc].
  destruct (findCycleFrom_sound _ _ _ _ Hcyc) as (path & -> & Hp & Hnd & Hin & Hwalk).
  split; [apply Hin; by left|].
  destruct (isWalk_reach adj (λ x, x ∈ compSet) start path start Hwalk)
    as (u & Hlast & Hr & Hu).
  { intros x Hx. apply Hin. rewrite app_comm_cons. apply elem_of_app. by left. }
  exists u. split; [|done]. intros ->.
  apply NoDup_cons in Hnd as [Hnotin _]. apply Hnotin.
  destruct path as [|c path]; [done|]. change (last (c :: path) = Some start) in Hlast.
  by apply last_Some_elem_of.
- intros [Hs (u & Hne & Hr & Hu)].
  destruct (findCycleFrom_finds adj start compSet u r Hs Hne Hr Hu Hrun) as [cyc ->].
  by exists cyc.
Qed.

Lemma X8_search_characterised_witness :
  0 < length [[1]; [0]] ∧
  (∀ x, x ∈ ({[0; 1]} : gset nat) → x < length [[1]; [0]]) ∧
  is_Some (findCycleFrom [[1]; [0]] 0 {[0; 1]} (S (size ({[0; 1]} : gset nat)))) ∧
  ((∃ cyc, findCycleFrom [[1]; [0]] 0 {[0; 1]} (S (size ({[0; 1]} : gset nat)))
           = Some (Some cyc)) ↔
   0 ∈ ({[0; 1]} : gset nat) ∧
   ∃ u, u ≠ 0 ∧ reach [[1]; [0]] (λ x, x ∈ ({[0; 1]} : gset nat)) 0 u ∧
        edge [[1]; [0]] u 0).
Proof.
assert (0 < length [[1]; [0]]) as H0 by (simpl; lia).
assert (∀ x, x ∈ ({[0; 1]} : gset nat) → x < length [[1]; [0]]) as H1.
{ intros x [->%elem_of_singleton| ->%elem_of_singleton]%elem_of_union; simpl; lia. }
split; [done|]. split; [done|].
exact (X8_search_characterised [[1]; [0]] 0 {[0; 1]} H0 H1).
Defined.

(** A member of [compSet] without a row: the search reads
    [adj[5].length] and does not return. *)
Example search_missing_row : findCycleFrom [[5]] 0 {[0; 5]} 3 = None.
Proof. vm_compute. reflexivity. Qed.

(** X9: when the search from a member of [compSet] returns [null] and the
    fallback supplies a path, that path is [[start, nb, start]] for the
    first neighbour [nb] of [start] inside [compSet], and unless [nb] is
    [start] itself there is no edge from [nb] back to [start]: the path
    reported by the fallback is not a cycle of the graph. *)
Theorem X9_fallback_is_no_cycle (adj : list (list nat)) (start : nat)
    (compSet : gset nat) (cyc : list nat) :
  start ∈ compSet →
  findCycleFrom adj start compSet (S (size compSet)) = Some None →
  cycleOrFallback adj start compSet = Some (Some cyc) →
  ∃ nb, List.find (λ w, bool_decide (w ∈ compSet)) (adj !!! start) = Some nb ∧
        cyc = [start; nb; start] ∧ edge adj start nb ∧ nb ∈ compSet ∧
        (nb ≠ start → ¬ edge adj nb start).
Proof.
intros Hs Hnone. unfold cycleOrFallback. rewrite Hnone. simpl. unfold fallbackCycle.
destruct (List.find _ _) as [nb|] eqn:Hfind; [|done]. intros [= <-].
apply find_some in Hfind as [Hnb%list_elem_of_In Hin%bool_decide_eq_true].
exists nb. split; [done|]. split; [done|]. split; [done|]. split; [done|].
intros Hne Hback.
destruct (findCycleFrom_finds adj start compSet nb None Hs Hne) as [c Hc];
  [|done|done|done].
eapply reach_step; [done|exact Hnb|]. by apply reach_refl.
Qed.

Lemma X9_fallback_is_no_cycle_witness :
  0 ∈ ({[0; 1]} : gset nat) ∧
  findCycleFrom [[1]; []] 0 {[0; 1]} (S (size ({[0; 1]} : gset nat))) = Some None ∧
  cycleOrFallback [[1]; []] 0 {[0; 1]} = Some (Some [0; 1; 0]) ∧
  ∃ nb, List.find (λ w, bool_decide (w ∈ ({[0; 1]} : gset nat))) ([[1]; []] !!! 0) = Some nb ∧
        [0; 1; 0] = [0; nb; 0] ∧ edge [[1]; []] 0 nb ∧ nb ∈ ({[0; 1]} : gset nat) ∧
        (nb ≠ 0 → ¬ edge [[1]; []] nb 0).
Proof.
assert (0 ∈ ({[0; 1]} : gset nat)) as H0 by set_solver.
assert (findCycleFrom [[1]; []] 0 {[0; 1]} (S (size ({[0; 1]} : gset nat))) = Some None)
  as H1 by (vm_compute; reflexivity).
assert (cycleOrFallback [[1]; []] 0 {[0; 1]} = Some (Some [0; 1; 0]))
  as H2 by (vm_compute; reflexivity).
split; [done|]. split; [done|]. split; [done|].
exact (X9_fallback_is_no_cycle [[1]; []] 0 {[0; 1]} [0; 1; 0] H0 H1 H2).
Defined.

(** ** What the reporting loop of [src/index.js] selects *)

Lemma StronglySorted_sublist {A} (R : relation A) (l1 l2 : list A) :
  l1 `sublist_of` l2 → StronglySorted R l2 → StronglySorted R l1.
Proof.
induction 1 as [|x l1 l2 Hs IH|x l1 l2 Hs IH]; intros Hl2; [done| |].
- apply StronglySorted_inv in Hl2 as [Hl2 Hx]. apply SSorted_cons; [by apply IH|].
  rewrite Forall_forall in *. intros y Hy. apply Hx. by eapply elem_of_sublist.
- apply StronglySorted_inv in Hl2 as [Hl2 _]. by apply IH.
Qed.

Lemma omap_lookup_seq {A} (l : list A) i n :
  omap (l !!.) (seq i n) = take n (drop i l).
Proof.
revert i. induction n as [|n IH]; intros i; csimpl; [done|].
rewrite IH. destruct (l !! i) as [x|] eqn:Hi.
- by rewrite (drop_S _ _ _ Hi).
- apply lookup_ge_None in Hi. rewrite !drop_ge by lia. by rewrite !take_nil.
Qed.

Lemma omap_lookup_all {A} (l : list A) : omap (l !!.) (seq 0 (length l)) = l.
Proof. rewrite omap_lookup_seq. simpl. apply firstn_all. Qed.

Lemma omap_fst_sublist {X} (f : nat → option (nat * X)) (l : list nat) js :
  (∀ j m c, f j = Some (m, c) → l !! j = Some m) →
  fst <$> omap f js `sublist_of` omap (l !!.) js.
Proof.
intros Hf. induction js as [|j js IH]; csimpl; [done|].
destruct (f j) as [[m c]|] eqn:Hj.
- rewrite (Hf _ _ _ Hj). csimpl. by apply sublist_skip.
- destruct (l !! j); [by apply sublist_cons|done].
Qed.

Section Selected.
Variable exclude include : string → bool.
Variable heap : nat → Module.
Variable allowAsyncCycles : bool.
Variable modList : list nat.
Variable t : tarjan.

Hypothesis Hok :
  tarjanOK (buildAdjacencyList heap allowAsyncCycles modList (mkIdOf modList)) t.
Hypothesis Hall :
  ∀ v, v < length (buildAdjacencyList heap allowAsyncCycles modList (mkIdOf modList)) →
       v ∈ concat (sccs t).

(** A selected pair belongs to an eligible member of a cyclic component,
    and its cycle is the one found by the search. *)
Lemma selected_sound mIdxs m cyc :
  (m, cyc) ∈ selected exclude include heap modList (mkIdOf modList)
               (buildAdjacencyList heap allowAsyncCycles modList (mkIdOf modList))
               t mIdxs →
  ∃ i comp r, modList !! i = Some m ∧ comp ∈ sccs t ∧ i ∈ comp ∧
    componentInvalid heap modList comp = false ∧
    resourceOf heap m = Some r ∧ exclude r = false ∧ include r = true ∧
    simpleCycle (buildAdjacencyList heap allowAsyncCycles modList (mkIdOf modList))
      i comp cyc.
Proof.
unfold selected. intros (mIdx & _ & Hsel)%list_elem_of_omap.
unfold selectCycle in Hsel.
destruct (modList !! mIdx) as [m'|] eqn:Hm'; [|done].
destruct (mkIdOf modList !! m') as [i|] eqn:Hi; [|done].
apply mkIdOf_Some in Hi.
destruct (comp_of _ t Hok Hall i) as (k & comp & Hk & Hin & Hid).
{ rewrite buildAdjacencyList_length. by eapply lookup_lt_Some. }
rewrite Hid, Nat2Z.id in Hsel. unfold sccInvalid in Hsel.
rewrite list_lookup_fmap, Hk, (lookup_total_Some _ _ _ Hk) in Hsel. simpl in Hsel.
assert (comp ∈ sccs t) as Hc by by eapply list_elem_of_lookup_2.
destruct (componentInvalid heap modList comp) eqn:Hvalid.
{ rewrite decide_True in Hsel by by right. done. }
rewrite decide_False in Hsel by (intros [?|?]; [lia|done]).
destruct (resourceOf heap m') as [r|] eqn:Hr; [|done].
destruct (exclude r) eqn:Hex; [done|]. destruct (include r) eqn:Hinc; [|done].
simpl in Hsel.
destruct (valid_cycle heap allowAsyncCycles modList t Hok comp i Hc Hvalid Hin)
  as (cyc' & _ & Hcyc & Hsimple).
rewrite Hcyc in Hsel. simpl in Hsel. injection Hsel as <- <-.
by exists i, comp, r.
Qed.

(** The modules of the selected pairs, in order, are picked from the
    module list without changing their order. *)
Lemma selected_sublist :
  fst <$> selected exclude include heap modList (mkIdOf modList)
            (buildAdjacencyList heap allowAsyncCycles modList (mkIdOf modList))
            t (seq 0 (length modList))
  `sublist_of` modList.
Proof.
unfold selected.
pose proof (omap_fst_sublist
  (λ mIdx, mjoin (selectCycle exclude include heap modList (mkIdOf modList)
     (buildAdjacencyList heap allowAsyncCycles modList (mkIdOf modList)) t mIdx))
  modList (seq 0 (length modList))) as Hsub.
rewrite omap_lookup_all in Hsub. apply Hsub.
intros j m c Hs. unfold selectCycle in Hs.
repeat case_match; simplify_eq/=; done.
Qed.
End Selected.

(** X10: the pass of [src/index.js] reports nothing but cycles: every
    selected pair belongs to a module of the sorted list whose component
    has at least two members, all with a resource identifier, and whose own
    resource identifier passes the two filters; its cycle starts and ends
    at the index of the module, repeats no other index, stays inside the
    component and follows edges of the graph. *)
Theorem X10_reports_are_cycles (exclude include : string → bool)
    (heap : nat → Module) (allowAsyncCycles : bool)
    (modules : list (option nat)) (m : nat) (cyc : list nat) :
  let modList := createSortedModuleList heap modules in
  let adj := buildAdjacencyList heap allowAsyncCycles modList (mkIdOf modList) in
  (m, cyc) ∈ reportsJs exclude include heap allowAsyncCycles modules →
  ∃ t i comp r, tarjanRun adj (length adj) = Some t ∧
    modList !! i = Some m ∧ comp ∈ sccs t ∧ i ∈ comp ∧
    componentInvalid heap modList comp = false ∧
    resourceOf heap m = Some r ∧ exclude r = false ∧ include r = true ∧
    simpleCycle adj i comp cyc.
Proof.
intros modList adj. unfold reportsJs. fold modList. fold adj.
destruct (tarjanRun_spec adj (buildAdjacencyList_closed heap allowAsyncCycles modList))
  as (t & Hrun & Hok & Hall).
rewrite Hrun. intros Hin.
destruct (selected_sound exclude include heap allowAsyncCycles modList t Hok Hall _ _ _ Hin)
  as (i & comp & r & H).
by exists t, i, comp, r.
Qed.

Lemma X10_reports_are_cycles_witness :
  let modList := createSortedModuleList pairHeap pairModules in
  let adj := buildAdjacencyList pairHeap false modList (mkIdOf modList) in
  (10, [0; 1; 0]) ∈ reportsJs (λ _, false) (λ _, true) pairHeap false pairModules ∧
  ∃ t i comp r, tarjanRun adj (length adj) = Some t ∧
    modList !! i = Some 10 ∧ comp ∈ sccs t ∧ i ∈ comp ∧
    componentInvalid pairHeap modList comp = false ∧
    resourceOf pairHeap 10 = Some r ∧ (λ _ : string, false) r = false ∧
    (λ _ : string, true) r = true ∧
    simpleCycle adj i comp [0; 1; 0].
Proof.
intros modList adj.
assert ((10, [0; 1; 0]) ∈ reportsJs (λ _, false) (λ _, true) pairHeap false pairModules)
  as Hin.
{ assert (reportsJs (λ _, false) (λ _, true) pairHeap false pairModules =
          [(10, [0; 1; 0]); (11, [1; 0; 1])]) as -> by (vm_compute; reflexivity).
  by left. }
split; [done|].
exact (X10_reports_are_cycles (λ _, false) (λ _, true) pairHeap false pairModules
         10 [0; 1; 0] Hin).
Defined.

(** X11: the reports of [src/index.js] come in the order of the sorted
    module list: the reported modules form a subsequence of that list, so
    their keys never decrease. *)
Theorem X11_reports_in_sorted_order (exclude include : string → bool)
    (heap : nat → Module) (allowAsyncCycles : bool) (modules : list (option nat)) :
  let reported := fst <$> reportsJs exclude include heap allowAsyncCycles modules in
  reported `sublist_of` createSortedModuleList heap modules ∧
  StronglySorted (keyLe heap) reported.
Proof.
intros reported.
assert (reported `sublist_of` createSortedModuleList heap modules) as Hsub.
{ unfold reported, reportsJs.
  destruct (tarjanRun _ _) as [t|]; [apply selected_sublist|apply sublist_nil_l]. }
split; [done|].
eapply StronglySorted_sublist; [exact Hsub|apply arraySort_sorted].
Qed.

Lemma foldl_emit_plain {Σ E : Type} (relative : string → string) (failOnError : bool)
    heap modList reports (h : Host Σ E) :
  let msgs := (λ r : nat * list nat,
                 CircularError (message (relPathsOf relative heap modList r.2)))
              <$> reports in
  let h' := foldl (emitReport relative failOnError None heap modList) h reports in
  errors h' = errors h ++ (if failOnError then msgs else []) ∧
  warnings h' = warnings h ++ (if failOnError then [] else msgs) ∧
  cbState h' = cbState h ∧ calls h' = calls h.
Proof.
revert h. induction reports as [|r reports IH]; intros h.
- simpl. destruct failOnError; by rewrite !app_nil_r.
- destruct (IH (emitReport relative failOnError None heap modList h r))
    as (He & Hw & Hs & Hc).
  cbn zeta. rewrite fmap_cons.
  change (foldl (emitReport relative failOnError None heap modList) h (r :: reports))
    with (foldl (emitReport relative failOnError None heap modList)
            (emitReport relative failOnError None heap modList h r) reports).
  rewrite He, Hw, Hs, Hc. unfold emitReport, emit.
  destruct failOnError; simpl; rewrite <- ?app_assoc, ?app_nil_r; done.
Qed.

(** X12: without an [onDetected] callback the pass completes and appends
    one diagnostic per report, in order, to [errors] when [failOnError] is
    set and to [warnings] otherwise; the other channel is left as it was. *)
Theorem X12_diagnostics_without_callback {Σ E : Type} (exclude include : string → bool)
    (relative : string → string) (failOnError : bool)
    (heap : nat → Module) (allowAsyncCycles : bool)
    (modules : list (option nat)) (h : Host Σ E) :
  let modList := createSortedModuleList heap modules in
  let msgs := (λ r : nat * list nat,
                 CircularError (message (relPathsOf relative heap modList r.2)))
              <$> reportsJs exclude include heap allowAsyncCycles modules in
  ∃ h', detect exclude include relative failOnError None heap allowAsyncCycles modules h
          = Some h' ∧
        errors h' = errors h ++ (if failOnError then msgs else []) ∧
        warnings h' = warnings h ++ (if failOnError then [] else msgs) ∧
        cbState h' = cbState h ∧ calls h' = calls h.
Proof.
intros modList msgs. eexists. split; [apply detect_reports|].
apply foldl_emit_plain.
Qed.

(** X13: in the graph built by the pass a component of at least two
    members never contains a module without resource identifier (each
    member is the target of a collected dependency), so a component is
    classified invalid exactly when it has at most one member. *)
Theorem X13_resource_test_redundant (heap : nat → Module) (allowAsyncCycles : bool)
    (modules : list (option nat)) :
  let modList := createSortedModuleList heap modules in
  let adj := buildAdjacencyList heap allowAsyncCycles modList (mkIdOf modList) in
  ∃ t, tarjanRun adj (length adj) = Some t ∧
       ∀ comp, comp ∈ sccs t →
         componentInvalid heap modList comp = (length comp <=? 1).
Proof.
intros modList adj.
destruct (tarjanRun_spec adj (buildAdjacencyList_closed heap allowAsyncCycles modList))
  as (t & Hrun & Hok & Hall).
exists t. split; [done|]. intros comp Hc.
by apply (componentInvalid_size heap allowAsyncCycles modList t Hok).
Qed.

(** X17: the [paths] of every report of [src/index.js] have at least three
    entries, and the first and the last are the relative path of the
    reported module. *)
Theorem X17_paths_shape (exclude include : string → bool)
    (relative : string → string) (heap : nat → Module) (allowAsyncCycles : bool)
    (modules : list (option nat)) (m : nat) (cyc : list nat) :
  let modList := createSortedModuleList heap modules in
  (m, cyc) ∈ reportsJs exclude include heap allowAsyncCycles modules →
  ∃ r mid, resourceOf heap m = Some r ∧ mid ≠ [] ∧
    relPathsOf relative heap modList cyc = rel relative r :: mid ++ [rel relative r].
Proof.
intros modList. unfold reportsJs. fold modList.
destruct (tarjanRun_spec _ (buildAdjacencyList_closed heap allowAsyncCycles modList))
  as (t & Hrun & Hok & Hall).
rewrite Hrun. intros Hin.
destruct (selected_sound exclude include heap allowAsyncCycles modList t Hok Hall _ _ _ Hin)
  as (i & comp & r & Hm & _ & _ & _ & Hr & _ & _ & path & -> & Hp & _).
exists r, ((λ p, rel relative (default EmptyString (modList !! p ≫= resourceOf heap)))
             <$> path).
split; [done|]. split; [by destruct path|].
unfold relPathsOf. rewrite fmap_cons, fmap_app. simpl. by rewrite Hm; simpl; rewrite Hr.
Qed.

Lemma X17_paths_shape_witness :
  let modList := createSortedModuleList pairHeap pairModules in
  (10, [0; 1; 0]) ∈ reportsJs (λ _, false) (λ _, true) pairHeap false pairModules ∧
  ∃ r mid, resourceOf pairHeap 10 = Some r ∧ mid ≠ [] ∧
    relPathsOf (λ p, p) pairHeap modList [0; 1; 0] =
      rel (λ p, p) r :: mid ++ [rel (λ p, p) r].
Proof.
intros modList.
assert ((10, [0; 1; 0]) ∈ reportsJs (λ _, false) (λ _, true) pairHeap false pairModules)
  as Hin.
{ assert (reportsJs (λ _, false) (λ _, true) pairHeap false pairModules =
          [(10, [0; 1; 0]); (11, [1; 0; 1])]) as -> by (vm_compute; reflexivity).
  by left. }
split; [done|].
exact (X17_paths_shape (λ _, false) (λ _, true) (λ p, p) pairHeap false pairModules
         10 [0; 1; 0] Hin).
Defined.

(** X18: when no two distinct nodes of the built graph reach each other,
    the pass reports nothing and leaves the compilation as it was. *)
Theorem X18_no_cycle_no_report {Σ E : Type} (exclude include : string → bool)
    (relative : string → string) (failOnError : bool)
    (onDetected : option (Detected → Σ → Σ * option E))
    (heap : nat → Module) (allowAsyncCycles : bool)
    (modules : list (option nat)) (h : Host Σ E) :
  let modList := createSortedModuleList heap modules in
  let adj := buildAdjacencyList heap allowAsyncCycles modList (mkIdOf modList) in
  (∀ x y, mutuallyReachable adj x y → x = y) →
  reportsJs exclude include heap allowAsyncCycles modules = [] ∧
  detect exclude include relative failOnError onDetected heap allowAsyncCycles modules h
    = Some h.
Proof.
intros modList adj Hacyclic.
assert (reportsJs exclude include heap allowAsyncCycles modules = []) as Hnone.
{ destruct (reportsJs exclude include heap allowAsyncCycles modules) as [|[m cyc] rest] eqn:Hr;
    [done|]. exfalso.
  assert ((m, cyc) ∈ reportsJs exclude include heap allowAsyncCycles modules) as Hin
    by (rewrite Hr; by left).
  clear Hr. revert Hin. unfold reportsJs. fold modList. fold adj.
  destruct (tarjanRun_spec adj (buildAdjacencyList_closed heap allowAsyncCycles modList))
    as (t & Hrun & Hok & Hall).
  rewrite Hrun. intros Hin.
  destruct (selected_sound exclude include heap allowAsyncCycles modList t Hok Hall _ _ _ Hin)
    as (i & comp & r & _ & Hc & Hi & [Hlen _]%componentInvalid_false & _).
  destruct (NoDup_other comp i (comp_NoDup adj t Hok comp Hc) Hlen) as (y & Hy & Hne).
  apply Hne. symmetry. apply Hacyclic.
  by apply (comp_members adj t Hok comp i y Hc Hi). }
split; [done|]. rewrite detect_reports. by rewrite Hnone.
Qed.

Lemma X18_no_cycle_no_report_witness :
  let modList := createSortedModuleList twiceHeap twiceModules in
  let adj := buildAdjacencyList twiceHeap false modList (mkIdOf modList) in
  (∀ x y, mutuallyReachable adj x y → x = y) ∧
  reportsJs (λ _, false) (λ _, true) twiceHeap false twiceModules = [] ∧
  detect (λ _, false) (λ _, true) (λ p, p) false None twiceHeap false twiceModules
    emptyHost = Some emptyHost.
Proof.
intros modList adj.
assert (adj = [[1; 1]; []]) as Hadj by (vm_compute; reflexivity).
assert (∀ x y, mutuallyReachable adj x y → x = y) as Hacyclic.
{ rewrite Hadj.
  assert (∀ n z, n ≠ 0 → reach [[1; 1]; []] (λ _, True) n z → z = n) as Hsink.
  { intros n z Hn Hr. destruct Hr as [u _|u w z _ He Hr]; [done|]. exfalso.
    unfold edge in He. destruct u as [|[|u]]; [done| |]; by apply elem_of_nil in He. }
  intros x y [Hxy Hyx]. destruct (decide (x = 0)) as [->|Hx].
  - destruct (decide (y = 0)) as [->|Hy]; [done|]. by apply (Hsink y 0 Hy) in Hyx.
  - symmetry. by apply Hsink. }
split; [done|].
exact (X18_no_cycle_no_report (λ _, false) (λ _, true) (λ p, p) false None
         twiceHeap false twiceModules emptyHost Hacyclic).
Defined.

(** ** The option [allowAsyncCycles] *)

Lemma edge_without_async heap (modList : list nat) u w :
  NoDup modList →
  edge (buildAdjacencyList heap true modList (mkIdOf modList)) u w →
  edge (buildAdjacencyList heap false modList (mkIdOf modList)) u w.
Proof.
intros Hnd (m & dep & Hm & Hdep & Hw)%edge_built.
unfold edge. rewrite buildAdjacencyList_row, Hm. simpl.
apply list_elem_of_omap. exists dep. split; [|by apply mkIdOf_NoDup].
apply getDeps_char in Hdep as (d & Hin & Hself & _ & Hd).
apply getDeps_char. by exists d.
Qed.

(** X14: setting [allowAsyncCycles] only removes reports: when no module
    is supplied twice, every module reported with the option set is also
    reported without it. *)
Theorem X14_async_only_removes_reports (exclude include : string → bool)
    (heap : nat → Module) (modules : list (option nat)) (m : nat) :
  NoDup (omap id modules) →
  m ∈ fst <$> reportsJs exclude include heap true modules →
  m ∈ fst <$> reportsJs exclude include heap false modules.
Proof.
intros Hnd. pose proof (createSortedModuleList_NoDup heap modules Hnd) as Hndl.
unfold reportsJs. set (modList := createSortedModuleList heap modules) in *.
destruct (tarjanRun_spec _ (buildAdjacencyList_closed heap true modList))
  as (t1 & Hrun1 & Hok1 & Hall1).
destruct (tarjanRun_spec _ (buildAdjacencyList_closed heap false modList))
  as (t2 & Hrun2 & Hok2 & Hall2).
rewrite Hrun1, Hrun2. intros ([m' cyc] & -> & Hin)%list_elem_of_fmap. simpl.
destruct (selected_sound exclude include heap true modList t1 Hok1 Hall1 _ _ _ Hin)
  as (i & c1 & r & Hm & Hc1 & Hi1 & [Hlen1 _]%componentInvalid_false & Hr & Hex & Hinc & _).
destruct (NoDup_other c1 i (comp_NoDup _ t1 Hok1 c1 Hc1) Hlen1) as (y & Hy & Hne).
assert (mutuallyReachable (buildAdjacencyList heap false modList (mkIdOf modList)) i y)
  as Hmr.
{ destruct (proj1 (comp_members _ t1 Hok1 c1 i y Hc1 Hi1) Hy) as [H1 H2].
  split; (eapply reach_ext; [intros a b; by apply edge_without_async|done]). }
destruct (comp_of _ t2 Hok2 Hall2 i) as (k & c2 & Hk & Hi2 & _).
{ rewrite buildAdjacencyList_length. by eapply lookup_lt_Some. }
assert (c2 ∈ sccs t2) as Hc2 by by eapply list_elem_of_lookup_2.
pose proof (comp_maximal _ t2 Hok2 c2 i y Hc2 Hi2 Hmr) as Hy2.
assert (componentInvalid heap modList c2 = false) as Hvalid.
{ rewrite (componentInvalid_size heap false modList t2 Hok2 c2 Hc2).
  apply Nat.leb_gt. destruct c2 as [|a [|b c2]]; simpl; [|exfalso|lia].
  - by apply elem_of_nil in Hi2.
  - apply list_elem_of_singleton in Hi2, Hy2. congruence. }
destruct (valid_cycle heap false modList t2 Hok2 c2 i Hc2 Hvalid Hi2)
  as (cyc2 & _ & Hcyc2 & _).
apply list_elem_of_fmap. exists (m', cyc2). split; [done|].
apply (list_elem_of_filter (λ x : nat * list nat, x.1 = m')).
rewrite (selected_unique exclude include heap false modList t2 Hndl i m')
  by (done || apply NoDup_seq).
rewrite decide_True by (apply elem_of_seq; apply lookup_lt_Some in Hm; lia).
rewrite (selectCycle_char exclude include heap false modList t2 Hndl Hok2 i m' c2) by done.
rewrite Hvalid, Hr, Hex, Hinc. simpl. rewrite Hcyc2. simpl. by left.
Qed.

Lemma X14_async_only_removes_reports_witness :
  NoDup (omap id pairModules) ∧
  10 ∈ fst <$> reportsJs (λ _, false) (λ _, true) pairHeap true pairModules ∧
  10 ∈ fst <$> reportsJs (λ _, false) (λ _, true) pairHeap false pairModules.
Proof.
assert (NoDup (omap id pairModules)) as Hnd
  by (apply (bool_decide_unpack _); by vm_compute).
assert (10 ∈ fst <$> reportsJs (λ _, false) (λ _, true) pairHeap true pairModules)
  as Hin.
{ assert (fst <$> reportsJs (λ _, false) (λ _, true) pairHeap true pairModules =
          [10; 11]) as -> by (vm_compute; reflexivity).
  by left. }
split; [done|]. split; [done|].
exact (X14_async_only_removes_reports (λ _, false) (λ _, true) pairHeap pairModules
         10 Hnd Hin).
Defined.

(** A cycle through a weak dependency is reported without the option and
    dropped with it. *)
Example async_cycle_dropped :
  fst <$> reportsJs (λ _, false) (λ _, true) asyncHeap false [Some 10; Some 11] = [10; 11] ∧
  reportsJs (λ _, false) (λ _, true) asyncHeap true [Some 10; Some 11] = [].
Proof. split; vm_compute; reflexivity. Qed.

(** ** The refactored copy in [src/index.d.ts] *)

(** X15: on the graph built by the pass the refactored
    [computeStronglyConnectedComponents] returns the same components in the
    same order as the computation of [src/index.js], and
    [flagInvalidComponents] gives them the flags kept in [sccInvalid]. *)
Theorem X15_refactored_components (heap : nat → Module) (allowAsyncCycles : bool)
    (modules : list (option nat)) :
  let modList := createSortedModuleList heap modules in
  let adj := buildAdjacencyList heap allowAsyncCycles modList (mkIdOf modList) in
  let resOf := resourceOf heap <$> modList in
  ∃ t, tarjanRun adj (length adj) = Some t ∧
       Dts.computeStronglyConnectedComponents adj (length adj) = Some (sccs t) ∧
       Dts.flagInvalidComponents resOf (sccs t) = sccInvalid heap modList t.
Proof.
intros modList adj resOf.
destruct (tarjanRun_spec adj (buildAdjacencyList_closed heap allowAsyncCycles modList))
  as (t & Hrun & _).
exists t. split; [done|]. split; [by apply compute_sim|].
apply flagInvalidComponents_dts.
Qed.

(** X16: [sortIndicesByResource] returns the indices it is given, each as
    often as given, with keys (the cached resource identifier, or the empty
    string) that never decrease, and keeps indices with equal keys in the
    order given. *)
Theorem X16_member_sort (resOf : list (option string)) (indices : list nat) :
  let key := λ i, default EmptyString (Dts.resAt resOf i) in
  let sorted := Dts.sortIndicesByResource resOf indices in
  sorted ≡ₚ indices ∧
  StronglySorted (λ a b, String.ltb (key b) (key a) = false) sorted ∧
  ∀ k, filter (λ i, key i = k) sorted = filter (λ i, key i = k) indices.
Proof.
intros key sorted. split; [apply arraySort_Permutation|].
split; [apply (arraySort_key_sorted key)|]. intros k. apply (arraySort_key_stable key).
Qed.

Lemma filter_asDts (m : nat) (js : list (nat * list nat)) :
  filter (λ x : option nat * list nat, x.1 = Some m) (asDts <$> js) =
  asDts <$> filter (λ x : nat * list nat, x.1 = m) js.
Proof.
induction js as [|[m' c] js IH]; [done|].
rewrite fmap_cons, !filter_cons, IH. unfold asDts at 1. simpl.
destruct (decide (m' = m)) as [->|Hne].
- by rewrite decide_True.
- rewrite decide_False; [done|]. by intros [= ?].
Qed.

(** X19: when no module is supplied twice, the refactored pass also emits
    exactly one report for every member of a cyclic component whose
    resource identifier passes the filters, and its cycle starts and ends
    at the member, repeats no other index, stays inside the component and
    follows edges of the graph. *)
Theorem X19_refactored_one_cycle_per_member (exclude include : string → bool)
    (heap : nat → Module) (allowAsyncCycles : bool) (modules : list (option nat)) :
  NoDup (omap id modules) →
  let modList := createSortedModuleList heap modules in
  let adj := buildAdjacencyList heap allowAsyncCycles modList (mkIdOf modList) in
  let reports := reportsDts exclude include heap allowAsyncCycles modules in
  ∃ t, tarjanRun adj (length adj) = Some t ∧
    ∀ comp i m r,
      comp ∈ sccs t → componentInvalid heap modList comp = false → i ∈ comp →
      modList !! i = Some m → resourceOf heap m = Some r →
      exclude r = false → include r = true →
      ∃ cyc, filter (λ x, x.1 = Some m) reports = [(Some m, cyc)] ∧
             simpleCycle adj i comp cyc.
Proof.
intros Hnd modList adj reports.
pose proof (createSortedModuleList_NoDup heap modules Hnd) as Hndl.
destruct (tarjanRun_spec adj (buildAdjacencyList_closed heap allowAsyncCycles modList))
  as (t & Hrun & Hok & Hall).
exists t. split; [done|]. intros comp i m r Hc Hvalid Hi Hm Hr Hex Hin.
destruct (valid_cycle heap allowAsyncCycles modList t Hok comp i Hc Hvalid Hi)
  as (cyc & _ & Hcyc & Hsimple).
assert (reports ≡ₚ
        asDts <$> selected exclude include heap modList (mkIdOf modList) adj t
                    (seq 0 (length modList))) as Hperm.
{ unfold reports, reportsDts. fold modList. fold adj.
  rewrite (compute_sim _ _ _ Hrun). by apply reports_Permutation. }
exists cyc. split; [|done]. apply Permutation_singleton_r.
rewrite Hperm, filter_asDts.
rewrite (selected_unique exclude include heap allowAsyncCycles modList t Hndl i m)
  by (done || apply NoDup_seq).
rewrite decide_True by (apply elem_of_seq; apply lookup_lt_Some in Hm; lia).
rewrite (selectCycle_char exclude include heap allowAsyncCycles modList t Hndl Hok i m comp)
  by done.
rewrite Hvalid, Hr, Hex, Hin. simpl. by rewrite Hcyc.
Qed.

Lemma X19_refactored_one_cycle_per_member_witness :
  NoDup (omap id pairModules) ∧
  let modList := createSortedModuleList pairHeap pairModules in
  let adj := buildAdjacencyList pairHeap false modList (mkIdOf modList) in
  let reports := reportsDts (λ _, false) (λ _, true) pairHeap false pairModules in
  ∃ t, tarjanRun adj (length adj) = Some t ∧
    ∀ comp i m r,
      comp ∈ sccs t → componentInvalid pairHeap modList comp = false → i ∈ comp →
      modList !! i = Some m → resourceOf pairHeap m = Some r →
      (λ _ : string, false) r = false → (λ _ : string, true) r = true →
      ∃ cyc, filter (λ x, x.1 = Some m) reports = [(Some m, cyc)] ∧
             simpleCycle adj i comp cyc.
Proof.
split; [apply (bool_decide_unpack _); by vm_compute|].
apply (X19_refactored_one_cycle_per_member (λ _, false) (λ _, true) pairHeap false
         pairModules).
apply (bool_decide_unpack _). by vm_compute.
Defined.

(** ** Modules without resource identifier *)

Lemma getResource_nonempty (m : Module) r : getResource m = Some r → r ≠ EmptyString.
Proof.
assert (∀ s, truthy s = Some r → r ≠ EmptyString) as Ht.
{ intros [s|]; simpl; [|done]. destruct (decide (s = EmptyString)); [done|]. congruence. }
unfold getResource.
destruct (truthy (resource m)) as [r1|] eqn:H1; [intros [= <-]; by eapply Ht|].
destruct (rootModule m) as [rm|]; simpl.
- destruct (truthy (ref_resource rm)) as [r2|] eqn:H2; [intros [= <-]; by eapply Ht|].
  destruct (originalModule m) as [om|]; simpl; [|done].
  destruct (truthy (ref_resource om)) as [r3|] eqn:H3; [intros [= <-]; by eapply Ht|done].
- destruct (originalModule m) as [om|]; simpl; [|done].
  destruct (truthy (ref_resource om)) as [r3|] eqn:H3; [intros [= <-]; by eapply Ht|done].
Qed.

Lemma StronglySorted_lookup {A} (R : relation A) (l : list A) i j x y :
  StronglySorted R l → l !! i = Some x → l !! j = Some y → i < j → R x y.
Proof.
intros Hl Hi Hj Hlt. rewrite <- (take_drop j l) in Hl.
apply (StronglySorted_app_1_elem_of _ _ _ x y Hl).
- apply list_elem_of_lookup. exists i. by rewrite lookup_take_lt.
- apply list_elem_of_lookup. exists 0. by rewrite lookup_drop, Nat.add_0_r.
Qed.

(** X20: in the sorted module list every module without resource
    identifier stands before every module that has one (its key is the
    empty string). *)
Theorem X20_resourceless_first (heap : nat → Module) (modules : list (option nat))
    (i j m m' : nat) :
  let modList := createSortedModuleList heap modules in
  modList !! i = Some m → modList !! j = Some m' →
  resourceOf heap m = None → is_Some (resourceOf heap m') → i < j.
Proof.
intros modList Hi Hj Hnone [r Hr].
destruct (decide (i < j)) as [|Hge]; [done|]. exfalso.
assert (j ≠ i) by (intros ->; congruence).
assert (j < i) as Hlt by lia.
pose proof (StronglySorted_lookup _ _ _ _ _ _ (arraySort_sorted heap (omap id modules))
              Hj Hi Hlt) as Hle.
unfold keyLe, keyOf in Hle. rewrite Hnone, Hr in Hle. simpl in Hle.
apply getResource_nonempty in Hr. by destruct r.
Qed.

Lemma X20_resourceless_first_witness :
  let modList := createSortedModuleList pairHeap [Some 10; Some 5] in
  modList !! 0 = Some 5 ∧ modList !! 1 = Some 10 ∧
  resourceOf pairHeap 5 = None ∧ is_Some (resourceOf pairHeap 10) ∧ 0 < 1.
Proof.
intros modList.
assert (modList !! 0 = Some 5) as H0 by (vm_compute; reflexivity).
assert (modList !! 1 = Some 10) as H1 by (vm_compute; reflexivity).
assert (resourceOf pairHeap 5 = None) as H2 by (vm_compute; reflexivity).
assert (is_Some (resourceOf pairHeap 10)) as H3 by (vm_compute; by eexists).
split; [done|]. split; [done|]. split; [done|]. split; [done|].
exact (X20_resourceless_first pairHeap [Some 10; Some 5] 0 1 5 10 H0 H1 H2 H3).
Defined.

Lemma Dts_detect_reports {Σ E : Type} (exclude include : string → bool)
    (relative : string → string) (failOnError : bool)
    (onDetected : option (Detected → Σ → Σ * option E))
    (heap : nat → Module) (allowAsyncCycles : bool)
    (modules : list (option nat)) (h : Host Σ E) :
  Dts.detect exclude include relative failOnError onDetected heap allowAsyncCycles modules h =
  Some (foldl (emitDts relative failOnError onDetected
                 (resourceOf heap <$> createSortedModuleList heap modules)) h
              (reportsDts exclude include heap allowAsyncCycles modules)).
Proof.
unfold Dts.detect, reportsDts.
destruct (tarjanRun_spec _ (buildAdjacencyList_closed heap allowAsyncCycles
            (createSortedModuleList heap modules))) as (t & Hrun & Hok & _).
rewrite (compute_sim _ _ _ Hrun). simpl. apply Dts_componentLoop_fold.
by apply zip_comp_bound.
Qed.

Lemma emitDts_callback {Σ E : Type} (relative : string → string)
    (failOnError : bool) (cb : Detected → Σ → Σ * option E)
    (resOf : list (option string)) r (h : Host Σ E) :
  let arg := {| det_module := r.1; det_paths := Dts.relPathsOf relative resOf r.2 |} in
  let h' := emitDts relative failOnError (Some cb) resOf h r in
  calls h' = calls h ++ [arg] ∧
  errors h' = errors h ++ (Thrown <$> option_list (cb arg (cbState h)).2) ∧
  warnings h' = warnings h ∧
  cbState h' = (cb arg (cbState h)).1.
Proof.
unfold emitDts, emit. simpl.
destruct (cb _ (cbState h)) as [σ' [e|]]; simpl; by rewrite ?app_nil_r.
Qed.

Lemma foldl_emitDts_callback {Σ E : Type} (relative : string → string)
    (failOnError : bool) (cb : Detected → Σ → Σ * option E)
    (resOf : list (option string)) reports (h : Host Σ E) :
  let args := (λ r : option nat * list nat,
                 {| det_module := r.1;
                    det_paths := Dts.relPathsOf relative resOf r.2 |}) <$> reports in
  let h' := foldl (emitDts relative failOnError (Some cb) resOf) h reports in
  calls h' = calls h ++ args ∧
  errors h' = errors h ++ (Thrown <$> (runCallback cb args (cbState h)).2) ∧
  warnings h' = warnings h ∧
  cbState h' = (runCallback cb args (cbState h)).1.
Proof.
revert h. induction reports as [|r reports IH]; intros h.
- simpl. by rewrite !app_nil_r.
- destruct (IH (emitDts relative failOnError (Some cb) resOf h r))
    as (Hc & He & Hw & Hs).
  destruct (emitDts_callback relative failOnError cb resOf r h)
    as (Hc1 & He1 & Hw1 & Hs1).
  cbn zeta in *. rewrite fmap_cons, runCallback_cons.
  change (foldl ?f h (r :: reports)) with (foldl f (f h r) reports).
  rewrite Hc, He, Hw, Hs, Hc1, He1, Hw1, Hs1. cbn [fst snd].
  rewrite fmap_app, <- !app_assoc. done.
Qed.

(** X21: the refactored pass catches what [onDetected] throws too: it
    completes, calls the collaborator once for every report it selects, in
    order, appends every thrown value to [errors] and leaves [warnings] as
    they were. *)
Theorem X21_refactored_callback_errors_caught {Σ E : Type}
    (exclude include : string → bool) (relative : string → string)
    (failOnError : bool) (cb : Detected → Σ → Σ * option E)
    (heap : nat → Module) (allowAsyncCycles : bool)
    (modules : list (option nat)) (h : Host Σ E) :
  let resOf := resourceOf heap <$> createSortedModuleList heap modules in
  let args := (λ r : option nat * list nat,
                 {| det_module := r.1;
                    det_paths := Dts.relPathsOf relative resOf r.2 |})
              <$> reportsDts exclude include heap allowAsyncCycles modules in
  ∃ h', Dts.detect exclude include relative failOnError (Some cb) heap allowAsyncCycles
          modules h = Some h' ∧
        calls h' = calls h ++ args ∧
        errors h' = errors h ++ (Thrown <$> (runCallback cb args (cbState h)).2) ∧
        warnings h' = warnings h ∧
        cbState h' = (runCallback cb args (cbState h)).1.
Proof.
intros resOf args. eexists. split; [apply Dts_detect_reports|].
apply foldl_emitDts_callback.
Qed.
